(** * map-object: a shallow embedding of the path engine and its properties

    The development follows the single source file of the library:
    the type-checking utilities ([isObject], [isMapper], [isArrayKey],
    [isIndexKey], [toMapArray]), [readValue], [writeValue], [resolveMap],
    [resolveMapArray] and [mapObject].

    Modelling choices.
    - JavaScript values are primitives or references into a heap of cells
      (plain objects and arrays); [writeValue] mutates cells in place and
      values read from the cloned source are shared with the result, so the
      store and the aliasing are explicit.
    - The regular expressions of the source are kept as data and run by a
      backtracking matcher that follows the ECMAScript matching rules for the
      constructs the source uses (classes, sequence, alternation, greedy
      star, anchors, look-ahead and look-behind).
    - A plain object inherits from [Object.prototype], as an object made
      by a literal or by [JSON.parse] does: a key it does not own reads the
      property of [Object.prototype] under that name, which for [__proto__]
      is [Object.prototype] itself, a value of its own kind; an assignment
      under [__proto__] goes to the inherited setter.  The built-in objects
      are those of a program that has not changed them.
    - No value of the model can be called.  A call that reads a built-in
      function (a method of [Object.prototype] through an object that does
      not own the key, a built-in property of an array, a string, a number
      or a boolean), or that would change [Object.prototype] or the
      prototype of an object, leaves what is modelled: its outcome is
      [Unmodelled], which is neither a result nor an exception.
    - Numbers are integers and strings are sequences of 8-bit characters.
    - The properties of an object are kept in the order in which they were
      created; that an engine lists integer-like keys first is not
      modelled, and trees are compared with their fields in that order.
    - The file is loaded as a plain script (no strict-mode directive), so an
      assignment to a property of a primitive is silently dropped. *)

From Stdlib Require Import ZArith Ascii String DecimalString DecimalZ DecimalPos Lia.
From stdpp Require Import base option list.

Local Open Scope string_scope.
Local Open Scope Z_scope.
Local Open Scope nat_scope.
Local Open Scope list_scope.

Set Warnings "-register-all".

(** ** Regular expressions *)

Module Regex.

Inductive re : Type :=
| RChar (p : ascii → bool)      (* one character of a class *)
| REps                          (* the empty pattern *)
| RSeq (a b : re)               (* ab *)
| RAlt (a b : re)               (* a|b, left alternative first *)
| RStar (a : re)                (* a*, greedy *)
| RBol                          (* ^ *)
| REol                          (* $ *)
| RAhead (a : re)               (* (?=a) *)
| RBehind (a : re).             (* (?<=a) *)

Definition RPlus (a : re) : re := RSeq a (RStar a).
Definition ROpt (a : re) : re := RAlt a REps.
Definition lit (c : ascii) : re := RChar (Ascii.eqb c).

Declare Scope re_scope.
Delimit Scope re_scope with re.
Bind Scope re_scope with re.
Notation "a ⊙ b" := (RSeq a b) (at level 41, right associativity) : re_scope.
Notation "a ⊕ b" := (RAlt a b) (at level 51, right associativity) : re_scope.

(** A matcher state is a position in the subject string: the characters
    before it (nearest first) and the characters after it. *)
Definition mstate : Type := list ascii * list ascii.

Definition pos (st : mstate) : nat := length (fst st).

Definition step (fwd : bool) (st : mstate) : option (ascii * mstate) :=
  if fwd then
    match snd st with
    | c :: suf => Some (c, (c :: fst st, suf))
    | [] => None
    end
  else
    match fst st with
    | c :: pre => Some (c, (pre, c :: snd st))
    | [] => None
    end.

Definition cont : Type := mstate → option mstate.

(** Greedy iteration: try one more round of the body, and fall back to the
    continuation; a round that consumes nothing is rejected. *)
Fixpoint star_loop (ma : mstate → cont → option mstate) (k : cont)
    (n : nat) (st : mstate) {struct n} : option mstate :=
  match ma st (λ st',
          if Nat.eqb (pos st') (pos st) then None
          else match n with
               | O => None
               | S n' => star_loop ma k n' st'
               end) with
  | Some r => Some r
  | None => k st
  end.

(** Backtracking matcher in continuation-passing style; [fwd] is the
    direction (look-behind bodies are matched backwards). *)
Fixpoint rmatch (fwd : bool) (r : re) (st : mstate) (k : cont) {struct r}
    : option mstate :=
  match r with
  | RChar p =>
      match step fwd st with
      | Some (c, st') => if p c then k st' else None
      | None => None
      end
  | REps => k st
  | RSeq a b =>
      if fwd then rmatch fwd a st (λ st', rmatch fwd b st' k)
      else rmatch fwd b st (λ st', rmatch fwd a st' k)
  | RAlt a b =>
      match rmatch fwd a st k with
      | Some x => Some x
      | None => rmatch fwd b st k
      end
  | RStar a => star_loop (rmatch fwd a) k (length (fst st) + length (snd st)) st
  | RBol => match fst st with [] => k st | _ => None end
  | REol => match snd st with [] => k st | _ => None end
  | RAhead a =>
      match rmatch true a st Some with
      | Some _ => k st
      | None => None
      end
  | RBehind a =>
      match rmatch false a st Some with
      | Some _ => k st
      | None => None
      end
  end.

(** One attempt at the current position. *)
Definition exec (r : re) (st : mstate) : option mstate := rmatch true r st Some.

Definition advance (st : mstate) : option mstate :=
  match snd st with
  | c :: suf => Some (c :: fst st, suf)
  | [] => None
  end.

(** The characters between two positions of the same subject. *)
Definition matched (st st' : mstate) : list ascii :=
  rev (take (pos st' - pos st) (fst st')).

(** [RegExp.prototype.test] without the [g] flag: the first position at
    which the pattern matches, scanning from the start. *)
Fixpoint test_from (r : re) (pre suf : list ascii) : bool :=
  match exec r (pre, suf) with
  | Some _ => true
  | None =>
      match suf with
      | c :: suf' => test_from r (c :: pre) suf'
      | [] => false
      end
  end.

Definition test (r : re) (s : string) : bool :=
  test_from r [] (list_ascii_of_string s).

(** [String.prototype.match] with the [g] flag: all matches, left to right,
    each search starting where the previous match ended (one further after
    an empty match). *)
Fixpoint match_loop (r : re) (n : nat) (st : mstate) : list (list ascii) :=
  match n with
  | O => []
  | S n' =>
      match exec r st with
      | Some st' =>
          matched st st' ::
            (if Nat.eqb (pos st') (pos st) then
               match advance st with
               | Some st1 => match_loop r n' st1
               | None => []
               end
             else match_loop r n' st')
      | None =>
          match advance st with
          | Some st1 => match_loop r n' st1
          | None => []
          end
      end
  end.

Definition match_all (r : re) (s : string) : option (list string) :=
  let cs := list_ascii_of_string s in
  match match_loop r (S (length cs)) ([], cs) with
  | [] => None
  | ms => Some (map string_of_list_ascii ms)
  end.

(** [String.prototype.replace] with the [g] flag and the empty
    replacement: every match is deleted. *)
Fixpoint remove_loop (r : re) (n : nat) (st : mstate) : list ascii :=
  match n with
  | O => snd st
  | S n' =>
      match exec r st with
      | Some st' =>
          if Nat.eqb (pos st') (pos st) then
            match snd st with
            | c :: suf => c :: remove_loop r n' (c :: fst st, suf)
            | [] => []
            end
          else remove_loop r n' st'
      | None =>
          match snd st with
          | c :: suf => c :: remove_loop r n' (c :: fst st, suf)
          | [] => []
          end
      end
  end.

Definition remove_all (r : re) (s : string) : string :=
  let cs := list_ascii_of_string s in
  string_of_list_ascii (remove_loop r (S (length cs)) ([], cs)).

(** [String.prototype.split] with a pattern without capture groups: [acc]
    holds the characters of the piece under construction, last first. *)
Fixpoint split_loop (r : re) (n : nat) (acc : list ascii) (st : mstate)
    : list (list ascii) :=
  match n with
  | O => [rev acc ++ snd st]
  | S n' =>
      match snd st with
      | [] => [rev acc]
      | c :: suf =>
          match exec r st with
          | Some st' =>
              if Nat.eqb (pos st') (pos st) && bool_decide (acc = [])
              then split_loop r n' (c :: acc) (c :: fst st, suf)
              else rev acc :: split_loop r n' [] st'
          | None => split_loop r n' (c :: acc) (c :: fst st, suf)
          end
      end
  end.

Definition split (r : re) (s : string) : list string :=
  let cs := list_ascii_of_string s in
  match cs with
  | [] => match exec r ([], []) with Some _ => [] | None => [""] end
  | _ => map string_of_list_ascii (split_loop r (2 * length cs + 1) [] ([], cs))
  end.

End Regex.

Import Regex.

(** ** Character classes and the patterns of the source *)

Definition in_range (lo hi c : ascii) : bool :=
  Nat.leb (nat_of_ascii lo) (nat_of_ascii c) && Nat.leb (nat_of_ascii c) (nat_of_ascii hi).

(** [\d] *)
Definition is_digit (c : ascii) : bool := in_range "0" "9" c.

(** [\w] *)
Definition is_word (c : ascii) : bool :=
  in_range "a" "z" c || in_range "A" "Z" c || is_digit c || Ascii.eqb c "_".

(** [[$\w\-]] *)
Definition is_key (c : ascii) : bool :=
  Ascii.eqb c "$" || is_word c || Ascii.eqb c "-".

(** [[^\[\]]] *)
Definition not_bracket (c : ascii) : bool :=
  negb (Ascii.eqb c "[" || Ascii.eqb c "]").

Definition kc : re := RChar is_key.
Definition digit : re := RChar is_digit.

(** [[$\w-]+(\.[$\w-]+)*], a dotted run of keys, as it occurs in the
    patterns below. *)
Definition keypath : re := (RPlus kc ⊙ RStar (lit "." ⊙ RPlus kc))%re.

(** The pattern of [isMapper],
    [/(^[$\w-]+(\.[$\w-]+)*(:[$\w-]+(\.[$\w-]+)* )?\.$)|(^:[$\w-]+(\.[$\w-]+)*\.?$)/]
    (with one space added before a closing parenthesis, to keep this
    comment open). *)
Definition mapper_re : re :=
  ((RBol ⊙ keypath ⊙ ROpt (lit ":" ⊙ keypath) ⊙ lit "." ⊙ REol)
   ⊕ (RBol ⊙ lit ":" ⊙ keypath ⊙ ROpt (lit ".") ⊙ REol))%re.

(** The pattern of [isArrayKey], [/^\[[^\[\]]*\]$/]. *)
Definition arraykey_re : re :=
  (RBol ⊙ lit "[" ⊙ RStar (RChar not_bracket) ⊙ lit "]" ⊙ REol)%re.

(** [/^-?\d+$/] *)
Definition indexkey_re : re := (RBol ⊙ ROpt (lit "-") ⊙ RPlus digit ⊙ REol)%re.

(** [/^-\d+$/] *)
Definition negindex_re : re := (RBol ⊙ lit "-" ⊙ RPlus digit ⊙ REol)%re.

(** [/::|,/] *)
Definition multi_re : re := ((lit ":" ⊙ lit ":") ⊕ lit ",")%re.

(** [/:|\.$/] *)
Definition mappersplit_re : re := (lit ":" ⊕ (lit "." ⊙ REol))%re.

(** [/(^\[)|(\]$)/g] *)
Definition strip_re : re := ((RBol ⊙ lit "[") ⊕ (lit "]" ⊙ REol))%re.

(** The pattern of [readValue],
    [/\*|(?<=\.|^)((\[[$\w\-]+(\.[$\w\-]+)*\])|[$\w\-]+)(?=\.|$)/g]:
    a star, or after a dot or the start either a bracketed [keypath] or a
    run of key characters, before a dot or the end. *)
Definition read_re : re :=
  (lit "*"
   ⊕ (RBehind (lit "." ⊕ RBol)
      ⊙ ((lit "[" ⊙ keypath ⊙ lit "]") ⊕ RPlus kc)
      ⊙ RAhead (lit "." ⊕ REol)))%re.

(** The pattern of [writeValue],
    [/(?<=\.|^)(\[([$\w\-]+(\.[$\w\-]+)* )*\])|[$\w\-]+(?=\.|$)/g]
    (with one space added, as above): the alternation is at the top, so
    the first alternative is a bracket around any number of [keypath]s
    after a dot or the start (no look-ahead), the second a run of key
    characters before a dot or the end (no look-behind). *)
Definition write_re : re :=
  ((RBehind (lit "." ⊕ RBol) ⊙ lit "[" ⊙ RStar keypath ⊙ lit "]")
   ⊕ (RPlus kc ⊙ RAhead (lit "." ⊕ REol)))%re.

(** ** Type checking utilities on strings *)

Definition isMapper (val : string) : bool := test mapper_re val.
Definition isArrayKey (val : string) : bool := test arraykey_re val.
Definition isIndexKey (val : string) : bool := test indexkey_re val.

(** [key.replace(/(^\[)|(\]$)/g, "")] *)
Definition cleanKeyOf (key : string) : string := remove_all strip_re key.

(** [String.prototype.split] with a one-character separator. *)
Fixpoint split_chars (sep : ascii) (acc cs : list ascii) : list (list ascii) :=
  match cs with
  | [] => [rev acc]
  | c :: cs' =>
      if Ascii.eqb c sep then rev acc :: split_chars sep [] cs'
      else split_chars sep (c :: acc) cs'
  end.

Definition split_on (sep : ascii) (s : string) : list string :=
  map string_of_list_ascii (split_chars sep [] (list_ascii_of_string s)).

(** [s.endsWith(".")] *)
Definition ends_with_dot (s : string) : bool :=
  match rev (list_ascii_of_string s) with
  | c :: _ => Ascii.eqb c "."
  | [] => false
  end.

(** [String(z)] for an integer, and the number a string of the shape
    [-?\d+] converts to. *)
Definition string_of_Z (z : Z) : string := NilZero.string_of_int (Z.to_int z).

Definition Z_of_string (s : string) : Z :=
  match NilZero.int_of_string s with
  | Some d => Z.of_int d
  | None => 0%Z
  end.

(** ** Values, cells and the heap *)

Abbreviation loc := nat (only parsing).

(** The built-in object that is a value of the model: [Object.prototype],
    which a program reaches from its own objects under [__proto__]. *)
Inductive builtin : Type :=
| ObjectPrototype.

Inductive jsval : Type :=
| VUndef
| VNull
| VBool (b : bool)
| VNum (n : Z)
| VStr (s : string)
| VRef (l : loc)
| VBuiltin (b : builtin).

(** Own properties, in insertion order. *)
Abbreviation props := (list (string * jsval)) (only parsing).

(** A plain object, or an array: its elements ([None] is a hole) and the
    properties that are not elements. *)
Inductive cell : Type :=
| CObj (ps : props)
| CArr (elems : list (option jsval)) (extra : props).

Abbreviation heap := (list cell) (only parsing).

Inductive exn : Type :=
| InvalidPathError      (* Error: path must be a string / cannot be empty / invalid segment *)
| InvalidMapError       (* Error: map must be a string / map array must be an array *)
| TypeError
| SyntaxError
| RangeError.

(** [Unmodelled]: the computation reached a step the model does not
    follow (see the modelling choices above). *)
Inductive outcome (A : Type) : Type :=
| Ok (a : A)
| Throw (e : exn)
| OutOfFuel
| Unmodelled.
Arguments Ok {A} a.
Arguments Throw {A} e.
Arguments OutOfFuel {A}.
Arguments Unmodelled {A}.

(** Computations: heap passing with exceptions. *)
Definition M (A : Type) : Type := heap → outcome A * heap.

Definition ret {A} (a : A) : M A := λ h, (Ok a, h).
Definition throw {A} (e : exn) : M A := λ h, (Throw e, h).
Definition out_of_fuel {A} : M A := λ h, (OutOfFuel, h).
Definition unmodelled {A} : M A := λ h, (Unmodelled, h).
Definition bind {A B} (m : M A) (f : A → M B) : M B :=
  λ h, match m h with
       | (Ok a, h') => f a h'
       | (Throw e, h') => (Throw e, h')
       | (OutOfFuel, h') => (OutOfFuel, h')
       | (Unmodelled, h') => (Unmodelled, h')
       end.
Definition get_heap : M heap := λ h, (Ok h, h).

Notation "'let*' x := m 'in' k" := (bind m (λ x, k))
  (at level 10, x name, m at level 100, k at level 200).
Notation "m ;; k" := (bind m (λ _, k))
  (at level 100, k at level 200, right associativity).

Definition cell_at (h : heap) (l : loc) : cell := default (CObj []) (h !! l).
Definition put_cell (l : loc) (c : cell) : M unit := λ h, (Ok tt, <[l := c]> h).
Definition alloc (c : cell) : M jsval := λ h, (Ok (VRef (length h)), h ++ [c]).

Fixpoint prop_get (k : string) (ps : props) : option jsval :=
  match ps with
  | [] => None
  | (k', v) :: ps' => if String.eqb k' k then Some v else prop_get k ps'
  end.

Fixpoint prop_set (k : string) (v : jsval) (ps : props) : props :=
  match ps with
  | [] => [(k, v)]
  | (k', v') :: ps' =>
      if String.eqb k' k then (k', v) :: ps' else (k', v') :: prop_set k v ps'
  end.

Definition elems_of (h : heap) (v : jsval) : option (list (option jsval)) :=
  match v with
  | VRef l => match cell_at h l with CArr es _ => Some es | CObj _ => None end
  | _ => None
  end.

(** The own enumerable properties of a plain object; [Object.prototype]
    is one and has none. *)
Definition props_of (h : heap) (v : jsval) : option props :=
  match v with
  | VRef l => match cell_at h l with CObj ps => Some ps | CArr _ _ => None end
  | VBuiltin ObjectPrototype => Some []
  | _ => None
  end.

(** [Array.isArray(val)] *)
Definition isArray (h : heap) (val : jsval) : bool := bool_decide (is_Some (elems_of h val)).

(** [typeof val === "object" && !Array.isArray(val) && val !== null] *)
Definition isObject (h : heap) (val : jsval) : bool := bool_decide (is_Some (props_of h val)).

Definition isUndefined (val : jsval) : bool :=
  match val with VUndef => true | _ => false end.

Definition isNull (val : jsval) : bool :=
  match val with VNull => true | _ => false end.

Definition truthy (val : jsval) : bool :=
  match val with
  | VUndef | VNull => false
  | VBool b => b
  | VNum n => negb (Z.eqb n 0)
  | VStr s => negb (String.eqb s "")
  | VRef _ | VBuiltin _ => true
  end.

(** ** Inherited properties *)

Definition is_in (key : string) (names : list string) : bool :=
  existsb (String.eqb key) names.

(** The properties of [Object.prototype] that hold functions. *)
Definition object_prototype_functions : list string :=
  ["constructor"; "hasOwnProperty"; "isPrototypeOf"; "propertyIsEnumerable";
   "toLocaleString"; "toString"; "valueOf";
   "__defineGetter__"; "__defineSetter__"; "__lookupGetter__"; "__lookupSetter__"].

(** A key that an object finds in [Object.prototype]. *)
Definition inherited_name (key : string) : bool :=
  String.eqb key "__proto__" || is_in key object_prototype_functions.

(** [Object.prototype[key]] as read through an object whose prototype is
    [proto]: the accessor [__proto__] returns that prototype, and a method
    is a function. *)
Definition inherited (proto : jsval) (key : string) : M jsval :=
  if String.eqb key "__proto__" then ret proto
  else if is_in key object_prototype_functions then unmodelled
  else ret VUndef.

(** The prototype of a plain object: [null] for [Object.prototype],
    [Object.prototype] for the others. *)
Definition proto_of (obj : jsval) : jsval :=
  match obj with
  | VBuiltin ObjectPrototype => VNull
  | _ => VBuiltin ObjectPrototype
  end.

(** [obj[key]] for a plain object [obj] with the own properties [ps]: the
    own property, or else the inherited one. *)
Definition member (obj : jsval) (ps : props) (key : string) : M jsval :=
  match prop_get key ps with
  | Some v => ret v
  | None => inherited (proto_of obj) key
  end.

(** The names of the properties of [Array.prototype], [String.prototype],
    [Number.prototype], [Boolean.prototype] and [Object.prototype]; an
    array or a primitive that reads one of them gets a built-in value the
    model does not follow. *)
Definition prototype_names : list string :=
  ["__proto__"; "constructor"; "hasOwnProperty"; "isPrototypeOf";
   "propertyIsEnumerable"; "toLocaleString"; "toString"; "valueOf";
   "__defineGetter__"; "__defineSetter__"; "__lookupGetter__"; "__lookupSetter__";
   "at"; "concat"; "copyWithin"; "entries"; "every"; "fill"; "filter"; "find";
   "findIndex"; "findLast"; "findLastIndex"; "flat"; "flatMap"; "forEach";
   "includes"; "indexOf"; "join"; "keys"; "lastIndexOf"; "map"; "pop"; "push";
   "reduce"; "reduceRight"; "reverse"; "shift"; "slice"; "some"; "sort"; "splice";
   "toReversed"; "toSorted"; "toSpliced"; "unshift"; "values"; "with";
   "charAt"; "charCodeAt"; "codePointAt"; "endsWith"; "isWellFormed";
   "localeCompare"; "match"; "matchAll"; "normalize"; "padEnd"; "padStart";
   "repeat"; "replace"; "replaceAll"; "search"; "split"; "startsWith";
   "substring"; "toLocaleLowerCase"; "toLocaleUpperCase"; "toLowerCase";
   "toUpperCase"; "toWellFormed"; "trim"; "trimEnd"; "trimStart";
   "substr"; "anchor"; "big"; "blink"; "bold"; "fixed"; "fontcolor"; "fontsize";
   "italics"; "link"; "small"; "strike"; "sub"; "sup"; "trimLeft"; "trimRight";
   "toExponential"; "toFixed"; "toPrecision"].

(** A key that an array or a primitive does not own: [undefined], unless
    a prototype has it. *)
Definition not_own (key : string) : M jsval :=
  if is_in key prototype_names then unmodelled else ret VUndef.

(** The setter of [__proto__] that every object inherits: a primitive
    other than [null] is ignored, an object or [null] becomes the
    prototype of the receiver. *)
Definition proto_setter (v : jsval) : M unit :=
  match v with
  | VRef _ | VBuiltin _ | VNull => unmodelled
  | VUndef | VBool _ | VNum _ | VStr _ => ret tt
  end.

(** ** Built-in operations the source calls *)

Definition array_limit : Z := (2 ^ 32 - 1)%Z.

(** A property key that names an array element: the canonical decimal
    form of an integer in [0, 2^32 - 1). *)
Definition is_array_index (key : string) : bool :=
  let z := Z_of_string key in
  String.eqb (string_of_Z z) key && Z.leb 0 z && Z.ltb z array_limit.

(** [Array.prototype.at]: a negative index counts from the end. *)
Definition arr_at (elems : list (option jsval)) (z : Z) : jsval :=
  let len := Z.of_nat (length elems) in
  let k := if Z.ltb z 0 then (len + z)%Z else z in
  if Z.ltb k 0 || Z.leb len k then VUndef
  else match elems !! Z.to_nat k with
       | Some (Some v) => v
       | _ => VUndef
       end.

(** [String.prototype.at] *)
Definition str_at (s : string) (z : Z) : jsval :=
  let cs := list_ascii_of_string s in
  let len := Z.of_nat (length cs) in
  let k := if Z.ltb z 0 then (len + z)%Z else z in
  if Z.ltb k 0 || Z.leb len k then VUndef
  else match cs !! Z.to_nat k with
       | Some c => VStr (String c EmptyString)
       | None => VUndef
       end.

(** [a[i] = v] on the elements of an array: an index past the end extends
    the array with holes. *)
Definition elems_set (elems : list (option jsval)) (i : nat) (v : jsval)
    : list (option jsval) :=
  if Nat.ltb i (length elems) then <[i := Some v]> elems
  else elems ++ replicate (i - length elems) None ++ [Some v].

(** [Array.prototype.splice(start, 1, v)]: a negative [start] counts from
    the end; one element is deleted there when there is one, and [v] is
    put in its place (with nothing to delete, [v] is appended). *)
Definition elems_splice (elems : list (option jsval)) (z : Z) (v : jsval)
    : list (option jsval) :=
  let len := Z.of_nat (length elems) in
  let start := Z.to_nat (if Z.ltb z 0 then Z.max (len + z) 0 else Z.min z len) in
  let deleteCount := if Nat.ltb start (length elems) then 1 else 0 in
  take start elems ++ [Some v] ++ drop (start + deleteCount) elems.

(** [obj.at(index)]: arrays and strings have the method, a call on
    anything else is a [TypeError]. *)
Definition call_at (obj : jsval) (z : Z) : M jsval :=
  let* h := get_heap in
  match obj with
  | VStr s => ret (str_at s z)
  | VRef _ =>
      match elems_of h obj with
      | Some es => ret (arr_at es z)
      | None => throw TypeError
      end
  | _ => throw TypeError
  end.

(** The items of a call of [push], stored one by one from the index
    [len] on: an index below the limit is an element, an index from the
    limit on is an ordinary property. *)
Fixpoint push_values (len : Z) (es : list (option jsval)) (ex : props)
    (vs : list jsval) : list (option jsval) * props :=
  match vs with
  | [] => (es, ex)
  | v :: vs' =>
      if Z.ltb len array_limit then push_values (len + 1) (es ++ [Some v]) ex vs'
      else push_values (len + 1) es (prop_set (string_of_Z len) v ex) vs'
  end.

(** [obj.push(...vs)] once the arguments are evaluated: only arrays have
    the method; the new length is set last, and a length above the limit
    is a [RangeError]. *)
Definition push_now (obj : jsval) (vs : list jsval) : M unit :=
  let* h := get_heap in
  match obj with
  | VRef l =>
      match cell_at h l with
      | CArr es ex =>
          let len := Z.of_nat (length es) in
          let '(es', ex') := push_values len es ex vs in
          put_cell l (CArr es' ex') ;;
          if Z.ltb array_limit (len + Z.of_nat (length vs)) then throw RangeError
          else ret tt
      | CObj _ => throw TypeError
      end
  | _ => throw TypeError
  end.

(** [obj.push(arg)]: the method is looked up first (a [TypeError] on
    [undefined] and [null]), then the argument is evaluated, then the call
    is made. *)
Definition call_push (obj : jsval) (arg : M jsval) : M unit :=
  match obj with
  | VUndef | VNull => throw TypeError
  | _ => let* v := arg in push_now obj [v]
  end.

(** [obj.splice(start, 1, v)]; only arrays have the method. *)
Definition call_splice (obj : jsval) (z : Z) (v : jsval) : M unit :=
  let* h := get_heap in
  match obj with
  | VRef l =>
      match cell_at h l with
      | CArr es ex => put_cell l (CArr (elems_splice es z v) ex)
      | CObj _ => throw TypeError
      end
  | _ => throw TypeError
  end.

(** [obj[key]] as a read: the own property, or else the one the
    prototype chain gives. *)
Definition get_prop (obj : jsval) (key : string) : M jsval :=
  let* h := get_heap in
  match obj with
  | VUndef | VNull => throw TypeError
  | VRef l =>
      match cell_at h l with
      | CObj ps => member obj ps key
      | CArr es ex =>
          if is_array_index key then ret (arr_at es (Z_of_string key))
          else if String.eqb key "length" then ret (VNum (Z.of_nat (length es)))
          else match prop_get key ex with
               | Some v => ret v
               | None => not_own key
               end
      end
  | VBuiltin ObjectPrototype => member obj [] key
  | VStr s =>
      if is_array_index key then ret (str_at s (Z_of_string key))
      else if String.eqb key "length" then ret (VNum (Z.of_nat (String.length s)))
      else not_own key
  | VBool _ | VNum _ => not_own key
  end.

(** [obj[key] = v].  An own property is updated; a key the object does
    not own becomes an own property, except [__proto__], which goes to
    the inherited setter.  On a primitive the assignment is dropped; on a
    built-in object it would change that object.  On an array the source
    assigns only under keys made of digits. *)
Definition set_prop (obj : jsval) (key : string) (v : jsval) : M unit :=
  let* h := get_heap in
  match obj with
  | VUndef | VNull => throw TypeError
  | VRef l =>
      match cell_at h l with
      | CObj ps =>
          match prop_get key ps with
          | None => if String.eqb key "__proto__" then proto_setter v
                    else put_cell l (CObj (prop_set key v ps))
          | Some _ => put_cell l (CObj (prop_set key v ps))
          end
      | CArr es ex =>
          if is_array_index key
          then put_cell l (CArr (elems_set es (Z.to_nat (Z_of_string key)) v) ex)
          else
            match prop_get key ex with
            | None => if String.eqb key "__proto__" then proto_setter v
                      else put_cell l (CArr es (prop_set key v ex))
            | Some _ => put_cell l (CArr es (prop_set key v ex))
            end
      end
  | VBuiltin _ => if String.eqb key "__proto__" then proto_setter v else unmodelled
  | VStr _ | VBool _ | VNum _ => ret tt
  end.

(** [arr.forEach(f)]: the length is read once, each index is looked up
    when its turn comes, holes are skipped. *)
Fixpoint forEach_from (f : jsval → M unit) (arr : jsval) (i count : nat) : M unit :=
  match count with
  | O => ret tt
  | S count' =>
      let* h := get_heap in
      match elems_of h arr with
      | Some es =>
          match es !! i with
          | Some (Some v) => f v
          | _ => ret tt
          end
      | None => ret tt
      end ;;
      forEach_from f arr (S i) count'
  end.

(** [obj.forEach(f)]; only arrays have the method. *)
Definition call_forEach (obj : jsval) (f : jsval → M unit) : M unit :=
  let* h := get_heap in
  match elems_of h obj with
  | Some es => forEach_from f obj 0 (length es)
  | None => throw TypeError
  end.

(** [arr.map(f)] on the elements: holes stay holes. *)
Fixpoint map_elems (f : jsval → M jsval) (es : list (option jsval))
    : M (list (option jsval)) :=
  match es with
  | [] => ret []
  | None :: es' => let* r := map_elems f es' in ret (None :: r)
  | Some v :: es' => let* x := f v in let* r := map_elems f es' in ret (Some x :: r)
  end.

(** [segments.reduce(step, init)] *)
Fixpoint reduce {A} (step : jsval → A → M jsval) (xs : list A) (acc : jsval) : M jsval :=
  match xs with
  | [] => ret acc
  | x :: xs' => let* acc' := step acc x in reduce step xs' acc'
  end.

(** ** Core reading function *)

(** The callback of the [reduce] in [readValue]; [rec] is [readValue]
    itself, called on the items of an array for a bracketed property
    path. *)
Definition read_step (rec : jsval → jsval → M jsval) (currentObj : jsval)
    (key : string) : M jsval :=
  if String.eqb key "" then throw InvalidPathError
  else if String.eqb key "*" then ret currentObj
  else if isArrayKey key || isIndexKey key then
    let cleanKey := cleanKeyOf key in
    let* h := get_heap in
    match elems_of h currentObj with
    | None => ret VUndef
    | Some elems =>
        if String.eqb cleanKey "" then ret VUndef
        else if isIndexKey cleanKey then ret (arr_at elems (Z_of_string cleanKey))
        else
          let* mapped :=
            map_elems (λ item,
              let* h' := get_heap in
              if isObject h' item then rec item (VStr cleanKey) else ret VUndef) elems in
          alloc (CArr mapped [])
    end
  else
    let* h := get_heap in
    match props_of h currentObj with
    | Some ps => member currentObj ps key
    | None => ret VUndef
    end.

Fixpoint readValue_aux (n : nat) (obj path : jsval) {struct n} : M jsval :=
  match n with
  | O => out_of_fuel
  | S n' =>
      match path with
      | VStr p =>
          if String.eqb p "" then throw InvalidPathError
          else
            match match_all read_re p with
            | None => ret VUndef
            | Some segments => reduce (read_step (readValue_aux n')) segments obj
            end
      | _ => throw InvalidPathError
      end
  end.

(** [readValue(obj, path)].  A bracketed property path holds no bracket,
    so the function calls itself at most one level deep
    (see [readValue_aux_fuel]). *)
Definition readValue (obj path : jsval) : M jsval := readValue_aux 2 obj path.

(** ** Core writing function *)

(** [String(nextKey)], as the pattern tests see the key after the current
    one ([undefined] past the last key). *)
Definition key_text (nextKey : option string) : string :=
  match nextKey with
  | Some k => k
  | None => "undefined"
  end.

Definition next_is_array (nextKey : option string) : bool :=
  isArrayKey (key_text nextKey) || isIndexKey (key_text nextKey).

(** [getNextValue(existingValue)]: the value itself at the last key,
    otherwise the container the next key needs. *)
Definition getNextValue (value : jsval) (nextKey : option string)
    (existingValue : jsval) : M jsval :=
  match nextKey with
  | None => ret (match value with VNull => VUndef | _ => value end)
  | Some _ =>
      let* h := get_heap in
      if next_is_array nextKey then
        if isArray h existingValue then ret existingValue else alloc (CArr [] [])
      else
        if isObject h existingValue then ret existingValue else alloc (CObj [])
  end.

(** [!(isArrayKey(nextKey) || isIndexKey(nextKey) ? Array.isArray(e) : isObject(e))] *)
Definition shouldUpdate (h : heap) (nextKey : option string) (existingValue : jsval) : bool :=
  negb (if next_is_array nextKey then isArray h existingValue
        else isObject h existingValue).

(** The callback of the [reduce] in [writeValue]; [nextKey] is
    [array[index + 1]], absent at the last key; [rec] is [writeValue]. *)
Definition write_step (rec : jsval → jsval → jsval → M jsval) (value : jsval)
    (currentObj : jsval) (key : string) (nextKey : option string)
    : M jsval :=
  let isLastKey := bool_decide (nextKey = None) in
  if isArrayKey key || isIndexKey key then
    let cleanKey := cleanKeyOf key in
    if String.eqb cleanKey "" then
      call_push currentObj (getNextValue value nextKey VUndef) ;;
      call_at currentObj (-1)
    else if isIndexKey cleanKey then
      let* existingValue := call_at currentObj (Z_of_string cleanKey) in
      let* h := get_heap in
      (if shouldUpdate h nextKey existingValue then
         let* newValue := getNextValue value nextKey existingValue in
         if test negindex_re cleanKey
         then call_splice currentObj (Z_of_string cleanKey) newValue
         else set_prop currentObj cleanKey newValue
       else ret tt) ;;
      call_at currentObj (Z_of_string cleanKey)
    else
      call_forEach currentObj (λ item,
        let* next := getNextValue value nextKey VUndef in
        rec item (VStr cleanKey) next ;; ret tt) ;;
      ret currentObj
  else
    let* h := get_heap in
    if isArray h currentObj then
      (* [currentObj[key]] is read before the test; on an array the read
         has no effect and its value is not used *)
      call_forEach currentObj (λ item,
        let* next := getNextValue value nextKey VUndef in
        rec item (VStr key) next ;; ret tt) ;;
      ret currentObj
    else
      let* existingValue := get_prop currentObj key in
      let* h := get_heap in
      (if shouldUpdate h nextKey existingValue then
         let* newValue := getNextValue value nextKey existingValue in
         set_prop currentObj key newValue
       else if isLastKey then set_prop currentObj key value
       else ret tt) ;;
      get_prop currentObj key.

(** [segments.reduce((currentObj, key, index, array) => ..., obj)] *)
Fixpoint write_segs (rec : jsval → jsval → jsval → M jsval) (value : jsval)
    (segments : list string) (currentObj : jsval) : M jsval :=
  match segments with
  | [] => ret currentObj
  | key :: rest =>
      let* next := write_step rec value currentObj key (head rest) in
      write_segs rec value rest next
  end.

(** [writeValue(obj, path, value)]; the fuel bounds the depth of the calls
    the function makes to itself on the items of arrays. *)
Fixpoint writeValue (n : nat) (obj path value : jsval) {struct n} : M jsval :=
  match n with
  | O => out_of_fuel
  | S n' =>
      match path with
      | VStr p =>
          let* skip :=
            (if isUndefined value then
               let* r := readValue obj path in ret (isUndefined r)
             else ret false) in
          if (skip : bool) then ret obj
          else
            match match_all write_re p with
            | None => ret obj
            | Some segments =>
                write_segs (writeValue n') value segments obj ;; ret obj
            end
      | _ => throw InvalidPathError
      end
  end.

(** ** Mapping and resolution functions *)

(** A field specification: a map string, an array of specifications, or
    anything else (which the functions skip or reject). *)
Inductive spec : Type :=
| SStr (s : string)
| SArr (items : list spec)
| SOther.

(** [toMapArray(map)] *)
Definition toMapArray (map : spec) : spec :=
  match map with
  | SStr s => SArr (List.map SStr (split multi_re s))
  | _ => map
  end.

(** [resolveMap(obj, map)] *)
Definition resolveMap (obj : jsval) (map : spec) : M (string * jsval) :=
  match map with
  | SStr m =>
      let parts := split_on ":" m in
      let sourcePath := default "" (head parts) in
      let targetPath := default "" (parts !! 1) in
      let* value := readValue obj (VStr sourcePath) in
      let identifier := if String.eqb targetPath "" then sourcePath else targetPath in
      ret (identifier, value)
  | _ => throw InvalidMapError
  end.

Definition add_prefix (identifierPrefix : string) (r : string * jsval) : string * jsval :=
  (String.append identifierPrefix (fst r), snd r).

(** The mapper directive at the head of a map array, if there is one:
    the remaining items, the redirected source and the identifier
    prefix. *)
Definition resolve_mapper (obj : jsval) (items : list spec)
    : M (list spec * jsval * string) :=
  match items with
  | SStr firstElement :: rest =>
      if isMapper firstElement then
        let parts := split mappersplit_re firstElement in
        let readPath := default "" (head parts) in
        let writePath := default "" (parts !! 1) in
        let normalizedReadPath :=
          if negb (String.eqb readPath "") then readPath
          else if ends_with_dot firstElement then writePath
          else "" in
        let* sourceObj :=
          (if negb (String.eqb normalizedReadPath "")
           then readValue obj (VStr normalizedReadPath)
           else ret obj) in
        let identifierPrefix :=
          if negb (String.eqb writePath "") then String.append writePath "." else "" in
        ret (rest, sourceObj, identifierPrefix)
      else ret (items, obj, "")
  | _ => ret (items, obj, "")
  end.

(** [workingMapArray.forEach(...)], collecting the resolved pairs. *)
Fixpoint resolve_items (rec : jsval → spec → M (list (string * jsval)))
    (sourceObj : jsval) (identifierPrefix : string) (items : list spec)
    : M (list (string * jsval)) :=
  match items with
  | [] => ret []
  | mapItem :: rest =>
      let* here :=
        match mapItem with
        | SStr s =>
            if test multi_re s then
              let* nestedResults := rec sourceObj (toMapArray mapItem) in
              ret (List.map (add_prefix identifierPrefix) nestedResults)
            else
              let* result := resolveMap sourceObj mapItem in
              ret [add_prefix identifierPrefix result]
        | SArr _ =>
            let* nestedResults := rec sourceObj mapItem in
            ret (List.map (add_prefix identifierPrefix) nestedResults)
        | SOther => ret []
        end in
      let* others := resolve_items rec sourceObj identifierPrefix rest in
      ret (here ++ others)
  end.

(** [resolveMapArray(obj, mapArray)] *)
Fixpoint resolveMapArray (n : nat) (obj : jsval) (mapArray : spec) {struct n}
    : M (list (string * jsval)) :=
  match n with
  | O => out_of_fuel
  | S n' =>
      match mapArray with
      | SArr items =>
          let* m := resolve_mapper obj items in
          let '(workingMapArray, sourceObj, identifierPrefix) := m in
          if isUndefined sourceObj || isNull sourceObj then ret []
          else resolve_items (resolveMapArray n') sourceObj identifierPrefix workingMapArray
      | _ => throw InvalidMapError
      end
  end.

(** ** The deep clone: [JSON.parse(JSON.stringify(x))] *)

Inductive json : Type :=
| JNull
| JBool (b : bool)
| JNum (n : Z)
| JStr (s : string)
| JArr (items : list json)
| JObj (fields : list (string * json)).

(** [JSON.stringify]: [None] is the [TypeError] of a circular structure,
    [Some None] the result [undefined].  In an array [undefined], a
    function and a hole become [null]; in an object a property holding
    [undefined] or a function is left out.  [Object.prototype] has no
    enumerable property.  A chain of more nested cells than the heap holds
    goes through some cell twice. *)
Fixpoint stringify (n : nat) (h : heap) (v : jsval) {struct n} : option (option json) :=
  match v with
  | VUndef => Some None
  | VBuiltin ObjectPrototype => Some (Some (JObj []))
  | VNull => Some (Some JNull)
  | VBool b => Some (Some (JBool b))
  | VNum z => Some (Some (JNum z))
  | VStr s => Some (Some (JStr s))
  | VRef l =>
      match n with
      | O => None
      | S n' =>
          match cell_at h l with
          | CArr es _ =>
              let item (e : option jsval) : option json :=
                match e with
                | None => Some JNull
                | Some v' =>
                    match stringify n' h v' with
                    | Some (Some j) => Some j
                    | Some None => Some JNull
                    | None => None
                    end
                end in
              match mapM item es with
              | Some js => Some (Some (JArr js))
              | None => None
              end
          | CObj ps =>
              let field (kv : string * jsval) : option (list (string * json)) :=
                match stringify n' h (snd kv) with
                | Some (Some j) => Some [(fst kv, j)]
                | Some None => Some []
                | None => None
                end in
              match mapM field ps with
              | Some fs => Some (Some (JObj (concat fs)))
              | None => None
              end
          end
      end
  end.

(** The items of an array, parsed from left to right by [f]. *)
Definition parse_items_with (f : json → M jsval)
    : list json → M (list (option jsval)) :=
  fix go (js : list json) : M (list (option jsval)) :=
    match js with
    | [] => ret []
    | j :: js' =>
        let* v := f j in
        let* r := go js' in
        ret (Some v :: r)
    end.

(** The fields of an object, parsed in turn by [f] and set on the
    properties gathered so far. *)
Definition parse_fields_with (f : json → M jsval)
    : list (string * json) → props → M props :=
  fix go (fs : list (string * json)) (acc : props) : M props :=
    match fs with
    | [] => ret acc
    | (k, j) :: fs' =>
        let* v := f j in
        go fs' (prop_set k v acc)
    end.

(** [JSON.parse] of the text of a tree: fresh cells all the way down; a
    key that occurs twice keeps the later value. *)
Fixpoint parse (j : json) : M jsval :=
  match j with
  | JNull => ret VNull
  | JBool b => ret (VBool b)
  | JNum z => ret (VNum z)
  | JStr s => ret (VStr s)
  | JArr items =>
      let* es := parse_items_with parse items in
      alloc (CArr es [])
  | JObj fields =>
      let* ps := parse_fields_with parse fields [] in
      alloc (CObj ps)
  end.

Definition json_clone (v : jsval) : M jsval :=
  let* h := get_heap in
  match stringify (S (length h)) h v with
  | None => throw TypeError
  | Some None => throw SyntaxError
  | Some (Some j) => parse j
  end.

(** ** Main query function *)

(** [Object.assign(target, source)] for two plain objects. *)
Fixpoint assign_props (target : jsval) (ps : props) : M unit :=
  match ps with
  | [] => ret tt
  | (k, v) :: ps' => set_prop target k v ;; assign_props target ps'
  end.

(** [target.push(...items)] for two arrays: the spread reads a hole as
    [undefined]. *)
Definition push_all (target : jsval) (items : list (option jsval)) : M unit :=
  push_now target (List.map (default VUndef) items).

(** The body of [resolvedFields.forEach] in [processMap]; the result is
    the new content of [result.newObj]. *)
Definition apply_field (n : nat) (newObj : jsval) (field : string * jsval) : M jsval :=
  let '(identifier, value) := field in
  if String.eqb identifier "*" then
    let* h := get_heap in
    match elems_of h newObj, elems_of h value with
    | Some _, Some items => push_all newObj items ;; ret newObj
    | _, _ =>
        match props_of h newObj, props_of h value with
        | Some _, Some ps => assign_props newObj ps ;; ret newObj
        | _, _ => ret value
        end
    end
  else writeValue n newObj (VStr identifier) value ;; ret newObj.

Fixpoint apply_fields (n : nat) (newObj : jsval) (fields : list (string * jsval)) : M jsval :=
  match fields with
  | [] => ret newObj
  | f :: fields' =>
      let* newObj' := apply_field n newObj f in
      apply_fields n newObj' fields'
  end.

(** [processMap(mapSpec)] *)
Definition processMap (n : nat) (sourceObj newObj : jsval) (mapSpec : spec) : M jsval :=
  let expandedMap := toMapArray mapSpec in
  match expandedMap with
  | SArr _ =>
      let* resolvedFields := resolveMapArray n sourceObj expandedMap in
      apply_fields n newObj resolvedFields
  | _ => ret newObj
  end.

Fixpoint process_all (n : nat) (sourceObj newObj : jsval) (fields : list spec) : M jsval :=
  match fields with
  | [] => ret newObj
  | mapSpec :: fields' =>
      let* newObj' := processMap n sourceObj newObj mapSpec in
      process_all n sourceObj newObj' fields'
  end.

(** [mapObject(obj, ...fields)]; the fuel bounds the nesting of the calls
    of [resolveMapArray] and of [writeValue] to themselves. *)
Definition mapObject (n : nat) (obj : jsval) (fields : list spec) : M jsval :=
  let* h := get_heap in
  let* newObj := alloc (if isArray h obj then CArr [] [] else CObj []) in
  let* toObject := (if truthy obj then get_prop obj "toObject" else ret obj) in
  let* plain := (if truthy toObject then throw TypeError else ret obj) in
  let* sourceObj := json_clone plain in
  process_all n sourceObj newObj fields.

(** Running a computation from a heap. *)
Definition run {A} (m : M A) (h : heap) : outcome A * heap := m h.

(** The tree a value stands for in a heap, as [JSON.stringify] sees it. *)
Definition tree_of (h : heap) (v : jsval) : option (option json) :=
  stringify (S (length h)) h v.

(** ** Paths made of plain keys and indices *)

(** A segment of such a path: a key, or a non-negative index written in
    decimal as [String(i)] writes it. *)
Inductive seg : Type :=
| PKey (k : string)
| PIdx (i : nat).

Definition seg_text (s : seg) : string :=
  match s with
  | PKey k => k
  | PIdx i => string_of_Z (Z.of_nat i)
  end.

(** [segments.join(".")] *)
Definition path_text (segs : list seg) : string :=
  String.concat "." (List.map seg_text segs).

(** A plain key: a non-empty run of key characters that is not an index. *)
Definition plain_key (k : string) : bool :=
  negb (String.eqb k "") && forallb is_key (list_ascii_of_string k)
  && negb (isIndexKey k).

Definition valid_seg (s : seg) : Prop :=
  match s with
  | PKey k => plain_key k = true
  | PIdx i => (Z.of_nat i < array_limit)%Z
  end.

Definition is_key_seg (s : seg) : bool :=
  match s with PKey _ => true | PIdx _ => false end.

(** [value ?? undefined] *)
Definition nullish (v : jsval) : jsval :=
  match v with VNull => VUndef | _ => v end.

(** The characters of [ws.join(".")]. *)
Fixpoint join_dots (ws : list (list ascii)) : list ascii :=
  match ws with
  | [] => []
  | w :: ws' =>
      match ws' with
      | [] => w
      | _ :: _ => w ++ "."%char :: join_dots ws'
      end
  end.

(** A path of plain keys and indices that starts with a key. *)
Definition valid_path (segs : list seg) : Prop :=
  match segs with
  | PKey _ :: _ => Forall valid_seg segs
  | _ => False
  end.

(** A path of plain keys only. *)
Definition key_path (segs : list seg) : Prop :=
  segs ≠ [] ∧ Forall valid_seg segs ∧ Forall (λ s, is_key_seg s = true) segs.

(** A path without a segment that names a property of
    [Object.prototype]. *)
Definition no_inherited (segs : list seg) : Prop :=
  Forall (λ s, inherited_name (seg_text s) = false) segs.

(** The experiment of the round-trip property: write into a fresh object,
    then read the same path from what [writeValue] returns. *)
Definition round_trip (n : nat) (path : string) (value : jsval) : M jsval :=
  let* root := alloc (CObj []) in
  let* written := writeValue n root (VStr path) value in
  readValue written (VStr path).

(** Following keys through plain objects only. *)
Fixpoint walk (h : heap) (cur : jsval) (keys : list string) : option jsval :=
  match keys with
  | [] => Some cur
  | k :: keys' =>
      match props_of h cur with
      | Some ps =>
          match prop_get k ps with
          | Some v => if isObject h v then walk h v keys' else None
          | None => None
          end
      | None => None
      end
  end.

(** ** Calls on values given as trees *)

(** [mapObject(source, ...fields)] from the empty heap, for a source given
    as a tree: the tree of the result and the tree of the source after the
    call. *)
Definition mapObject_tree (n : nat) (source : json) (fields : list spec)
    : outcome (option (option json) * option (option json)) :=
  fst (run (let* src := parse source in
            let* r := mapObject n src fields in
            let* h := get_heap in
            ret (tree_of h r, tree_of h src)) []).

(** [writeValue(root, path, value)] from the empty heap, for a root given
    as a tree: the tree of what the call returns. *)
Definition writeValue_tree (n : nat) (root : json) (path : string) (value : jsval)
    : outcome (option (option json)) :=
  fst (run (let* o := parse root in
            let* r := writeValue n o (VStr path) value in
            let* h := get_heap in
            ret (tree_of h r)) []).

(** [readValue(root, path)] from the empty heap, for a root given as a
    tree. *)
Definition readValue_tree (root : json) (path : string) : outcome (option (option json)) :=
  fst (run (let* o := parse root in
            let* r := readValue o (VStr path) in
            let* h := get_heap in
            ret (tree_of h r)) []).

(** [resolveMap(obj, map)] from the empty heap, for an object given as a
    tree. *)
Definition resolveMap_tree (obj : json) (map : string) : outcome (string * jsval) :=
  fst (run (let* o := parse obj in resolveMap o (SStr map)) []).

(** ** What a pattern can match *)

(** An over-approximation of the words a pattern matches: anchors and
    look-arounds are taken to hold everywhere. *)
Fixpoint lang (r : re) (w : list ascii) : Prop :=
  match r with
  | RChar p => ∃ c, w = [c] ∧ p c = true
  | REps | RBol | REol | RAhead _ | RBehind _ => w = []
  | RSeq a b => ∃ w1 w2, w = w1 ++ w2 ∧ lang a w1 ∧ lang b w2
  | RAlt a b => lang a w ∨ lang b w
  | RStar a => ∃ ws, w = concat ws ∧ Forall (lang a) ws
  end.

(** The characters a pattern can consume. *)
Fixpoint alphabet (r : re) (c : ascii) : bool :=
  match r with
  | RChar p => p c
  | RSeq a b | RAlt a b => alphabet a c || alphabet b c
  | RStar a => alphabet a c
  | REps | RBol | REol | RAhead _ | RBehind _ => false
  end.

(** A lower bound on the length of a match. *)
Fixpoint minlen (r : re) : nat :=
  match r with
  | RChar _ => 1
  | RSeq a b => minlen a + minlen b
  | RAlt a b => Nat.min (minlen a) (minlen b)
  | REps | RStar _ | RBol | REol | RAhead _ | RBehind _ => 0
  end.

(** ** Absent data on the way of [readValue] *)

Definition is_string (v : jsval) : bool :=
  match v with VStr _ => true | _ => false end.

(** The accumulator [cur] has nothing under the segment [key]: the
    container has the wrong shape (or is no container), the key is
    missing (neither owned nor inherited from [Object.prototype]), or the
    index is out of range. *)
Definition absent (h : heap) (cur : jsval) (key : string) : Prop :=
  if isArrayKey key || isIndexKey key then
    match elems_of h cur with
    | None => True
    | Some es =>
        isIndexKey (cleanKeyOf key) = true
        ∧ ((Z_of_string (cleanKeyOf key) < - Z.of_nat (length es))%Z
           ∨ (Z.of_nat (length es) ≤ Z_of_string (cleanKeyOf key))%Z)
    end
  else
    match props_of h cur with
    | None => True
    | Some ps => prop_get key ps = None ∧ inherited_name key = false
    end.

(** ** Runs that end without a failure *)

(** A run ends in the heap [h'] when it ends there without an exception
    and with fuel left: with a result, or at a step the model does not
    follow. *)
Definition ends_in {A} (r : outcome A * heap) (h' : heap) : Prop :=
  (∃ a, r = (Ok a, h')) ∨ r = (Unmodelled, h').

Definition no_failure {A} (r : outcome A * heap) : Prop := ∃ h', ends_in r h'.

(** The string [k] occurs in the string [p]. *)
Definition occurs_in (k p : string) : Prop :=
  ∃ a b, list_ascii_of_string p = a ++ list_ascii_of_string k ++ b.

(** No name of a method of [Object.prototype] occurs in the path [p]. *)
Definition method_free (p : string) : Prop :=
  ∀ k, is_in k object_prototype_functions = true → ¬ occurs_in k p.

(** A run that returns a result, or else stops at the read of a method of
    [Object.prototype] whose name occurs in [p]. *)
Definition returns_or_method {A} (r : outcome A * heap) (p : string) : Prop :=
  (∃ a h', r = (Ok a, h'))
  ∨ (∃ h' k, r = (Unmodelled, h')
             ∧ is_in k object_prototype_functions = true ∧ occurs_in k p).

(** ** Outcomes that are not an invalid-path error *)

Definition no_path_error {A} (m : M A) : Prop :=
  ∀ h, fst (m h) ≠ Throw InvalidPathError.

(** ** Cells that a call created *)

(** With respect to a heap [h0] taken as the heap before a call: a value
    is fresh when it is a primitive, a built-in object or a reference to a
    cell that [h0] does not hold; a cell is fresh when the values in it
    are. *)
Definition vfresh (h0 : heap) (v : jsval) : Prop :=
  match v with
  | VRef l => length h0 ≤ l
  | _ => True
  end.

Definition props_fresh (h0 : heap) (ps : props) : Prop :=
  Forall (λ kv, vfresh h0 (snd kv)) ps.

Definition elem_fresh (h0 : heap) (e : option jsval) : Prop :=
  match e with
  | Some v => vfresh h0 v
  | None => True
  end.

Definition elems_fresh (h0 : heap) (es : list (option jsval)) : Prop :=
  Forall (elem_fresh h0) es.

Definition cell_fresh (h0 : heap) (c : cell) : Prop :=
  match c with
  | CObj ps => props_fresh h0 ps
  | CArr es ex => elems_fresh h0 es ∧ props_fresh h0 ex
  end.

(** The heap [h] still starts with [h0], cell for cell, and the cells
    added since refer to added cells only. *)
Definition extends (h0 h : heap) : Prop :=
  take (length h0) h = h0
  ∧ ∀ l c, length h0 ≤ l → h !! l = Some c → cell_fresh h0 c.

(** A computation that keeps [extends h0] and whose result satisfies
    [P]. *)
Definition safe {A} (h0 : heap) (P : A → Prop) (m : M A) : Prop :=
  ∀ h, extends h0 h →
    extends h0 (snd (m h)) ∧ ∀ a, fst (m h) = Ok a → P a.

Definition pairs_fresh (h0 : heap) (rs : list (string * jsval)) : Prop :=
  Forall (λ r, vfresh h0 (snd r)) rs.

(** ** Heaps without dangling references *)

Definition vbound (n : nat) (v : jsval) : Prop :=
  match v with
  | VRef l => l < n
  | _ => True
  end.

Definition cell_bound (n : nat) (c : cell) : Prop :=
  match c with
  | CObj ps => Forall (λ kv, vbound n (snd kv)) ps
  | CArr es ex =>
      Forall (λ e, match e with Some v => vbound n v | None => True end) es
      ∧ Forall (λ kv, vbound n (snd kv)) ex
  end.

(** Every reference stored in the heap points into the heap. *)
Definition heap_closed (h : heap) : Prop :=
  Forall (cell_bound (length h)) h.

(** ** Notions used in the proofs *)

Definition stops (p : ascii → bool) (suf : list ascii) : Prop :=
  match suf with
  | [] => True
  | c :: _ => p c = false
  end.

Definition keyrun (w : list ascii) : Prop :=
  w ≠ [] ∧ Forall (λ c, is_key c = true) w.

(** Before or after a run: nothing, or a dot. *)
Definition at_dot (cs : list ascii) : Prop :=
  match cs with
  | [] => True
  | c :: _ => c = "."%char
  end.

Definition digits (w : list ascii) : Prop :=
  w ≠ [] ∧ Forall (λ c, is_digit c = true) w.

(** A string without brackets is no array key and is its own clean
    key. *)
Definition bracket_free (w : list ascii) : Prop :=
  Forall (λ c, not_bracket c = true) w.

Definition container_for (s : seg) : cell :=
  if is_key_seg s then CObj [] else CArr [] [].

Definition slot_for (s : seg) (v : jsval) : cell :=
  match s with
  | PKey k => CObj [(k, v)]
  | PIdx i => CArr (elems_set [] i v) []
  end.

(** ** Trees that stand for values *)

(** A tree is the tree of a value when no object in it has a key
    twice. *)
Fixpoint wf_json (j : json) : Prop :=
  match j with
  | JArr items =>
      (fix go (l : list json) : Prop :=
         match l with
         | [] => True
         | x :: l' => wf_json x ∧ go l'
         end) items
  | JObj fields =>
      NoDup (List.map fst fields)
      ∧ (fix go (l : list (string * json)) : Prop :=
           match l with
           | [] => True
           | (_, x) :: l' => wf_json x ∧ go l'
           end) fields
  | _ => True
  end.

(** The round trip for a value given as a tree, from the empty heap: the
    tree of the value read back. *)
Definition round_trip_tree (n : nat) (path : string) (value : json)
    : outcome (option (option json)) :=
  fst (run (let* v := parse value in
            let* r := round_trip n path v in
            let* h := get_heap in
            ret (tree_of h r)) []).

(** The tree of the source after [mapObject(source, ...fields)], whatever
    the outcome of the call, for a source given as a tree, from the empty
    heap. *)
Definition source_after (n : nat) (source : json) (fields : list spec)
    : option (option json) :=
  match run (parse source) [] with
  | (Ok src, h) => tree_of (snd (run (mapObject n src fields) h)) src
  | _ => None
  end.

(** A value of the heap that stands for a tree. *)
Definition stands_for (h : heap) (v : jsval) (j : json) : Prop :=
  vbound (length h) v ∧ tree_of h v = Some (Some j).

(** What [parse] does on a closed heap: it only adds cells, keeps the heap
    closed and returns a value that stands for the tree. *)
Definition parses (j : json) : Prop :=
  ∀ h, heap_closed h →
    ∃ v h2, parse j h = (Ok v, h ++ h2)
            ∧ heap_closed (h ++ h2) ∧ stands_for (h ++ h2) v j.

(** ** Patterns without anchors and look-around *)

(** A pattern made of classes, sequence, alternation and iteration
    only; for such a pattern [lang] is the set of the words it matches. *)
Fixpoint plain (r : re) : bool :=
  match r with
  | RChar _ | REps => true
  | RSeq a b | RAlt a b => plain a && plain b
  | RStar a => plain a
  | RBol | REol | RAhead _ | RBehind _ => false
  end.

(** Runs of key characters joined by dots, as the pattern [keypath]
    takes them. *)
Definition dotted (w : list ascii) : Prop :=
  ∃ ws, ws ≠ [] ∧ Forall keyrun ws ∧ w = join_dots ws.

(** ** Cutting a map string *)

(** The pieces of a string between the separators [,] and [::], found by
    one pass over the characters; [acc] holds the piece under
    construction, last character first. *)
Fixpoint cut (acc cs : list ascii) : list (list ascii) :=
  match cs with
  | [] => [rev acc]
  | c :: r =>
      if Ascii.eqb c "," then rev acc :: cut [] r
      else
        match r with
        | d :: r' =>
            if Ascii.eqb c ":" && Ascii.eqb d ":" then rev acc :: cut [] r'
            else cut (c :: acc) r
        | [] => cut (c :: acc) r
        end
  end.

(** A piece that holds no separator: no comma and no two colons in a
    row. *)
Fixpoint sep_free (cs : list ascii) : bool :=
  match cs with
  | [] => true
  | c :: r =>
      negb (Ascii.eqb c ",")
      && negb (Ascii.eqb c ":" && match r with d :: _ => Ascii.eqb d ":" | [] => false end)
      && sep_free r
  end.

(** A piece without a comma and without a colon. *)
Definition colon_free (cs : list ascii) : bool :=
  forallb (λ c, negb (Ascii.eqb c ",") && negb (Ascii.eqb c ":")) cs.

(** ** What a path of keys and indices denotes *)

(** One step down a path: an own property of a plain object, an element
    of an array; anything else is [undefined]. *)
Definition lookup_seg (h : heap) (cur : jsval) (s : seg) : jsval :=
  match s with
  | PKey k =>
      match props_of h cur with
      | Some ps => default VUndef (prop_get k ps)
      | None => VUndef
      end
  | PIdx i =>
      match elems_of h cur with
      | Some es => arr_at es (Z.of_nat i)
      | None => VUndef
      end
  end.

Definition lookup_path (h : heap) (obj : jsval) (segs : list seg) : jsval :=
  foldl (lookup_seg h) obj segs.

(** A computation that only adds cells to the heap. *)
Definition grows {A} (m : M A) : Prop :=
  ∀ h, ∃ h2, snd (m h) = h ++ h2.

(** ** Cutting a mapper *)

(** The pieces of a string between its colons, by one pass over the
    characters; a dot that ends the string is a separator too. *)
Fixpoint mcut (acc cs : list ascii) : list (list ascii) :=
  match cs with
  | [] => [rev acc]
  | c :: r =>
      if Ascii.eqb c ":" || (Ascii.eqb c "." && bool_decide (r = []))
      then rev acc :: mcut [] r
      else mcut (c :: acc) r
  end.

(** A map array whose first item is no mapper. *)
Definition no_mapper_head (items : list spec) : Prop :=
  match items with
  | SStr s :: _ => isMapper s = false
  | _ => True
  end.

(** The pairs a computation resolves, each identifier with a prefix
    before it. *)
Definition prefixed (identifierPrefix : string) (m : M (list (string * jsval)))
    : M (list (string * jsval)) :=
  let* rs := m in ret (List.map (add_prefix identifierPrefix) rs).

(** ** Field specifications that take one key *)

(** A map string that takes one key of the source: ["key"], or
    ["key:target"] to store it under another key. *)
Inductive pickspec : Type :=
| Keep (k : string)
| Rename (k t : string).

Definition pick_source (p : pickspec) : string :=
  match p with Keep k | Rename k _ => k end.

Definition pick_target (p : pickspec) : string :=
  match p with Keep k => k | Rename _ t => t end.

Definition pick_text (p : pickspec) : string :=
  match p with
  | Keep k => k
  | Rename k t => String.append k (String ":" t)
  end.

(** The two keys are plain keys and no names of properties of
    [Object.prototype]. *)
Definition pick_ok (p : pickspec) : Prop :=
  plain_key (pick_source p) = true ∧ plain_key (pick_target p) = true
  ∧ inherited_name (pick_source p) = false ∧ inherited_name (pick_target p) = false.

(** The first field of an object tree under a key. *)
Fixpoint field_get (k : string) (fields : list (string * json)) : option json :=
  match fields with
  | [] => None
  | (k', j) :: fields' => if String.eqb k' k then Some j else field_get k fields'
  end.

(** What one specification contributes to the tree of the result: the
    field of the source, when there is one and it is not [null]. *)
Definition picked (fields : list (string * json)) (p : pickspec) : list (string * json) :=
  match field_get (pick_source p) fields with
  | Some JNull | None => []
  | Some j => [(pick_target p, j)]
  end.

(** The key one specification adds to the result: its target, when the
    source has the field. *)
Definition picked_key (fields : list (string * json)) (p : pickspec) : list string :=
  match field_get (pick_source p) fields with
  | Some _ => [pick_target p]
  | None => []
  end.

(** [Object.keys(v)] for a plain object. *)
Definition own_keys (h : heap) (v : jsval) : option (list string) :=
  option_map (List.map fst) (props_of h v).

(** [Object.keys(mapObject(source, ...fields))] from the empty heap, for a
    source given as a tree. *)
Definition mapObject_keys (n : nat) (source : json) (fields : list spec)
    : outcome (option (list string)) :=
  fst (run (let* src := parse source in
            let* r := mapObject n src fields in
            let* h := get_heap in
            ret (own_keys h r)) []).

(** What one specification adds to the properties of the result. *)
Definition taken (ps : list (string * jsval)) (p : pickspec) : list (string * jsval) :=
  match default VUndef (prop_get (pick_source p) ps) with
  | VUndef => []
  | v => [(pick_target p, nullish v)]
  end.

(** * Properties *)

(** ** Characters *)

Lemma is_key_not_special c :
  is_key c = true →
  c ≠ "."%char ∧ c ≠ "*"%char ∧ c ≠ "["%char ∧ c ≠ "]"%char ∧ c ≠ ":"%char ∧ c ≠ ","%char.
Proof.
  destruct c as [[] [] [] [] [] [] [] []]; vm_compute; intros H;
    try discriminate H; repeat split; discriminate.
Qed.

Lemma is_digit_is_key c : is_digit c = true → is_key c = true.
Proof.
  destruct c as [[] [] [] [] [] [] [] []]; vm_compute; intros H;
    try discriminate H; reflexivity.
Qed.

Lemma is_digit_not_minus c : is_digit c = true → c ≠ "-"%char.
Proof.
  destruct c as [[] [] [] [] [] [] [] []]; vm_compute; intros H;
    try discriminate H; discriminate.
Qed.

Lemma eqb_neq (a b : ascii) : a ≠ b → Ascii.eqb a b = false.
Proof. intros H. apply Ascii.eqb_neq. exact H. Qed.

(** ** The matcher on runs of one class *)

Lemma star_loop_eq ma k n st :
  star_loop ma k n st =
  match ma st (λ st',
          if Nat.eqb (pos st') (pos st) then None
          else match n with
               | O => None
               | S n' => star_loop ma k n' st'
               end) with
  | Some r => Some r
  | None => k st
  end.
Proof. destruct n; reflexivity. Qed.

(** Unfolding equations of the matcher, used as rewrite rules. *)
Lemma rmatch_char_cons p pre c suf k :
  rmatch true (RChar p) (pre, c :: suf) k = if p c then k (c :: pre, suf) else None.
Proof. reflexivity. Qed.

Lemma rmatch_char_nil p pre k : rmatch true (RChar p) (pre, []) k = None.
Proof. reflexivity. Qed.

Lemma rmatch_back_cons p c pre suf k :
  rmatch false (RChar p) (c :: pre, suf) k = if p c then k (pre, c :: suf) else None.
Proof. reflexivity. Qed.

Lemma rmatch_back_nil p suf k : rmatch false (RChar p) ([], suf) k = None.
Proof. reflexivity. Qed.

Lemma rmatch_eps fwd st k : rmatch fwd REps st k = k st.
Proof. reflexivity. Qed.

Lemma rmatch_seq a b st k :
  rmatch true (RSeq a b) st k = rmatch true a st (λ st', rmatch true b st' k).
Proof. reflexivity. Qed.

Lemma rmatch_alt fwd a b st k :
  rmatch fwd (RAlt a b) st k =
  match rmatch fwd a st k with Some x => Some x | None => rmatch fwd b st k end.
Proof. reflexivity. Qed.

Lemma rmatch_star fwd a st k :
  rmatch fwd (RStar a) st k =
  star_loop (rmatch fwd a) k (length (fst st) + length (snd st)) st.
Proof. reflexivity. Qed.

Lemma rmatch_bol_nil fwd suf k : rmatch fwd RBol ([], suf) k = k ([], suf).
Proof. reflexivity. Qed.

Lemma rmatch_bol_cons fwd c pre suf k : rmatch fwd RBol (c :: pre, suf) k = None.
Proof. reflexivity. Qed.

Lemma rmatch_eol_nil fwd pre k : rmatch fwd REol (pre, []) k = k (pre, []).
Proof. reflexivity. Qed.

Lemma rmatch_eol_cons fwd pre c suf k : rmatch fwd REol (pre, c :: suf) k = None.
Proof. reflexivity. Qed.

Lemma rmatch_ahead fwd a st k :
  rmatch fwd (RAhead a) st k =
  match rmatch true a st Some with Some _ => k st | None => None end.
Proof. reflexivity. Qed.

Lemma rmatch_behind fwd a st k :
  rmatch fwd (RBehind a) st k =
  match rmatch false a st Some with Some _ => k st | None => None end.
Proof. reflexivity. Qed.

Create Rewrite HintDb re.
#[local] Hint Rewrite rmatch_char_cons rmatch_char_nil rmatch_back_cons rmatch_back_nil
  rmatch_eps rmatch_seq rmatch_alt rmatch_star rmatch_bol_nil rmatch_bol_cons
  rmatch_eol_nil rmatch_eol_cons rmatch_ahead rmatch_behind : re.

#[local] Opaque rmatch.

Lemma star_loop_class p k w : ∀ n pre suf r,
  Forall (λ c, p c = true) w →
  stops p suf →
  length w ≤ n →
  k (rev w ++ pre, suf) = Some r →
  star_loop (rmatch true (RChar p)) k n (pre, w ++ suf) = Some r.
Proof.
  induction w as [|c w IH]; intros n pre suf r Hw Hs Hn Hk.
  - rewrite star_loop_eq. cbn [app].
    destruct suf as [|c suf]; cbn in *.
    + rewrite rmatch_char_nil. exact Hk.
    + rewrite rmatch_char_cons, Hs. exact Hk.
  - inversion Hw as [|? ? Hc Hw']; subst.
    rewrite star_loop_eq. cbn [app].
    rewrite rmatch_char_cons, Hc. unfold pos. cbn [fst length].
    rewrite (proj2 (Nat.eqb_neq _ _)) by lia.
    destruct n as [|n]; [cbn in Hn; lia|].
    rewrite (IH n (c :: pre) suf r); auto.
    + cbn in Hn. lia.
    + cbn [rev] in Hk. rewrite <- app_assoc in Hk. exact Hk.
Qed.

Lemma plus_class p k c w pre suf r :
  p c = true →
  Forall (λ c, p c = true) w →
  stops p suf →
  k (rev (c :: w) ++ pre, suf) = Some r →
  rmatch true (RPlus (RChar p)) (pre, c :: w ++ suf) k = Some r.
Proof.
  intros Hc Hw Hs Hk. unfold RPlus.
  rewrite rmatch_seq, rmatch_char_cons, Hc, rmatch_star.
  apply star_loop_class; auto.
  - cbn [fst snd]. rewrite length_app. cbn. lia.
  - cbn [rev] in Hk. rewrite <- app_assoc in Hk. exact Hk.
Qed.

(** ** The two path patterns on runs of key characters *)

Lemma at_dot_stops suf : at_dot suf → stops is_key suf.
Proof. destruct suf as [|c suf]; cbn; [trivial|]. intros ->. reflexivity. Qed.

Lemma behind_dot_or_start pre suf :
  at_dot pre → rmatch false (lit "." ⊕ RBol)%re (pre, suf) Some = Some
    (match pre with [] => ([], suf) | c :: pre' => (pre', c :: suf) end).
Proof.
  unfold lit. destruct pre as [|c pre]; cbn; intros H.
  - autorewrite with re. reflexivity.
  - subst c. autorewrite with re. reflexivity.
Qed.

Lemma behind_key c pre suf :
  is_key c = true → rmatch false (lit "." ⊕ RBol)%re (c :: pre, suf) Some = None.
Proof.
  intros H. unfold lit. autorewrite with re.
  rewrite eqb_neq; [reflexivity|].
  intros <-. discriminate H.
Qed.

Lemma ahead_dot_or_end pre suf :
  at_dot suf → ∃ st, rmatch true (lit "." ⊕ REol)%re (pre, suf) Some = Some st.
Proof.
  unfold lit. destruct suf as [|c suf]; cbn; intros H.
  - autorewrite with re. eauto.
  - subst c. autorewrite with re. cbn. eauto.
Qed.

Lemma exec_read_key pre w suf :
  keyrun w → at_dot pre → at_dot suf →
  exec read_re (pre, w ++ suf) = Some (rev w ++ pre, suf).
Proof.
  intros [Hne Hw] Hpre Hsuf. destruct w as [|c w]; [done|].
  inversion Hw as [|? ? Hc Hw']; subst.
  destruct (is_key_not_special c Hc) as (_ & Hstar & Hbr & _).
  unfold exec, read_re. rewrite rmatch_alt. unfold lit at 1.
  cbn [app]. rewrite rmatch_char_cons, eqb_neq by congruence.
  rewrite rmatch_seq, rmatch_behind, behind_dot_or_start by exact Hpre.
  rewrite rmatch_seq, rmatch_alt.
  rewrite rmatch_seq. unfold lit at 1. rewrite rmatch_char_cons, eqb_neq by congruence.
  apply plus_class; auto using at_dot_stops.
  rewrite rmatch_ahead.
  destruct (ahead_dot_or_end (rev (c :: w) ++ pre) suf Hsuf) as [st ->]. reflexivity.
Qed.

Lemma exec_write_key pre w suf :
  keyrun w → at_dot suf →
  exec write_re (pre, w ++ suf) = Some (rev w ++ pre, suf).
Proof.
  intros [Hne Hw] Hsuf. destruct w as [|c w]; [done|].
  inversion Hw as [|? ? Hc Hw']; subst.
  destruct (is_key_not_special c Hc) as (_ & Hstar & Hbr & _).
  unfold exec, write_re. rewrite rmatch_alt. cbn [app].
  rewrite rmatch_seq, rmatch_behind.
  assert (rmatch true (lit "[" ⊙ RStar keypath ⊙ lit "]")%re (pre, c :: w ++ suf) Some = None) as Hb.
  { unfold lit at 1. rewrite rmatch_seq, rmatch_char_cons, eqb_neq by congruence. reflexivity. }
  rewrite Hb.
  assert (rmatch true (RPlus kc ⊙ RAhead (lit "." ⊕ REol))%re (pre, c :: w ++ suf) Some
          = Some (rev (c :: w) ++ pre, suf)) as Hk.
  { rewrite rmatch_seq. apply plus_class; auto using at_dot_stops.
    rewrite rmatch_ahead.
    destruct (ahead_dot_or_end (rev (c :: w) ++ pre) suf Hsuf) as [st ->]. reflexivity. }
  rewrite Hk. destruct (rmatch false _ _ _); reflexivity.
Qed.

Lemma exec_read_none c pre suf :
  is_key c = true → at_dot suf → exec read_re (c :: pre, suf) = None.
Proof.
  intros Hc Hsuf. unfold exec, read_re.
  rewrite rmatch_alt, rmatch_seq, rmatch_behind, behind_key by exact Hc.
  unfold lit. destruct suf as [|d suf]; cbn in Hsuf.
  - rewrite rmatch_char_nil. reflexivity.
  - subst d. rewrite rmatch_char_cons. reflexivity.
Qed.

Lemma exec_write_none c pre suf :
  is_key c = true → at_dot suf → exec write_re (c :: pre, suf) = None.
Proof.
  intros Hc Hsuf. unfold exec, write_re.
  rewrite rmatch_alt, rmatch_seq, rmatch_behind, behind_key by exact Hc.
  unfold RPlus, kc. rewrite !rmatch_seq.
  destruct suf as [|d suf]; cbn in Hsuf.
  - rewrite rmatch_char_nil. reflexivity.
  - subst d. rewrite rmatch_char_cons. reflexivity.
Qed.

Lemma list_ascii_of_string_app s1 s2 :
  list_ascii_of_string (String.append s1 s2) = list_ascii_of_string s1 ++ list_ascii_of_string s2.
Proof. induction s1 as [|c s1 IH]; cbn; [reflexivity|]. rewrite IH. reflexivity. Qed.

Lemma list_ascii_of_concat ss :
  list_ascii_of_string (String.concat "." ss) = join_dots (List.map list_ascii_of_string ss).
Proof.
  induction ss as [|s ss IH]; [reflexivity|].
  cbn [String.concat List.map join_dots]. destruct ss as [|s' ss]; [reflexivity|].
  rewrite list_ascii_of_string_app. cbn [List.map] in IH |- *.
  rewrite <- IH. reflexivity.
Qed.

Lemma keyrun_rev_head w :
  keyrun w → ∃ c t, rev w = c :: t ∧ is_key c = true.
Proof.
  intros [Hne Hw]. destruct (rev w) as [|c t] eqn:E.
  - apply (f_equal (@rev _)) in E. rewrite rev_involutive in E. done.
  - exists c, t. split; [reflexivity|].
    rewrite Forall_forall in Hw. apply Hw.
    apply list_elem_of_In, in_rev. rewrite E. left. reflexivity.
Qed.

Lemma matched_run pre w suf suf' :
  matched (pre, suf') (rev w ++ pre, suf) = w.
Proof.
  unfold matched, pos. cbn [fst].
  rewrite length_app, length_rev.
  replace (length w + length pre - length pre) with (length (rev w)) by (rewrite length_rev; lia).
  rewrite take_app_length. apply rev_involutive.
Qed.

Lemma join_dots_length_pos w ws : keyrun w → 0 < length (join_dots (w :: ws)).
Proof.
  intros [Hne _]. cbn. destruct ws; [|rewrite length_app];
    destruct w; cbn; try done; lia.
Qed.

(** A pattern that takes a whole run of key characters at its start and
    matches neither at the dot after a run nor at the end cuts a dotted
    path into its runs. *)
Lemma match_loop_runs r
    (Hrun : ∀ pre w suf, keyrun w → at_dot pre → at_dot suf →
              exec r (pre, w ++ suf) = Some (rev w ++ pre, suf))
    (Hnone : ∀ c pre suf, is_key c = true → at_dot suf → exec r (c :: pre, suf) = None)
    ws : ∀ n pre,
  Forall keyrun ws → ws ≠ [] → at_dot pre →
  length (join_dots ws) < n →
  match_loop r n (pre, join_dots ws) = ws.
Proof.
  induction ws as [|w ws IH]; intros n pre Hws Hne Hpre Hn; [done|].
  inversion Hws as [|? ? Hw Hws']; subst.
  destruct (keyrun_rev_head w Hw) as (c & t & Hrev & Hc).
  assert (w ≠ []) as Hwne by apply Hw.
  destruct n as [|n]; [lia|]. cbn [match_loop join_dots].
  destruct ws as [|w' ws].
  - rewrite <- (app_nil_r w) at 1. rewrite Hrun by (cbn; auto).
    rewrite matched_run. unfold pos. cbn [fst].
    rewrite length_app, length_rev.
    rewrite (proj2 (Nat.eqb_neq _ _)) by (destruct w; [done|cbn; lia]).
    f_equal. destruct n as [|n]; [cbn in Hn; destruct w; [done|cbn in Hn; lia]|].
    cbn [match_loop]. rewrite Hrev. cbn [app].
    rewrite Hnone by (cbn; auto). reflexivity.
  - rewrite Hrun by (cbn; auto).
    rewrite matched_run. unfold pos. cbn [fst].
    rewrite length_app, length_rev.
    rewrite (proj2 (Nat.eqb_neq _ _)) by (destruct w; [done|cbn; lia]).
    f_equal. destruct n as [|n].
    { cbn [join_dots] in Hn. rewrite length_app in Hn. cbn in Hn. lia. }
    cbn [match_loop]. rewrite Hrev. cbn [app].
    rewrite Hnone by (cbn; auto). cbn [advance snd fst].
    apply IH; auto; [done|].
    cbn [join_dots] in Hn. rewrite length_app in Hn. cbn [length] in Hn.
    cbn [join_dots]. destruct w; [done|]. cbn in Hn. lia.
Qed.

(** ** Decimal numerals *)

Lemma uint_digits d :
  Forall (λ c, is_digit c = true) (list_ascii_of_string (NilEmpty.string_of_uint d)).
Proof. induction d; cbn; constructor; auto. Qed.

Lemma uint_nonempty d : d ≠ Decimal.Nil → NilEmpty.string_of_uint d ≠ "".
Proof. destruct d; cbn; congruence. Qed.

Lemma string_of_uint_nilzero d : d ≠ Decimal.Nil →
  NilZero.string_of_uint d = NilEmpty.string_of_uint d.
Proof. destruct d; cbn; congruence. Qed.

Lemma digits_of_string_uint d : d ≠ Decimal.Nil →
  digits (list_ascii_of_string (NilZero.string_of_uint d)).
Proof.
  intros Hd. rewrite string_of_uint_nilzero by exact Hd. split.
  - intros E. apply (uint_nonempty d Hd).
    rewrite <- (string_of_list_ascii_of_string (NilEmpty.string_of_uint d)), E. reflexivity.
  - apply uint_digits.
Qed.

Lemma string_of_Z_nonneg z : (0 ≤ z)%Z → digits (list_ascii_of_string (string_of_Z z)).
Proof.
  intros Hz. unfold string_of_Z. destruct z as [|p|p]; [| |lia]; cbn [Z.to_int NilZero.string_of_int].
  - apply digits_of_string_uint. discriminate.
  - apply digits_of_string_uint, DecimalPos.Unsigned.to_uint_nonnil.
Qed.

Lemma string_of_Z_neg z : (z < 0)%Z →
  ∃ w, list_ascii_of_string (string_of_Z z) = "-"%char :: w ∧ digits w.
Proof.
  intros Hz. unfold string_of_Z. destruct z as [|p|p]; [lia|lia|].
  cbn [Z.to_int NilZero.string_of_int list_ascii_of_string].
  eexists. split; [reflexivity|].
  apply digits_of_string_uint, DecimalPos.Unsigned.to_uint_nonnil.
Qed.

Lemma Z_of_string_of_Z z : Z_of_string (string_of_Z z) = z.
Proof.
  unfold Z_of_string, string_of_Z. rewrite NilZero.isi.
  - apply DecimalZ.of_to.
  - destruct z; cbn; try discriminate.
    intros [= E]. exact (DecimalPos.Unsigned.to_uint_nonnil _ E).
  - destruct z; cbn; try discriminate.
    intros [= E]. exact (DecimalPos.Unsigned.to_uint_nonnil _ E).
Qed.

Lemma digits_keyrun w : digits w → keyrun w.
Proof.
  intros [Hne Hw]. split; [exact Hne|].
  eapply Forall_impl; [exact Hw|]. intros c. apply is_digit_is_key.
Qed.

(** ** The classifiers *)

Lemma test_from_anchored a : ∀ suf c pre,
  test_from (RBol ⊙ a)%re (c :: pre) suf = false.
Proof.
  induction suf as [|d suf IH]; intros c pre; cbn [test_from]; unfold exec;
    rewrite rmatch_seq, rmatch_bol_cons; [reflexivity|apply IH].
Qed.

Lemma test_anchored a (s : string) :
  test (RBol ⊙ a)%re s =
  bool_decide (is_Some (rmatch true a ([], list_ascii_of_string s) Some)).
Proof.
  unfold test. destruct (list_ascii_of_string s) as [|c cs]; cbn [test_from]; unfold exec;
    rewrite rmatch_seq, rmatch_bol_nil.
  - destruct (rmatch true a _ _); reflexivity.
  - destruct (rmatch true a _ _); [reflexivity|]. rewrite test_from_anchored. reflexivity.
Qed.

Lemma isIndexKey_digits (s : string) :
  digits (list_ascii_of_string s) → isIndexKey s = true.
Proof.
  intros [Hne Hw]. unfold isIndexKey, indexkey_re. rewrite test_anchored.
  destruct (list_ascii_of_string s) as [|c w]; [done|].
  inversion Hw as [|? ? Hc Hw']; subst.
  unfold ROpt, lit, digit. rewrite rmatch_seq, rmatch_alt, rmatch_char_cons.
  rewrite eqb_neq by (intros E; symmetry in E; revert E; apply is_digit_not_minus, Hc).
  rewrite rmatch_eps, rmatch_seq.
  rewrite <- (app_nil_r w).
  erewrite plus_class; [reflexivity|exact Hc|exact Hw'|exact I|].
  rewrite rmatch_eol_nil. reflexivity.
Qed.

Lemma isIndexKey_minus_digits (s : string) w :
  list_ascii_of_string s = "-"%char :: w → digits w → isIndexKey s = true.
Proof.
  intros Hs [Hne Hw]. unfold isIndexKey, indexkey_re. rewrite test_anchored, Hs.
  destruct w as [|c w]; [done|].
  inversion Hw as [|? ? Hc Hw']; subst.
  unfold ROpt, lit, digit. rewrite rmatch_seq, rmatch_alt, rmatch_char_cons. cbn [Ascii.eqb Bool.eqb].
  rewrite rmatch_seq.
  rewrite <- (app_nil_r w).
  erewrite plus_class; [reflexivity|exact Hc|exact Hw'|exact I|].
  rewrite rmatch_eol_nil. reflexivity.
Qed.

Lemma isIndexKey_string_of_Z z : isIndexKey (string_of_Z z) = true.
Proof.
  destruct (Z.lt_ge_cases z 0) as [Hz|Hz].
  - destruct (string_of_Z_neg z Hz) as (w & Hs & Hw).
    eapply isIndexKey_minus_digits; eauto.
  - apply isIndexKey_digits, string_of_Z_nonneg, Hz.
Qed.

Lemma negindex_digits (s : string) :
  digits (list_ascii_of_string s) → test negindex_re s = false.
Proof.
  intros [Hne Hw]. unfold negindex_re. rewrite test_anchored.
  destruct (list_ascii_of_string s) as [|c w]; [done|].
  inversion Hw as [|? ? Hc Hw']; subst.
  unfold lit. rewrite rmatch_seq, rmatch_char_cons.
  rewrite eqb_neq by (intros E; symmetry in E; revert E; apply is_digit_not_minus, Hc).
  reflexivity.
Qed.

Lemma is_array_index_of_nat i :
  (Z.of_nat i < array_limit)%Z → is_array_index (string_of_Z (Z.of_nat i)) = true.
Proof.
  intros Hi. unfold is_array_index. rewrite Z_of_string_of_Z, String.eqb_refl.
  cbn [andb]. apply andb_true_intro. split.
  - apply Z.leb_le. lia.
  - apply Z.ltb_lt. exact Hi.
Qed.

Lemma not_bracket_spec c : not_bracket c = true → c ≠ "["%char ∧ c ≠ "]"%char.
Proof.
  unfold not_bracket. intros H. apply negb_true_iff, orb_false_iff in H.
  destruct H as [H1 H2]. split; intros ->; discriminate.
Qed.

Lemma is_key_not_bracket c : is_key c = true → not_bracket c = true.
Proof.
  intros H. destruct (is_key_not_special c H) as (_ & _ & H1 & H2 & _).
  unfold not_bracket. rewrite !eqb_neq by congruence. reflexivity.
Qed.

Lemma keyrun_bracket_free w : keyrun w → bracket_free w.
Proof.
  intros [_ Hw]. eapply Forall_impl; [exact Hw|]. intros c. apply is_key_not_bracket.
Qed.

Lemma isArrayKey_bracket_free (s : string) :
  bracket_free (list_ascii_of_string s) → isArrayKey s = false.
Proof.
  intros Hw. unfold isArrayKey, arraykey_re. rewrite test_anchored.
  destruct (list_ascii_of_string s) as [|c w]; unfold lit; rewrite rmatch_seq.
  - rewrite rmatch_char_nil. reflexivity.
  - inversion Hw as [|? ? Hc Hw']; subst.
    destruct (not_bracket_spec c Hc) as [H1 _].
    rewrite rmatch_char_cons, eqb_neq by congruence. reflexivity.
Qed.

Lemma exec_strip_none pre suf :
  (pre = [] → match suf with c :: _ => c ≠ "["%char | [] => True end) →
  match suf with c :: suf' => c = "]"%char → suf' ≠ [] | [] => True end →
  exec strip_re (pre, suf) = None.
Proof.
  intros H1 H2. unfold exec, strip_re, lit. rewrite rmatch_alt, !rmatch_seq.
  destruct suf as [|c suf].
  - rewrite rmatch_char_nil. destruct pre; [rewrite rmatch_bol_nil, rmatch_char_nil|rewrite rmatch_bol_cons]; reflexivity.
  - rewrite (rmatch_char_cons _ pre c suf).
    assert (rmatch true RBol (pre, c :: suf)
              (λ st', rmatch true (RChar (Ascii.eqb "[")) st' Some) = None) as ->.
    { destruct pre; [|apply rmatch_bol_cons].
      rewrite rmatch_bol_nil, rmatch_char_cons, eqb_neq; [reflexivity|].
      intros E. apply H1; [reflexivity|]. symmetry. exact E. }
    destruct (Ascii.eqb_spec "]" c) as [<-|]; [|reflexivity].
    destruct suf; [exfalso; apply H2; reflexivity|]. apply rmatch_eol_cons.
Qed.

Lemma remove_loop_bracket_free : ∀ suf n pre,
  bracket_free suf → length suf < n →
  remove_loop strip_re n (pre, suf) = suf.
Proof.
  induction suf as [|c suf IH]; intros n pre Hw Hn; (destruct n as [|n]; [cbn in Hn; lia|]);
    cbn [remove_loop]; rewrite exec_strip_none; cbn [snd fst]; try reflexivity.
  - f_equal. inversion Hw; subst. apply IH; [assumption|cbn in Hn; lia].
  - inversion Hw as [|? ? Hc _]; subst. intros _. apply (not_bracket_spec c Hc).
  - inversion Hw as [|? ? Hc _]; subst. intros ->. discriminate Hc.
Qed.

Lemma cleanKeyOf_bracket_free (s : string) :
  bracket_free (list_ascii_of_string s) → cleanKeyOf s = s.
Proof.
  intros Hw. unfold cleanKeyOf, remove_all.
  rewrite remove_loop_bracket_free by (auto; lia).
  apply string_of_list_ascii_of_string.
Qed.

(** ** Key and index segments *)

Lemma plain_key_spec k :
  plain_key k = true →
  k ≠ "" ∧ keyrun (list_ascii_of_string k) ∧ isIndexKey k = false.
Proof.
  unfold plain_key. intros H.
  apply andb_true_iff in H as [H H3]. apply andb_true_iff in H as [H1 H2].
  apply negb_true_iff in H1, H3. apply String.eqb_neq in H1.
  repeat split; auto.
  - intros E. apply H1.
    rewrite <- (string_of_list_ascii_of_string k), E. reflexivity.
  - apply Forall_forall. intros c Hc.
    rewrite forallb_forall in H2. apply H2, list_elem_of_In, Hc.
Qed.

Lemma seg_keyrun s : valid_seg s → keyrun (list_ascii_of_string (seg_text s)).
Proof.
  destruct s as [k|i]; cbn; intros H.
  - apply plain_key_spec, H.
  - apply digits_keyrun, string_of_Z_nonneg. lia.
Qed.

Lemma keyrun_not_trivial (s : string) :
  keyrun (list_ascii_of_string s) → String.eqb s "" = false ∧ String.eqb s "*" = false.
Proof.
  intros [Hne Hw]. split; apply String.eqb_neq; intros ->; [done|].
  inversion Hw as [|? ? Hc _]; subst. discriminate Hc.
Qed.

Lemma seg_isArrayKey s : valid_seg s → isArrayKey (seg_text s) = false.
Proof. intros H. apply isArrayKey_bracket_free, keyrun_bracket_free, seg_keyrun, H. Qed.

Lemma seg_isIndexKey s : valid_seg s → isIndexKey (seg_text s) = negb (is_key_seg s).
Proof.
  destruct s as [k|i]; cbn; intros H.
  - apply plain_key_spec, H.
  - apply isIndexKey_string_of_Z.
Qed.

Lemma seg_cleanKey s : valid_seg s → cleanKeyOf (seg_text s) = seg_text s.
Proof. intros H. apply cleanKeyOf_bracket_free, keyrun_bracket_free, seg_keyrun, H. Qed.

Lemma next_is_array_seg s :
  valid_seg s → next_is_array (Some (seg_text s)) = negb (is_key_seg s).
Proof.
  intros H. unfold next_is_array, key_text.
  rewrite seg_isArrayKey, seg_isIndexKey by exact H. reflexivity.
Qed.

Lemma next_is_array_none : next_is_array None = false.
Proof. vm_compute. reflexivity. Qed.

Lemma match_all_path r
    (Hrun : ∀ pre w suf, keyrun w → at_dot pre → at_dot suf →
              exec r (pre, w ++ suf) = Some (rev w ++ pre, suf))
    (Hnone : ∀ c pre suf, is_key c = true → at_dot suf → exec r (c :: pre, suf) = None)
    segs :
  segs ≠ [] → Forall valid_seg segs →
  match_all r (path_text segs) = Some (List.map seg_text segs).
Proof.
  intros Hne Hv. unfold match_all, path_text.
  rewrite list_ascii_of_concat.
  rewrite (match_loop_runs r Hrun Hnone).
  - destruct segs as [|s segs]; [done|]. cbn [List.map]. f_equal.
    rewrite string_of_list_ascii_of_string. f_equal.
    rewrite !List.map_map.
    apply List.map_ext. intros a. apply string_of_list_ascii_of_string.
  - rewrite List.map_map. apply Forall_forall. intros w Hw.
    apply list_elem_of_In, in_map_iff in Hw as (s & <- & Hs).
    apply seg_keyrun. rewrite Forall_forall in Hv. apply Hv, list_elem_of_In, Hs.
  - destruct segs; [done|discriminate].
  - exact I.
  - lia.
Qed.

Lemma match_all_read_path segs :
  segs ≠ [] → Forall valid_seg segs →
  match_all read_re (path_text segs) = Some (List.map seg_text segs).
Proof.
  apply match_all_path.
  - apply exec_read_key.
  - apply exec_read_none.
Qed.

Lemma match_all_write_path segs :
  segs ≠ [] → Forall valid_seg segs →
  match_all write_re (path_text segs) = Some (List.map seg_text segs).
Proof.
  apply match_all_path.
  - intros pre w suf Hw _ Hs. apply exec_write_key; assumption.
  - apply exec_write_none.
Qed.

Lemma path_text_nonempty segs :
  segs ≠ [] → Forall valid_seg segs → String.eqb (path_text segs) "" = false.
Proof.
  intros Hne Hv. apply String.eqb_neq. intros E.
  pose proof (match_all_read_path segs Hne Hv) as H. rewrite E in H.
  vm_compute in H. discriminate H.
Qed.

(** ** Cells and properties *)

#[local] Arguments isArrayKey : simpl never.
#[local] Arguments isIndexKey : simpl never.
#[local] Arguments cleanKeyOf : simpl never.
#[local] Arguments test : simpl never.
#[local] Arguments match_all : simpl never.
#[local] Arguments string_of_Z : simpl never.
#[local] Arguments Z_of_string : simpl never.
#[local] Arguments is_array_index : simpl never.
#[local] Arguments next_is_array : simpl never.
#[local] Arguments array_limit : simpl never.

Lemma cell_at_lookup h l c : h !! l = Some c → cell_at h l = c.
Proof. unfold cell_at. intros ->. reflexivity. Qed.

Lemma cell_at_alloc h c : cell_at (h ++ [c]) (length h) = c.
Proof. apply cell_at_lookup. rewrite lookup_app_r, Nat.sub_diag by lia. reflexivity. Qed.

Lemma cell_at_app h h2 l : l < length h → cell_at (h ++ h2) l = cell_at h l.
Proof. intros H. unfold cell_at. rewrite lookup_app_l by exact H. reflexivity. Qed.

Lemma cell_at_insert h l c : l < length h → cell_at (<[l := c]> h) l = c.
Proof. intros H. apply cell_at_lookup, list_lookup_insert_eq, H. Qed.

Lemma cell_at_insert_ne h l l' c : l ≠ l' → cell_at (<[l := c]> h) l' = cell_at h l'.
Proof. intros H. unfold cell_at. rewrite list_lookup_insert_ne by exact H. reflexivity. Qed.

Lemma prop_get_set k v ps : prop_get k (prop_set k v ps) = Some v.
Proof.
  induction ps as [|[k' v'] ps IH]; cbn.
  - rewrite String.eqb_refl. reflexivity.
  - destruct (String.eqb k' k) eqn:E; cbn; rewrite E; [reflexivity|exact IH].
Qed.

Lemma prop_get_set_ne k k' v ps : k ≠ k' → prop_get k' (prop_set k v ps) = prop_get k' ps.
Proof.
  intros Hne. induction ps as [|[k0 v0] ps IH]; cbn.
  - rewrite (proj2 (String.eqb_neq _ _)) by exact Hne. reflexivity.
  - destruct (String.eqb k0 k) eqn:E; cbn.
    + apply String.eqb_eq in E. subst k0.
      rewrite (proj2 (String.eqb_neq _ _)) by exact Hne. reflexivity.
    + destruct (String.eqb k0 k'); [reflexivity|exact IH].
Qed.

Lemma arr_at_elems_set_fresh i v :
  arr_at (elems_set [] i v) (Z.of_nat i) = v.
Proof.
  unfold elems_set, arr_at. cbn [length Nat.ltb Nat.leb app].
  rewrite Nat.sub_0_r, length_app, length_replicate. cbn [length].
  destruct (Z.ltb_spec (Z.of_nat i) 0); [lia|].
  destruct (Z.ltb_spec (Z.of_nat i) 0); [lia|].
  destruct (Z.leb_spec (Z.of_nat (i + 1)) (Z.of_nat i)); [lia|].
  cbn [orb]. rewrite Nat2Z.id.
  rewrite lookup_app_r by (rewrite length_replicate; lia).
  rewrite length_replicate, Nat.sub_diag. reflexivity.
Qed.

Lemma arr_at_nil z : arr_at [] z = VUndef.
Proof.
  unfold arr_at. cbn [length]. change (Z.of_nat 0) with 0%Z.
  destruct (Z.ltb z 0) eqn:E.
  - apply Z.ltb_lt in E.
    replace (Z.ltb (0 + z) 0) with true by (symmetry; apply Z.ltb_lt; lia). reflexivity.
  - apply Z.ltb_ge in E. rewrite (proj2 (Z.ltb_ge z 0)) by exact E.
    replace (Z.leb 0 z) with true by (symmetry; apply Z.leb_le; lia). reflexivity.
Qed.

Lemma isArray_ref h l : isArray h (VRef l) = match cell_at h l with CArr _ _ => true | CObj _ => false end.
Proof. unfold isArray, elems_of. destruct (cell_at h l); reflexivity. Qed.

Lemma isObject_ref h l : isObject h (VRef l) = match cell_at h l with CObj _ => true | CArr _ _ => false end.
Proof. unfold isObject, props_of. destruct (cell_at h l); reflexivity. Qed.

Lemma isArray_undef h : isArray h VUndef = false.
Proof. reflexivity. Qed.

Lemma isObject_undef h : isObject h VUndef = false.
Proof. reflexivity. Qed.

(** ** Own and inherited properties *)

Lemma member_own obj ps k v h :
  prop_get k ps = Some v → member obj ps k h = (Ok v, h).
Proof. unfold member. intros ->. reflexivity. Qed.

Lemma inherited_none p k h :
  inherited_name k = false → inherited p k h = (Ok VUndef, h).
Proof.
  unfold inherited_name, inherited. intros H. apply orb_false_iff in H as [-> ->].
  reflexivity.
Qed.

Lemma inherited_name_proto k : inherited_name k = false → k ≠ "__proto__".
Proof. intros H ->. discriminate H. Qed.

(** A key that is owned, or that [Object.prototype] does not have, reads
    the own property. *)
Lemma member_get obj ps k h :
  inherited_name k = false ∨ is_Some (prop_get k ps) →
  member obj ps k h = (Ok (default VUndef (prop_get k ps)), h).
Proof.
  intros Hk. unfold member. destruct (prop_get k ps); [reflexivity|].
  destruct Hk as [Hk|[? Hk]]; [|discriminate Hk].
  apply inherited_none, Hk.
Qed.

Lemma member_default obj ps k h :
  inherited_name k = false →
  member obj ps k h = (Ok (default VUndef (prop_get k ps)), h).
Proof. intros H. apply member_get. left. exact H. Qed.

Lemma member_none obj ps k h :
  prop_get k ps = None → inherited_name k = false → member obj ps k h = (Ok VUndef, h).
Proof. intros Hp H. rewrite member_default by exact H. rewrite Hp. reflexivity. Qed.

(** An assignment under a key that is owned, or is not [__proto__], sets
    an own property. *)
Lemma set_prop_own l ps k v h :
  cell_at h l = CObj ps → k ≠ "__proto__" ∨ is_Some (prop_get k ps) →
  set_prop (VRef l) k v h = (Ok tt, <[l := CObj (prop_set k v ps)]> h).
Proof.
  intros Hcell Hk. unfold set_prop, bind, get_heap. rewrite Hcell.
  destruct (prop_get k ps) eqn:E; [reflexivity|].
  destruct Hk as [Hk|[? Hk]]; [|discriminate Hk].
  rewrite (proj2 (String.eqb_neq _ _)) by exact Hk. reflexivity.
Qed.

Lemma owned_or_plain k (ps : list (string * jsval)) :
  inherited_name k = false ∨ is_Some (prop_get k ps) →
  k ≠ "__proto__" ∨ is_Some (prop_get k ps).
Proof. intros [H|H]; [left; apply inherited_name_proto, H|right; exact H]. Qed.

Lemma get_prop_obj l ps k h :
  cell_at h l = CObj ps → inherited_name k = false ∨ is_Some (prop_get k ps) →
  get_prop (VRef l) k h = (Ok (default VUndef (prop_get k ps)), h).
Proof.
  intros Hcell Hk. unfold get_prop, bind, get_heap. rewrite Hcell.
  apply member_get, Hk.
Qed.

(** ** Single steps of the two reductions on fresh containers *)

(** Running a computation one primitive at a time. *)
Lemma run_bind_assoc {A B C} (m : M A) (f : A → M B) (g : B → M C) h :
  bind (bind m f) g h = bind m (λ x, bind (f x) g) h.
Proof. unfold bind. destruct (m h) as [[a|e| |] h']; reflexivity. Qed.

Lemma run_ret {A B} (a : A) (f : A → M B) h : bind (ret a) f h = f a h.
Proof. reflexivity. Qed.

Lemma run_get_heap {B} (f : heap → M B) h : bind get_heap f h = f h h.
Proof. reflexivity. Qed.

Lemma run_alloc {B} c (f : jsval → M B) h :
  bind (alloc c) f h = f (VRef (length h)) (h ++ [c]).
Proof. reflexivity. Qed.

Lemma run_put_cell {B} l c (f : unit → M B) h :
  bind (put_cell l c) f h = f tt (<[l := c]> h).
Proof. reflexivity. Qed.

Lemma run_throw {A B} e (f : A → M B) h : bind (throw e) f h = (Throw e, h).
Proof. reflexivity. Qed.

Lemma run_out_of_fuel {A B} (f : A → M B) h : bind out_of_fuel f h = (OutOfFuel, h).
Proof. reflexivity. Qed.

Lemma run_unmodelled {A B} (f : A → M B) h : bind unmodelled f h = (Unmodelled, h).
Proof. reflexivity. Qed.

Lemma run_ok {A B} (m : M A) (f : A → M B) h a h' :
  m h = (Ok a, h') → bind m f h = f a h'.
Proof. unfold bind. intros ->. reflexivity. Qed.

Lemma end_ret {A} (a : A) h : ret a h = (Ok a, h).
Proof. reflexivity. Qed.

Lemma end_get_heap h : get_heap h = (Ok h, h).
Proof. reflexivity. Qed.

Lemma end_alloc c h : alloc c h = (Ok (VRef (length h)), h ++ [c]).
Proof. reflexivity. Qed.

Lemma end_put_cell l c h : put_cell l c h = (Ok tt, <[l := c]> h).
Proof. reflexivity. Qed.

Lemma end_throw {A} e h : @throw A e h = (Throw e, h).
Proof. reflexivity. Qed.

Create Rewrite HintDb mon.
#[local] Hint Rewrite @run_bind_assoc @run_ret @run_get_heap @run_alloc @run_put_cell
  @run_throw @run_out_of_fuel @run_unmodelled @end_ret end_get_heap end_alloc end_put_cell @end_throw : mon.

Ltac mrun := repeat (autorewrite with mon; cbn beta iota).

Lemma write_step_fresh rec v s next h cur :
  valid_seg s → valid_seg next → inherited_name (seg_text s) = false →
  cur < length h → cell_at h cur = container_for s →
  write_step rec v (VRef cur) (seg_text s) (Some (seg_text next)) h =
    (Ok (VRef (length h)),
     <[cur := slot_for s (VRef (length h))]> (h ++ [container_for next])).
Proof.
  intros Hs Hn Hk Hcur Hcell. unfold write_step.
  rewrite (seg_isArrayKey s), (seg_isIndexKey s), (seg_cleanKey s) by exact Hs.
  assert (cell_at (h ++ [container_for next]) cur = container_for s) as Hcell'.
  { rewrite cell_at_app by exact Hcur. exact Hcell. }
  assert (cur < length (h ++ [container_for next])) as Hcur'.
  { rewrite length_app. lia. }
  destruct s as [k|i]; cbn [is_key_seg negb orb].
  - unfold getNextValue, shouldUpdate. cbn [seg_text] in *.
    unfold container_for in Hcell, Hcell'. cbn [is_key_seg] in Hcell, Hcell'.
    mrun. rewrite isArray_ref, Hcell.
    pose proof (inherited_name_proto _ Hk) as Hnp.
    rewrite (run_ok _ _ _ _ _ (get_prop_obj cur [] k h Hcell (or_introl Hk))).
    cbn [prop_get default]. mrun.
    rewrite next_is_array_seg by exact Hn.
    rewrite isArray_undef, isObject_undef.
    unfold container_for.
    destruct (is_key_seg next); cbn [negb]; mrun;
      rewrite ?isArray_undef, ?isObject_undef; mrun;
      rewrite (run_ok _ _ _ _ _ (set_prop_own cur [] k _ _ Hcell' (or_introl Hnp)));
      (erewrite get_prop_obj
         by first [left; exact Hk | apply cell_at_insert; rewrite length_app; lia]);
      cbn [prop_set slot_for prop_get default];
      rewrite String.eqb_refl; reflexivity.
  - unfold call_at, set_prop, getNextValue, shouldUpdate. cbn [seg_text].
    rewrite isIndexKey_string_of_Z.
    rewrite (proj2 (String.eqb_neq _ _)).
    2:{ intros E. pose proof (isIndexKey_string_of_Z (Z.of_nat i)) as H.
        rewrite E in H. vm_compute in H. discriminate H. }
    rewrite Z_of_string_of_Z.
    rewrite negindex_digits by (apply string_of_Z_nonneg; lia).
    rewrite is_array_index_of_nat by exact Hs.
    mrun. unfold elems_of. rewrite Hcell. cbn [container_for is_key_seg]. mrun.
    rewrite arr_at_nil.
    rewrite next_is_array_seg by exact Hn.
    rewrite isArray_undef, isObject_undef.
    unfold container_for in *. cbn [is_key_seg] in Hcell'.
    destruct (is_key_seg next); cbn [negb]; mrun;
      rewrite ?isArray_undef, ?isObject_undef; mrun; rewrite Hcell';
      cbn [container_for is_key_seg]; mrun;
      rewrite cell_at_insert by exact Hcur'; rewrite Nat2Z.id;
      rewrite arr_at_elems_set_fresh; reflexivity.
Qed.

Lemma write_step_fresh_last rec v s h cur :
  valid_seg s → inherited_name (seg_text s) = false →
  cur < length h → cell_at h cur = container_for s →
  write_step rec v (VRef cur) (seg_text s) None h =
    (Ok (nullish v), <[cur := slot_for s (nullish v)]> h).
Proof.
  intros Hs Hk Hcur Hcell. unfold write_step.
  rewrite (seg_isArrayKey s), (seg_isIndexKey s), (seg_cleanKey s) by exact Hs.
  destruct s as [k|i]; cbn [is_key_seg negb orb].
  - unfold getNextValue, shouldUpdate. cbn [seg_text] in *.
    unfold container_for in Hcell. cbn [is_key_seg] in Hcell.
    mrun. rewrite isArray_ref, Hcell.
    pose proof (inherited_name_proto _ Hk) as Hnp.
    rewrite (run_ok _ _ _ _ _ (get_prop_obj cur [] k h Hcell (or_introl Hk))).
    cbn [prop_get default]. mrun.
    rewrite next_is_array_none, isObject_undef. cbn [negb]. mrun.
    rewrite (run_ok _ _ _ _ _ (set_prop_own cur [] k _ _ Hcell (or_introl Hnp))).
    rewrite (get_prop_obj cur _ k _ (cell_at_insert _ cur _ Hcur) (or_introl Hk)).
    cbn [prop_set slot_for prop_get default].
    rewrite String.eqb_refl. reflexivity.
  - unfold call_at, set_prop, getNextValue, shouldUpdate. cbn [seg_text].
    rewrite isIndexKey_string_of_Z.
    rewrite (proj2 (String.eqb_neq _ _)).
    2:{ intros E. pose proof (isIndexKey_string_of_Z (Z.of_nat i)) as H.
        rewrite E in H. vm_compute in H. discriminate H. }
    rewrite Z_of_string_of_Z.
    rewrite negindex_digits by (apply string_of_Z_nonneg; lia).
    rewrite is_array_index_of_nat by exact Hs.
    mrun. unfold elems_of. rewrite Hcell. cbn [container_for is_key_seg]. mrun.
    rewrite arr_at_nil.
    rewrite next_is_array_none, isObject_undef. cbn [negb]. mrun.
    rewrite Hcell. cbn [container_for is_key_seg]. mrun.
    rewrite cell_at_insert by exact Hcur. rewrite Nat2Z.id.
    rewrite arr_at_elems_set_fresh. reflexivity.
Qed.

Lemma read_step_slot rec s v h cur :
  valid_seg s → cell_at h cur = slot_for s v →
  read_step rec (VRef cur) (seg_text s) h = (Ok v, h).
Proof.
  intros Hs Hcell. unfold read_step.
  destruct (keyrun_not_trivial _ (seg_keyrun s Hs)) as [-> ->].
  rewrite (seg_isArrayKey s), (seg_isIndexKey s), (seg_cleanKey s) by exact Hs.
  destruct s as [k|i]; cbn [is_key_seg negb orb].
  - mrun. unfold props_of. rewrite Hcell. cbn [slot_for seg_text].
    apply member_own. cbn [prop_get]. rewrite String.eqb_refl. reflexivity.
  - cbn [seg_text]. rewrite isIndexKey_string_of_Z.
    rewrite (proj2 (String.eqb_neq _ _)).
    2:{ intros E. pose proof (isIndexKey_string_of_Z (Z.of_nat i)) as H.
        rewrite E in H. vm_compute in H. discriminate H. }
    rewrite Z_of_string_of_Z.
    mrun. unfold elems_of. rewrite Hcell. cbn [slot_for]. mrun.
    rewrite arr_at_elems_set_fresh. reflexivity.
Qed.

(** ** Writing a path into a fresh container and reading it back *)

Lemma write_read_fresh rec rrec v : ∀ segs h cur s,
  Forall valid_seg (s :: segs) → no_inherited (s :: segs) →
  cur < length h → cell_at h cur = container_for s →
  ∃ h' last,
    write_segs rec v (List.map seg_text (s :: segs)) (VRef cur) h = (Ok last, h')
    ∧ reduce (read_step rrec) (List.map seg_text (s :: segs)) (VRef cur) h' = (Ok (nullish v), h')
    ∧ length h ≤ length h'
    ∧ (∀ l, l < length h → l ≠ cur → h' !! l = h !! l).
Proof.
  induction segs as [|s2 segs IH]; intros h cur s Hv Hpf Hcur Hcell;
    inversion Hv as [|? ? Hs Hv']; subst;
    inversion Hpf as [|? ? Hps Hpf']; subst.
  - exists (<[cur := slot_for s (nullish v)]> h), (nullish v).
    cbn [List.map write_segs reduce head].
    rewrite (run_ok _ _ _ _ _ (write_step_fresh_last rec v s h cur Hs Hps Hcur Hcell)).
    rewrite (run_ok _ _ _ _ _ (read_step_slot rrec s (nullish v) _ cur Hs
               (cell_at_insert h cur _ Hcur))).
    repeat split; try reflexivity.
    + rewrite length_insert. lia.
    + intros l _ Hl. apply list_lookup_insert_ne. congruence.
  - inversion Hv' as [|? ? Hs2 _]; subst.
    set (h1 := <[cur := slot_for s (VRef (length h))]> (h ++ [container_for s2])).
    assert (length h1 = S (length h)) as Hlen.
    { unfold h1. rewrite length_insert, length_app. cbn. lia. }
    destruct (IH h1 (length h) s2 Hv' Hpf') as (h' & last & Hw & Hr & Hle & Hframe).
    { lia. }
    { unfold h1. rewrite cell_at_insert_ne by lia. apply cell_at_alloc. }
    exists h', last. cbn [List.map write_segs reduce head] in *.
    rewrite (run_ok _ _ _ _ _ (write_step_fresh rec v s s2 h cur Hs Hs2 Hps Hcur Hcell)).
    fold h1. split; [exact Hw|].
    assert (cell_at h' cur = slot_for s (VRef (length h))) as Hc.
    { apply cell_at_lookup. rewrite Hframe by lia.
      unfold h1. apply list_lookup_insert_eq. rewrite length_app. lia. }
    rewrite (run_ok _ _ _ _ _ (read_step_slot rrec s _ h' cur Hs Hc)).
    split; [exact Hr|]. split; [lia|].
    intros l Hl Hne. rewrite Hframe by lia.
    unfold h1. rewrite list_lookup_insert_ne by congruence.
    apply lookup_app_l. exact Hl.
Qed.

Lemma read_step_undef rec s h :
  valid_seg s → read_step rec VUndef (seg_text s) h = (Ok VUndef, h).
Proof.
  intros Hs. unfold read_step.
  destruct (keyrun_not_trivial _ (seg_keyrun s Hs)) as [-> ->].
  rewrite (seg_isArrayKey s), (seg_isIndexKey s) by exact Hs.
  destruct s; cbn [is_key_seg negb orb]; mrun; reflexivity.
Qed.

Lemma read_undef rec segs h :
  Forall valid_seg segs →
  reduce (read_step rec) (List.map seg_text segs) VUndef h = (Ok VUndef, h).
Proof.
  induction 1 as [|s segs Hs _ IH]; [reflexivity|].
  cbn [List.map reduce]. rewrite (run_ok _ _ _ _ _ (read_step_undef rec s h Hs)). exact IH.
Qed.

(** A segment that is a key or an index reads without a change of the
    heap. *)
Lemma read_step_valid rec s cur h :
  valid_seg s → inherited_name (seg_text s) = false →
  ∃ r, read_step rec cur (seg_text s) h = (Ok r, h).
Proof.
  intros Hs Hk. unfold read_step.
  destruct (keyrun_not_trivial _ (seg_keyrun s Hs)) as [-> ->].
  rewrite (seg_isArrayKey s), (seg_isIndexKey s), (seg_cleanKey s) by exact Hs.
  destruct s as [k|i]; cbn [is_key_seg negb orb].
  - mrun. destruct (props_of h cur); [|eexists; reflexivity].
    rewrite member_default by exact Hk. eexists. reflexivity.
  - cbn [seg_text]. rewrite isIndexKey_string_of_Z.
    rewrite (proj2 (String.eqb_neq _ _)).
    2:{ intros E. pose proof (isIndexKey_string_of_Z (Z.of_nat i)) as H.
        rewrite E in H. vm_compute in H. discriminate H. }
    mrun. destruct (elems_of h cur); eexists; reflexivity.
Qed.

Lemma read_segs_valid rec : ∀ segs cur h,
  Forall valid_seg segs → no_inherited segs →
  ∃ r, reduce (read_step rec) (List.map seg_text segs) cur h = (Ok r, h).
Proof.
  induction segs as [|s segs IH]; intros cur h Hv Hpf; [eexists; reflexivity|].
  inversion Hv as [|? ? Hs Hv']; subst.
  inversion Hpf as [|? ? Hk Hpf']; subst. cbn [List.map reduce].
  destruct (read_step_valid rec s cur h Hs Hk) as (r & Hr).
  rewrite (run_ok _ _ _ _ _ Hr). apply IH; assumption.
Qed.

Lemma frame_take (h h' : heap) :
  length h ≤ length h' → (∀ l, l < length h → h' !! l = h !! l) → take (length h) h' = h.
Proof.
  intros Hle H. apply list_eq. intros l.
  destruct (Nat.lt_ge_cases l (length h)) as [Hl|Hl].
  - rewrite lookup_take_lt by exact Hl. apply H, Hl.
  - rewrite lookup_take_ge by exact Hl. symmetry. apply lookup_ge_None. exact Hl.
Qed.

(** Writing any value along a key/index path into a fresh object and
    reading the path back gives [value ?? undefined]; the cells that
    existed before are untouched. *)
Lemma write_read_fresh_object n h segs v :
  valid_path segs → no_inherited segs →
  let root := VRef (length h) in
  ∃ h2,
    writeValue (S n) root (VStr (path_text segs)) v (h ++ [CObj []]) = (Ok root, h2)
    ∧ readValue root (VStr (path_text segs)) h2 = (Ok (nullish v), h2)
    ∧ take (length h) h2 = h.
Proof.
  intros Hp Hpf root. destruct segs as [|[k|] segs]; try done. cbn [valid_path] in Hp.
  set (p := PKey k :: segs) in *.
  assert (p ≠ []) as Hne by done.
  assert (cell_at (h ++ [CObj []]) (length h) = CObj []) as Hroot by apply cell_at_alloc.
  (* the path read before the write: what decides whether [undefined] is written *)
  assert (∃ r, readValue root (VStr (path_text p)) (h ++ [CObj []])
               = (Ok r, h ++ [CObj []])) as (r & Hr0).
  { unfold readValue. cbn [readValue_aux].
    rewrite path_text_nonempty, match_all_read_path by assumption.
    apply read_segs_valid; [exact Hp|exact Hpf]. }
  (* the write itself *)
  assert (∃ h2,
            (match match_all write_re (path_text p) with
             | Some segments => write_segs (writeValue n) v segments root ;; ret root
             | None => ret root
             end) (h ++ [CObj []]) = (Ok root, h2)
            ∧ readValue root (VStr (path_text p)) h2 = (Ok (nullish v), h2)
            ∧ take (length h) h2 = h) as Hwrite.
  { rewrite match_all_write_path by assumption.
    destruct (write_read_fresh (writeValue n) (readValue_aux 1) v segs (h ++ [CObj []])
                (length h) (PKey k) Hp Hpf) as (h2 & last & Hw & Hr & Hle & Hframe).
    { rewrite length_app. cbn. lia. }
    { exact Hroot. }
    exists h2. fold p in Hw, Hr. rewrite (run_ok _ _ _ _ _ Hw). mrun.
    split; [reflexivity|]. split.
    + unfold readValue. cbn [readValue_aux].
      rewrite path_text_nonempty, match_all_read_path by assumption. exact Hr.
    + rewrite length_app in Hle, Hframe. cbn [length] in Hle, Hframe.
      apply frame_take; [lia|].
      intros l Hl. rewrite Hframe by lia. apply lookup_app_l, Hl. }
  cbn [writeValue]. destruct (isUndefined v) eqn:Hv.
  - mrun. rewrite (run_ok _ _ _ _ _ Hr0). mrun.
    destruct (isUndefined r) eqn:Hr; [|exact Hwrite].
    destruct v; try discriminate Hv. destruct r; try discriminate Hr.
    exists (h ++ [CObj []]). repeat split; auto.
    rewrite take_app_length. reflexivity.
  - mrun. exact Hwrite.
Qed.

(** ** Overwriting below existing plain objects *)

Lemma write_step_descend rec v s next h cur ps e :
  valid_seg s → is_key_seg s = true → valid_seg next → is_key_seg next = true →
  cell_at h cur = CObj ps → prop_get (seg_text s) ps = Some e → isObject h e = true →
  write_step rec v (VRef cur) (seg_text s) (Some (seg_text next)) h = (Ok e, h).
Proof.
  intros Hs Hks Hn Hkn Hcell Hget Hobj. unfold write_step.
  rewrite (seg_isArrayKey s), (seg_isIndexKey s), Hks by exact Hs.
  cbn [negb orb]. unfold shouldUpdate. mrun.
  rewrite isArray_ref, Hcell.
  rewrite (run_ok _ _ _ _ _ (get_prop_obj cur ps _ h Hcell
                               (or_intror (ex_intro _ e Hget)))).
  rewrite Hget. cbn [default from_option id]. mrun.
  rewrite next_is_array_seg, Hkn, Hobj by exact Hn. cbn [negb].
  rewrite bool_decide_eq_false_2 by discriminate. mrun.
  rewrite (get_prop_obj cur ps _ h Hcell (or_intror (ex_intro _ e Hget))), Hget.
  reflexivity.
Qed.

Lemma write_step_overwrite rec v s h cur ps e :
  valid_seg s → is_key_seg s = true →
  cell_at h cur = CObj ps → cur < length h →
  prop_get (seg_text s) ps = Some e → isObject h e = true →
  write_step rec v (VRef cur) (seg_text s) None h =
    (Ok v, <[cur := CObj (prop_set (seg_text s) v ps)]> h).
Proof.
  intros Hs Hks Hcell Hcur Hget Hobj. unfold write_step.
  rewrite (seg_isArrayKey s), (seg_isIndexKey s), Hks by exact Hs.
  cbn [negb orb]. unfold shouldUpdate. mrun.
  rewrite isArray_ref, Hcell.
  rewrite (run_ok _ _ _ _ _ (get_prop_obj cur ps _ h Hcell
                               (or_intror (ex_intro _ e Hget)))).
  rewrite Hget. cbn [default from_option id]. mrun.
  rewrite next_is_array_none, Hobj. cbn [negb].
  rewrite bool_decide_eq_true_2 by reflexivity.
  rewrite (run_ok _ _ _ _ _ (set_prop_own cur ps _ v h Hcell
                               (or_intror (ex_intro _ e Hget)))).
  rewrite (get_prop_obj cur _ _ _ (cell_at_insert h cur _ Hcur)
             (or_intror (ex_intro _ _ (prop_get_set _ _ _)))).
  rewrite prop_get_set. reflexivity.
Qed.

Lemma write_segs_overwrite rec v : ∀ segs h cur last p ps e,
  Forall valid_seg (segs ++ [last]) →
  Forall (λ s, is_key_seg s = true) (segs ++ [last]) →
  walk h cur (List.map seg_text segs) = Some (VRef p) →
  isObject h cur = true →
  cell_at h p = CObj ps → p < length h →
  prop_get (seg_text last) ps = Some e → isObject h e = true →
  write_segs rec v (List.map seg_text (segs ++ [last])) cur h =
    (Ok v, <[p := CObj (prop_set (seg_text last) v ps)]> h).
Proof.
  induction segs as [|s segs IH]; intros h cur last p ps e Hv Hk Hwalk Hcur Hcell Hp Hget Hobj.
  - cbn in Hwalk. injection Hwalk as ->.
    inversion Hv; subst. inversion Hk; subst.
    cbn [app List.map write_segs head].
    erewrite run_ok by (eapply write_step_overwrite; eauto). reflexivity.
  - cbn [app] in Hv, Hk. inversion Hv as [|? ? Hs Hv']; subst.
    inversion Hk as [|? ? Hks Hk']; subst.
    cbn [List.map walk] in Hwalk.
    destruct cur as [| | | | |c|[]]; try discriminate Hcur;
      [|discriminate Hwalk].
    destruct (props_of h (VRef c)) as [cps|] eqn:Hcps; [|discriminate].
    destruct (prop_get (seg_text s) cps) as [child|] eqn:Hchild; [|discriminate].
    destruct (isObject h child) eqn:Hco; [|discriminate].
    assert (cell_at h c = CObj cps) as Hcc.
    { unfold props_of in Hcps. destruct (cell_at h c); congruence. }
    assert (∃ next, head (List.map seg_text (segs ++ [last])) = Some (seg_text next)
                    ∧ valid_seg next ∧ is_key_seg next = true) as (next & Hhd & Hnv & Hnk).
    { destruct segs as [|s' segs']; cbn [app List.map head].
      - exists last. inversion Hv'; inversion Hk'; subst. auto.
      - exists s'. inversion Hv'; inversion Hk'; subst. auto. }
    cbn [app List.map write_segs]. rewrite Hhd.
    erewrite run_ok by (eapply write_step_descend; eauto).
    eapply IH; eauto.
Qed.

Lemma key_path_valid segs : key_path segs → valid_path segs.
Proof.
  intros (Hne & Hv & Hk). destruct segs as [|[k|i] segs]; [done|exact Hv|].
  inversion Hk as [|? ? H _]; subst. discriminate H.
Qed.

Lemma nullish_id v : v ≠ VNull → nullish v = v.
Proof. destruct v; cbn; congruence. Qed.

Lemma round_trip_fresh n h segs v :
  valid_path segs → no_inherited segs →
  ∃ h', run (round_trip (S n) (path_text segs) v) h = (Ok (nullish v), h')
        ∧ take (length h) h' = h.
Proof.
  intros Hp Hpf.
  destruct (write_read_fresh_object n h segs v Hp Hpf) as (h2 & Hw & Hr & Hf).
  exists h2. split; [|exact Hf].
  unfold run, round_trip. mrun. rewrite (run_ok _ _ _ _ _ Hw). exact Hr.
Qed.

(** ** Reading an array at a decimal index *)

Lemma match_all_read_single (s : string) :
  keyrun (list_ascii_of_string s) → match_all read_re s = Some [s].
Proof.
  intros Hk. unfold match_all.
  pose proof (match_loop_runs read_re exec_read_key exec_read_none
                [list_ascii_of_string s] (S (length (list_ascii_of_string s))) []) as H.
  cbn [join_dots] in H. rewrite H.
  - cbn [List.map]. rewrite string_of_list_ascii_of_string. reflexivity.
  - constructor; [exact Hk|constructor].
  - discriminate.
  - exact I.
  - lia.
Qed.

Lemma string_of_Z_keyrun z : keyrun (list_ascii_of_string (string_of_Z z)).
Proof.
  destruct (Z.lt_ge_cases z 0) as [Hz|Hz].
  - destruct (string_of_Z_neg z Hz) as (w & -> & Hne & Hw). split; [discriminate|].
    constructor; [reflexivity|].
    eapply Forall_impl; [exact Hw|]. intros c. apply is_digit_is_key.
  - apply digits_keyrun, string_of_Z_nonneg, Hz.
Qed.

Lemma readValue_index h l es ex z :
  cell_at h l = CArr es ex →
  readValue (VRef l) (VStr (string_of_Z z)) h = (Ok (arr_at es z), h).
Proof.
  intros Hcell. unfold readValue. cbn [readValue_aux].
  pose proof (string_of_Z_keyrun z) as Hk.
  destruct (keyrun_not_trivial _ Hk) as [E1 E2]. rewrite E1.
  rewrite match_all_read_single by exact Hk.
  cbn [reduce]. unfold read_step. rewrite E1, E2.
  rewrite isIndexKey_string_of_Z, orb_true_r.
  rewrite cleanKeyOf_bracket_free by (apply keyrun_bracket_free, Hk).
  rewrite E1, isIndexKey_string_of_Z, Z_of_string_of_Z.
  mrun. unfold elems_of. rewrite Hcell. reflexivity.
Qed.

Lemma arr_at_from_end es (k : nat) :
  k < length es →
  arr_at es (-1 - Z.of_nat k) = arr_at es (Z.of_nat (length es) - 1 - Z.of_nat k).
Proof.
  intros Hk. unfold arr_at.
  rewrite (proj2 (Z.ltb_lt (-1 - Z.of_nat k) 0)) by lia.
  rewrite (proj2 (Z.ltb_ge (Z.of_nat (length es) - 1 - Z.of_nat k) 0)) by lia.
  replace (Z.of_nat (length es) + (-1 - Z.of_nat k))%Z
    with (Z.of_nat (length es) - 1 - Z.of_nat k)%Z by lia.
  reflexivity.
Qed.

(** ** Array operations on a root that is no array *)

Lemma getNextValue_ok v nk e h :
  ∃ x h', getNextValue v nk e h = (Ok x, h')
          ∧ (∀ l, l < length h → cell_at h' l = cell_at h l).
Proof.
  unfold getNextValue. destruct nk as [k|]; mrun.
  - destruct (next_is_array (Some k)).
    + destruct (isArray h e); mrun; eexists _, _; (split; [reflexivity|]); auto.
      intros l Hl. apply cell_at_app, Hl.
    + destruct (isObject h e); mrun; eexists _, _; (split; [reflexivity|]); auto.
      intros l Hl. apply cell_at_app, Hl.
  - eexists _, _. split; [reflexivity|]. auto.
Qed.

Lemma isArray_false_stable h h' root :
  (∀ l, root = VRef l → l < length h) →
  (∀ l, l < length h → cell_at h' l = cell_at h l) →
  isArray h root = false → elems_of h' root = None.
Proof.
  intros Hroot Hsame Harr. destruct root as [| | | | |l|]; try reflexivity.
  unfold elems_of. rewrite Hsame by (apply Hroot; reflexivity).
  rewrite isArray_ref in Harr. destruct (cell_at h l); [reflexivity|discriminate].
Qed.

Lemma str_at_prim s z h :
  isArray h (str_at s z) = false ∧ isObject h (str_at s z) = false.
Proof.
  unfold str_at. destruct (_ || _)%bool; [split; reflexivity|].
  destruct (_ !! _); split; reflexivity.
Qed.

Lemma push_now_non_array {B} obj vs (f : unit → M B) h :
  elems_of h obj = None → bind (push_now obj vs) f h = (Throw TypeError, h).
Proof.
  intros Hn. unfold push_now. mrun. destruct obj as [| | | | |l|]; mrun; try reflexivity.
  unfold elems_of in Hn. destruct (cell_at h l); [|discriminate Hn]. mrun. reflexivity.
Qed.

Lemma write_step_non_array rec v root key nextKey h :
  isArrayKey key || isIndexKey key = true →
  (cleanKeyOf key = "" ∨ isIndexKey (cleanKeyOf key) = true) →
  isArray h root = false →
  (∀ l, root = VRef l → l < length h) →
  (∀ s, root = VStr s → cleanKeyOf key = "" ∨ test negindex_re (cleanKeyOf key) = true) →
  ∃ h', write_step rec v root key nextKey h = (Throw TypeError, h').
Proof.
  intros Hkey Hclean Harr Hroot Hstr. unfold write_step. rewrite Hkey.
  destruct (String.eqb_spec (cleanKeyOf key) "") as [E|E].
  - unfold call_push.
    destruct (getNextValue_ok v nextKey VUndef h) as (x & h' & Hg & Hsame).
    pose proof (isArray_false_stable h h' root Hroot Hsame Harr) as Hn.
    destruct root as [| | | | |l|]; mrun; try (eexists; reflexivity);
      rewrite (run_ok _ _ _ _ _ Hg); rewrite (push_now_non_array _ _ _ _ Hn);
      eexists; reflexivity.
  - destruct Hclean as [Hc|Hc]; [contradiction|]. rewrite Hc.
    unfold call_at at 1. mrun.
    destruct root as [| | | |s|l|]; mrun; try (eexists; reflexivity).
    + destruct (Hstr s eq_refl) as [Hs|Hs]; [contradiction|]. rewrite Hs.
      assert (shouldUpdate h nextKey (str_at s (Z_of_string (cleanKeyOf key))) = true) as ->.
      { unfold shouldUpdate.
        destruct (str_at_prim s (Z_of_string (cleanKeyOf key)) h) as [-> ->].
        destruct (next_is_array nextKey); reflexivity. }
      destruct (getNextValue_ok v nextKey (str_at s (Z_of_string (cleanKeyOf key))) h)
        as (x & h' & Hg & _).
      mrun. rewrite (run_ok _ _ _ _ _ Hg). unfold call_splice. mrun. eexists; reflexivity.
    + pose proof (isArray_false_stable h h (VRef l) Hroot (λ _ _, eq_refl) Harr) as Hn.
      rewrite Hn. mrun. eexists; reflexivity.
Qed.

(** ** Soundness of the matcher *)

Lemma star_loop_sound a k
    (IHa : ∀ pre suf k res, rmatch true a (pre, suf) k = Some res →
             ∃ w suf', suf = w ++ suf' ∧ lang a w ∧ k (rev w ++ pre, suf') = Some res) :
  ∀ n pre suf res,
    star_loop (rmatch true a) k n (pre, suf) = Some res →
    ∃ w suf', suf = w ++ suf' ∧ lang (RStar a) w ∧ k (rev w ++ pre, suf') = Some res.
Proof.
  induction n as [|n IHn]; intros pre suf res H; rewrite star_loop_eq in H.
  - destruct (rmatch true a (pre, suf) _) eqn:E.
    + apply IHa in E as (w & suf' & _ & _ & Hk).
      destruct (Nat.eqb _ _); discriminate Hk.
    + exists [], suf. repeat split; [|exact H]. exists []. split; [reflexivity|constructor].
  - destruct (rmatch true a (pre, suf) _) eqn:E.
    + injection H as <-.
      apply IHa in E as (w1 & suf1 & -> & Hw1 & Hk).
      destruct (Nat.eqb _ _); [discriminate Hk|].
      apply IHn in Hk as (w2 & suf2 & -> & (ws & -> & Hws) & Hk).
      exists (w1 ++ concat ws), suf2. split; [rewrite app_assoc; reflexivity|]. split.
      * exists (w1 :: ws). split; [reflexivity|]. constructor; assumption.
      * rewrite rev_app_distr, <- app_assoc. exact Hk.
    + exists [], suf. repeat split; [|exact H]. exists []. split; [reflexivity|constructor].
Qed.

Lemma rmatch_sound r : ∀ pre suf k res,
  rmatch true r (pre, suf) k = Some res →
  ∃ w suf', suf = w ++ suf' ∧ lang r w ∧ k (rev w ++ pre, suf') = Some res.
Proof.
  induction r as [p| |a IHa b IHb|a IHa b IHb|a IHa| | |a IHa|a IHa];
    intros pre suf k res H.
  - destruct suf as [|c suf]; [rewrite rmatch_char_nil in H; discriminate H|].
    rewrite rmatch_char_cons in H. destruct (p c) eqn:Hp; [|discriminate H].
    exists [c], suf. repeat split; [|exact H]. exists c. auto.
  - rewrite rmatch_eps in H. exists [], suf. repeat split; first [reflexivity|exact H].
  - rewrite rmatch_seq in H.
    apply IHa in H as (w1 & suf1 & -> & Hw1 & H).
    apply IHb in H as (w2 & suf2 & -> & Hw2 & H).
    exists (w1 ++ w2), suf2. split; [rewrite app_assoc; reflexivity|]. split.
    + exists w1, w2. repeat split; auto.
    + rewrite rev_app_distr, <- app_assoc. exact H.
  - rewrite rmatch_alt in H. destruct (rmatch true a (pre, suf) k) eqn:E.
    + injection H as <-. apply IHa in E as (w & suf' & -> & Hw & Hk).
      exists w, suf'. cbn [lang]. repeat split; auto.
    + apply IHb in H as (w & suf' & -> & Hw & Hk).
      exists w, suf'. cbn [lang]. repeat split; auto.
  - rewrite rmatch_star in H. eapply star_loop_sound; eauto.
  - destruct pre; [rewrite rmatch_bol_nil in H|rewrite rmatch_bol_cons in H; discriminate H].
    exists [], suf. repeat split; first [reflexivity|exact H].
  - destruct suf; [rewrite rmatch_eol_nil in H|rewrite rmatch_eol_cons in H; discriminate H].
    exists [], []. repeat split; first [reflexivity|exact H].
  - rewrite rmatch_ahead in H. destruct (rmatch true a _ _); [|discriminate H].
    exists [], suf. repeat split; first [reflexivity|exact H].
  - rewrite rmatch_behind in H. destruct (rmatch false a _ _); [|discriminate H].
    exists [], suf. repeat split; first [reflexivity|exact H].
Qed.

Lemma exec_sound r pre suf st :
  exec r (pre, suf) = Some st →
  ∃ w suf', suf = w ++ suf' ∧ lang r w ∧ st = (rev w ++ pre, suf').
Proof.
  intros H. apply rmatch_sound in H as (w & suf' & -> & Hw & [= <-]). eauto.
Qed.

Lemma lang_alphabet r : ∀ w, lang r w → Forall (λ c, alphabet r c = true) w.
Proof.
  induction r as [p| |a IHa b IHb|a IHa b IHb|a IHa| | |a IHa|a IHa]; intros w H;
    cbn [lang alphabet] in *; try (subst w; constructor).
  - destruct H as (c & -> & Hc). repeat constructor. exact Hc.
  - destruct H as (w1 & w2 & -> & H1 & H2). apply Forall_app. split.
    + eapply Forall_impl; [apply IHa, H1|]. cbn. intros c ->. reflexivity.
    + eapply Forall_impl; [apply IHb, H2|]. cbn. intros c ->. apply orb_true_r.
  - destruct H as [H|H].
    + eapply Forall_impl; [apply IHa, H|]. cbn. intros c ->. reflexivity.
    + eapply Forall_impl; [apply IHb, H|]. cbn. intros c ->. apply orb_true_r.
  - destruct H as (ws & -> & Hws). induction Hws as [|w ws Hw _ IH]; [constructor|].
    cbn [concat]. apply Forall_app. split; [apply IHa, Hw|exact IH].
Qed.

Lemma lang_minlen r : ∀ w, lang r w → minlen r ≤ length w.
Proof.
  induction r as [p| |a IHa b IHb|a IHa b IHb|a IHa| | |a IHa|a IHa]; intros w H;
    cbn [lang minlen] in *; try lia.
  - destruct H as (c & -> & _). cbn. lia.
  - destruct H as (w1 & w2 & -> & H1 & H2). rewrite length_app.
    apply IHa in H1. apply IHb in H2. lia.
  - destruct H as [H|H]; [apply IHa in H|apply IHb in H]; lia.
Qed.

(** Every match of a global search is a word of the pattern and a piece
    of the subject. *)
Lemma match_loop_sound r : ∀ n pre suf m,
  m ∈ match_loop r n (pre, suf) →
  lang r m ∧ ∃ a b, suf = a ++ m ++ b.
Proof.
  induction n as [|n IH]; intros pre suf m Hm; cbn [match_loop] in Hm.
  - apply elem_of_nil in Hm. done.
  - assert (∀ st1, advance (pre, suf) = Some st1 → m ∈ match_loop r n st1 →
              lang r m ∧ ∃ a b, suf = a ++ m ++ b) as Hadv.
    { intros [pre1 suf1] Ha Hin. unfold advance in Ha. cbn [fst snd] in Ha.
      destruct suf as [|c suf]; [discriminate Ha|]. injection Ha as <- <-.
      apply IH in Hin as (Hl & a & b & ->). split; [exact Hl|].
      exists (c :: a), b. reflexivity. }
    destruct (exec r (pre, suf)) as [st'|] eqn:E.
    + apply exec_sound in E as (w & suf' & -> & Hw & ->).
      rewrite matched_run in Hm. apply elem_of_cons in Hm as [->|Hm].
      * split; [exact Hw|]. exists [], suf'. reflexivity.
      * destruct (Nat.eqb _ _).
        -- destruct (advance (pre, w ++ suf')) eqn:Ea; [|apply elem_of_nil in Hm; done].
           eapply Hadv; eauto.
        -- apply IH in Hm as (Hl & a & b & ->). split; [exact Hl|].
           exists (w ++ a), b. rewrite <- app_assoc. reflexivity.
    + destruct (advance (pre, suf)) eqn:Ea; [|apply elem_of_nil in Hm; done].
      eapply Hadv; eauto.
Qed.

Lemma match_all_sound r s segments key :
  match_all r s = Some segments → key ∈ segments →
  lang r (list_ascii_of_string key)
  ∧ ∃ a b, list_ascii_of_string s = a ++ list_ascii_of_string key ++ b.
Proof.
  unfold match_all. intros H Hkey.
  destruct (match_loop r _ _) as [|m ms] eqn:E; [discriminate H|].
  injection H as <-. change (key ∈ List.map string_of_list_ascii (m :: ms)) in Hkey.
  apply list_elem_of_In, in_map_iff in Hkey as (w & <- & Hw).
  rewrite list_ascii_of_string_of_list_ascii.
  eapply match_loop_sound. rewrite E. apply list_elem_of_In, Hw.
Qed.

(** ** The segments of [readValue] *)

Lemma alphabet_keypath c : alphabet keypath c = true → not_bracket c = true.
Proof.
  destruct c as [[] [] [] [] [] [] [] []]; vm_compute; intros H;
    try discriminate H; reflexivity.
Qed.

Lemma lang_lit c w : lang (lit c) w → w = [c].
Proof.
  unfold lit. cbn [lang]. intros (d & -> & Hd). apply Ascii.eqb_eq in Hd. subst d. reflexivity.
Qed.

Lemma lang_keypath_bracket_free w : lang keypath w → bracket_free w.
Proof.
  intros H. eapply Forall_impl; [apply lang_alphabet, H|]. apply alphabet_keypath.
Qed.

Lemma lang_keys_bracket_free w : lang (RPlus kc) w → bracket_free w ∧ w ≠ [].
Proof.
  intros H. split.
  - eapply Forall_impl; [apply lang_alphabet, H|]. cbn. intros c Hc.
    apply is_key_not_bracket. destruct (is_key c); [reflexivity|discriminate Hc].
  - apply lang_minlen in H. cbn in H. intros ->. cbn in H. lia.
Qed.

(** A segment of [readValue] is the star, a run without brackets, or a
    bracket around a run without brackets. *)
Lemma read_word_shape w :
  lang read_re w →
  w = ["*"%char] ∨ (bracket_free w ∧ w ≠ [])
  ∨ ∃ b, w = "["%char :: b ++ ["]"%char] ∧ bracket_free b.
Proof.
  unfold read_re. cbn [lang].
  intros [H|(w1 & w2 & -> & -> & w3 & w4 & -> & H & ->)].
  - left. apply lang_lit, H.
  - rewrite app_nil_r. cbn [app]. destruct H as [H|H].
    + right. right. cbn [lang] in H.
      destruct H as (wa & wb & -> & Ha & wc & wd & -> & Hc & Hd).
      apply lang_lit in Ha, Hd. subst wa wd. exists wc. split; [reflexivity|].
      apply lang_keypath_bracket_free, Hc.
    + right. left. apply lang_keys_bracket_free, H.
Qed.

Lemma remove_loop_bracketed b : ∀ n,
  bracket_free b → S (length b) < n →
  remove_loop strip_re n ([], "["%char :: b ++ ["]"%char]) = b.
Proof.
  intros n Hb Hn. destruct n as [|n]; [lia|]. cbn [remove_loop].
  assert (exec strip_re ([], "["%char :: b ++ ["]"%char])
          = Some (["["%char], b ++ ["]"%char])) as ->.
  { unfold exec, strip_re, lit. rewrite rmatch_alt, rmatch_seq, rmatch_bol_nil, rmatch_char_cons.
    reflexivity. }
  cbn [pos fst length Nat.eqb].
  assert (∀ b pre n, bracket_free b → pre ≠ [] → length b < n →
            remove_loop strip_re n (pre, b ++ ["]"%char]) = b) as Hrest.
  { clear. induction b as [|c b IH]; intros pre n Hb Hpre Hn;
      (destruct n as [|n]; [lia|]); cbn [remove_loop app].
    - assert (exec strip_re (pre, ["]"%char]) = Some ("]"%char :: pre, [])) as ->.
      { unfold exec, strip_re, lit. rewrite rmatch_alt, !rmatch_seq.
        destruct pre; [done|]. rewrite rmatch_bol_cons, rmatch_char_cons.
        cbn [Ascii.eqb Bool.eqb]. rewrite rmatch_eol_nil. reflexivity. }
      unfold pos. cbn [fst length].
      rewrite (proj2 (Nat.eqb_neq _ _)) by lia.
      destruct n; cbn [remove_loop snd]; [reflexivity|].
      rewrite exec_strip_none; [reflexivity|discriminate|exact I].
    - inversion Hb as [|? ? Hc Hb']; subst.
      rewrite exec_strip_none; cbn [snd fst].
      + f_equal. apply IH; [assumption|discriminate|cbn in Hn; lia].
      + intros ->. done.
      + intros ->. discriminate Hc. }
  apply Hrest; [assumption|discriminate|lia].
Qed.

Lemma cleanKeyOf_bracketed (key : string) b :
  list_ascii_of_string key = "["%char :: b ++ ["]"%char] → bracket_free b →
  cleanKeyOf key = string_of_list_ascii b.
Proof.
  intros Hk Hb. unfold cleanKeyOf, remove_all. rewrite Hk.
  rewrite remove_loop_bracketed; [reflexivity|exact Hb|].
  cbn [length]. rewrite length_app. cbn. lia.
Qed.

(** The clean key of a segment of [readValue] holds no bracket. *)
Lemma read_cleanKey_bracket_free (key : string) :
  lang read_re (list_ascii_of_string key) →
  String.eqb key "*" = false →
  bracket_free (list_ascii_of_string (cleanKeyOf key)).
Proof.
  intros H Hstar. destruct (read_word_shape _ H) as [E|[[Hb _]|(b & E & Hb)]].
  - exfalso. apply String.eqb_neq in Hstar. apply Hstar.
    rewrite <- (string_of_list_ascii_of_string key), E. reflexivity.
  - rewrite cleanKeyOf_bracket_free by exact Hb. exact Hb.
  - rewrite (cleanKeyOf_bracketed key b E Hb), list_ascii_of_string_of_list_ascii. exact Hb.
Qed.

Lemma sublist_bracket_free (w a m b : list ascii) :
  bracket_free w → w = a ++ m ++ b → bracket_free m.
Proof.
  intros H ->. apply Forall_app in H as [_ H]. apply Forall_app in H as [H _]. exact H.
Qed.

(** ** [readValue] does not fail *)

Lemma ends_in_ok {A} (a : A) h : ends_in (Ok a, h) h.
Proof. left. eexists. reflexivity. Qed.

Lemma ends_in_bind {A B} (m : M A) (f : A → M B) h h1 :
  ends_in (m h) h1 → (∀ a, m h = (Ok a, h1) → ends_in (f a h1) h1) →
  ends_in (bind m f h) h1.
Proof.
  intros [(a & Hm)|Hm] Hf; unfold bind.
  - specialize (Hf a Hm). rewrite Hm. exact Hf.
  - rewrite Hm. right. reflexivity.
Qed.

Lemma no_failure_not_throw {A} (r : outcome A * heap) e : no_failure r → fst r ≠ Throw e.
Proof. intros (h' & [(a & ->)| ->]); discriminate. Qed.

(** A read of a property of a plain object ends where it started. *)
Lemma member_ends obj ps k h : ends_in (member obj ps k h) h.
Proof.
  unfold member, inherited. destruct (prop_get k ps); [apply ends_in_ok|].
  destruct (String.eqb k "__proto__"); [apply ends_in_ok|].
  destruct (is_in k object_prototype_functions); [right; reflexivity|apply ends_in_ok].
Qed.

(** On a segment without brackets the callback of [readValue] ends
    without calling [readValue] and leaves the heap as it is. *)
Lemma read_step_flat rec cur (key : string) h :
  bracket_free (list_ascii_of_string key) → key ≠ "" →
  ends_in (read_step rec cur key h) h.
Proof.
  intros Hb Hne. unfold read_step.
  rewrite (proj2 (String.eqb_neq _ _)) by exact Hne.
  destruct (String.eqb key "*"); [apply ends_in_ok|].
  rewrite isArrayKey_bracket_free by exact Hb. cbn [orb].
  destruct (isIndexKey key) eqn:Hi.
  - rewrite cleanKeyOf_bracket_free by exact Hb. rewrite Hi.
    rewrite (proj2 (String.eqb_neq _ _)) by exact Hne.
    mrun. destruct (elems_of h cur); apply ends_in_ok.
  - mrun. destruct (props_of h cur); [apply member_ends|apply ends_in_ok].
Qed.

Lemma reduce_read_flat rec : ∀ segments cur h,
  Forall (λ key : string, bracket_free (list_ascii_of_string key) ∧ key ≠ "") segments →
  ends_in (reduce (read_step rec) segments cur h) h.
Proof.
  induction segments as [|key segments IH]; intros cur h Hs; [apply ends_in_ok|].
  inversion Hs as [|? ? [Hb Hne] Hs']; subst. cbn [reduce].
  apply ends_in_bind; [apply read_step_flat; assumption|].
  intros v _. apply IH, Hs'.
Qed.

Lemma lang_read_nonempty (key : string) :
  lang read_re (list_ascii_of_string key) → key ≠ "".
Proof.
  intros H E. subst key. apply lang_minlen in H. vm_compute in H. lia.
Qed.

(** With a path that holds no bracket [readValue] ends in the heap it
    started from, whatever the fuel left for its nested calls. *)
Lemma readValue_flat n obj (p : string) h :
  bracket_free (list_ascii_of_string p) → p ≠ "" →
  ends_in (readValue_aux (S n) obj (VStr p) h) h.
Proof.
  intros Hb Hne. cbn [readValue_aux].
  rewrite (proj2 (String.eqb_neq _ _)) by exact Hne.
  destruct (match_all read_re p) as [segments|] eqn:E; [|apply ends_in_ok].
  apply reduce_read_flat. apply Forall_forall. intros key Hkey.
  destruct (match_all_sound _ _ _ _ E Hkey) as (Hl & a & b & Hsub). split.
  - eapply sublist_bracket_free; eauto.
  - apply lang_read_nonempty, Hl.
Qed.

Lemma occurs_in_refl k : occurs_in k k.
Proof. exists [], []. rewrite app_nil_r. reflexivity. Qed.

Lemma occurs_in_trans k q p : occurs_in k q → occurs_in q p → occurs_in k p.
Proof.
  intros (a & b & E) (c & d & F). exists (c ++ a), (b ++ d).
  rewrite F, E, <- !app_assoc. reflexivity.
Qed.

Lemma returns_ok {A} (a : A) h p : returns_or_method (Ok a, h) p.
Proof. left. eexists _, _. reflexivity. Qed.

Lemma returns_bind {A B} (m : M A) (f : A → M B) h p :
  returns_or_method (m h) p →
  (∀ a h1, m h = (Ok a, h1) → returns_or_method (f a h1) p) →
  returns_or_method (bind m f h) p.
Proof.
  intros [(a & h1 & Hm)|(h1 & k & Hm & Hk)] Hf; unfold bind.
  - specialize (Hf a h1 Hm). rewrite Hm. exact Hf.
  - rewrite Hm. right. exists h1, k. split; [reflexivity|exact Hk].
Qed.

Lemma returns_within {A} (r : outcome A * heap) q p :
  returns_or_method r q → occurs_in q p → returns_or_method r p.
Proof.
  intros [H|(h' & k & H & Hk & Ho)] Hq; [left; exact H|].
  right. exists h', k. split; [exact H|]. split; [exact Hk|].
  eapply occurs_in_trans; eauto.
Qed.

Lemma returns_no_failure {A} (r : outcome A * heap) p :
  returns_or_method r p → no_failure r.
Proof.
  intros [(a & h' & ->)|(h' & k & -> & _)]; exists h'; [apply ends_in_ok|right; reflexivity].
Qed.

Lemma returns_method_free {A} (r : outcome A * heap) p :
  returns_or_method r p → method_free p → ∃ a h', r = (Ok a, h').
Proof.
  intros [H|(h' & k & _ & Hk & Ho)] Hp; [exact H|]. destruct (Hp k Hk Ho).
Qed.

Lemma member_returns obj ps k h : returns_or_method (member obj ps k h) k.
Proof.
  unfold member, inherited. destruct (prop_get k ps); [apply returns_ok|].
  destruct (String.eqb k "__proto__"); [apply returns_ok|].
  destruct (is_in k object_prototype_functions) eqn:E; [|apply returns_ok].
  right. exists h, k. split; [reflexivity|]. split; [exact E|apply occurs_in_refl].
Qed.

Lemma read_step_flat_returns rec cur (key : string) h :
  bracket_free (list_ascii_of_string key) → key ≠ "" →
  returns_or_method (read_step rec cur key h) key.
Proof.
  intros Hb Hne. unfold read_step.
  rewrite (proj2 (String.eqb_neq _ _)) by exact Hne.
  destruct (String.eqb key "*"); [apply returns_ok|].
  rewrite isArrayKey_bracket_free by exact Hb. cbn [orb].
  destruct (isIndexKey key) eqn:Hi.
  - rewrite cleanKeyOf_bracket_free by exact Hb. rewrite Hi.
    rewrite (proj2 (String.eqb_neq _ _)) by exact Hne.
    mrun. destruct (elems_of h cur); apply returns_ok.
  - mrun. destruct (props_of h cur); [apply member_returns|apply returns_ok].
Qed.

Lemma reduce_flat_returns rec p : ∀ segments cur h,
  Forall (λ key : string, bracket_free (list_ascii_of_string key) ∧ key ≠ ""
                          ∧ occurs_in key p) segments →
  returns_or_method (reduce (read_step rec) segments cur h) p.
Proof.
  induction segments as [|key segments IH]; intros cur h Hs; [apply returns_ok|].
  inversion Hs as [|? ? (Hb & Hne & Ho) Hs']; subst. cbn [reduce].
  apply returns_bind.
  - eapply returns_within; [apply read_step_flat_returns; assumption|exact Ho].
  - intros v h1 _. apply IH, Hs'.
Qed.

Lemma readValue_flat_returns n obj (p : string) h :
  bracket_free (list_ascii_of_string p) → p ≠ "" →
  returns_or_method (readValue_aux (S n) obj (VStr p) h) p.
Proof.
  intros Hb Hne. cbn [readValue_aux].
  rewrite (proj2 (String.eqb_neq _ _)) by exact Hne.
  destruct (match_all read_re p) as [segments|] eqn:E; [|apply returns_ok].
  apply reduce_flat_returns. apply Forall_forall. intros key Hkey.
  destruct (match_all_sound _ _ _ _ E Hkey) as (Hl & a & b & Hsub).
  split; [eapply sublist_bracket_free; eauto|].
  split; [apply lang_read_nonempty, Hl|]. exists a, b. exact Hsub.
Qed.

Lemma map_elems_returns (f : jsval → M jsval) p :
  (∀ v h, returns_or_method (f v h) p) → ∀ es h, returns_or_method (map_elems f es h) p.
Proof.
  intros Hf. induction es as [|[v|] es IH]; intros h; cbn [map_elems].
  - apply returns_ok.
  - apply returns_bind; [apply Hf|]. intros x h1 _.
    apply returns_bind; [apply IH|]. intros r h2 _. apply returns_ok.
  - apply returns_bind; [apply IH|]. intros r h2 _. apply returns_ok.
Qed.

(** The clean key of a segment of [readValue] occurs in the segment. *)
Lemma read_cleanKey_occurs (key : string) :
  lang read_re (list_ascii_of_string key) → occurs_in (cleanKeyOf key) key.
Proof.
  intros H. destruct (read_word_shape _ H) as [E|[[Hb _]|(b & E & Hb)]].
  - assert (key = "*") as ->
      by (rewrite <- (string_of_list_ascii_of_string key), E; reflexivity).
    exists [], []. vm_compute. reflexivity.
  - rewrite cleanKeyOf_bracket_free by exact Hb. apply occurs_in_refl.
  - rewrite (cleanKeyOf_bracketed key b E Hb).
    exists ["["%char], ["]"%char]. rewrite list_ascii_of_string_of_list_ascii. exact E.
Qed.

Lemma read_step_returns n cur (key : string) h :
  lang read_re (list_ascii_of_string key) →
  returns_or_method (read_step (readValue_aux (S n)) cur key h) key.
Proof.
  intros Hl. pose proof (lang_read_nonempty key Hl) as Hne. unfold read_step.
  rewrite (proj2 (String.eqb_neq _ _)) by exact Hne.
  destruct (String.eqb key "*") eqn:Hstar; [apply returns_ok|].
  destruct (isArrayKey key || isIndexKey key).
  - mrun. destruct (elems_of h cur) as [es|]; [|apply returns_ok].
    destruct (String.eqb_spec (cleanKeyOf key) "") as [|Hc]; [apply returns_ok|].
    destruct (isIndexKey (cleanKeyOf key)); [apply returns_ok|].
    apply returns_bind.
    + apply map_elems_returns. intros v h0. mrun.
      destruct (isObject h0 v); [|apply returns_ok].
      eapply returns_within; [|apply read_cleanKey_occurs, Hl].
      apply readValue_flat_returns; [|exact Hc].
      apply read_cleanKey_bracket_free; assumption.
    + intros r h1 _. apply returns_ok.
  - mrun. destruct (props_of h cur); [apply member_returns|apply returns_ok].
Qed.

Lemma reduce_read_returns n p : ∀ segments cur h,
  Forall (λ key : string, lang read_re (list_ascii_of_string key) ∧ occurs_in key p)
    segments →
  returns_or_method (reduce (read_step (readValue_aux (S n))) segments cur h) p.
Proof.
  induction segments as [|key segments IH]; intros cur h Hs; [apply returns_ok|].
  inversion Hs as [|? ? [Hl Ho] Hs']; subst. cbn [reduce].
  apply returns_bind.
  - eapply returns_within; [apply read_step_returns, Hl|exact Ho].
  - intros v h1 _. apply IH, Hs'.
Qed.

(** For a path that is a non-empty string [readValue] returns, unless it
    reads a method of [Object.prototype] that the path names. *)
Lemma readValue_aux_returns n obj (p : string) h :
  p ≠ "" → returns_or_method (readValue_aux (S (S n)) obj (VStr p) h) p.
Proof.
  intros Hne. cbn [readValue_aux].
  rewrite (proj2 (String.eqb_neq _ _)) by exact Hne.
  destruct (match_all read_re p) as [segments|] eqn:E; [|apply returns_ok].
  apply reduce_read_returns. apply Forall_forall. intros key Hkey.
  destruct (match_all_sound _ _ _ _ E Hkey) as (Hl & a & b & Hsub).
  split; [exact Hl|]. exists a, b. exact Hsub.
Qed.

(** [readValue] does not fail for a path that is a non-empty string. *)
Lemma readValue_aux_ends n obj (p : string) h :
  p ≠ "" → no_failure (readValue_aux (S (S n)) obj (VStr p) h).
Proof. intros Hne. eapply returns_no_failure, readValue_aux_returns, Hne. Qed.

(** [readValue] returns for a path that names no method of
    [Object.prototype]. *)
Lemma readValue_aux_ok n obj (p : string) h :
  p ≠ "" → method_free p →
  ∃ v h', readValue_aux (S (S n)) obj (VStr p) h = (Ok v, h').
Proof.
  intros Hne Hp. eapply returns_method_free; [apply readValue_aux_returns, Hne|exact Hp].
Qed.

(** The names of the methods of [Object.prototype] have seven characters
    or more. *)
Lemma method_free_short p : length (list_ascii_of_string p) < 7 → method_free p.
Proof.
  intros Hlen k Hk (a & b & E).
  assert (7 ≤ length (list_ascii_of_string k)) as Hk7.
  { unfold is_in, object_prototype_functions in Hk. cbn [existsb] in Hk.
    repeat (apply orb_prop in Hk as [Hk|Hk];
            [apply String.eqb_eq in Hk; subst k; vm_compute; lia|]).
    discriminate Hk. }
  apply (f_equal (@length ascii)) in E. rewrite !length_app in E. lia.
Qed.

(** ** Absent data reads as [undefined] *)

Lemma arr_at_out_of_range es z :
  (z < - Z.of_nat (length es))%Z ∨ (Z.of_nat (length es) ≤ z)%Z → arr_at es z = VUndef.
Proof.
  intros H. unfold arr_at. destruct (Z.ltb_spec z 0) as [Hz|Hz].
  - destruct H as [H|H]; [|lia].
    rewrite (proj2 (Z.ltb_lt _ 0)) by lia. reflexivity.
  - destruct H as [H|H]; [lia|].
    rewrite (proj2 (Z.ltb_ge z 0)) by lia.
    rewrite (proj2 (Z.leb_le _ z)) by lia. reflexivity.
Qed.

Lemma read_step_absent rec cur (key : string) h :
  key ≠ "" → key ≠ "*" → absent h cur key →
  read_step rec cur key h = (Ok VUndef, h).
Proof.
  intros H1 H2 Ha. unfold read_step, absent in *.
  rewrite !(proj2 (String.eqb_neq _ _)) by assumption.
  destruct (isArrayKey key || isIndexKey key); mrun.
  - destruct (elems_of h cur) as [es|]; [|reflexivity].
    destruct Ha as [Hi Hr]. rewrite Hi.
    destruct (String.eqb _ _); [reflexivity|].
    mrun. rewrite arr_at_out_of_range by exact Hr. reflexivity.
  - destruct (props_of h cur) as [ps|]; [|reflexivity].
    destruct Ha as [Ha Hi]. apply member_none; assumption.
Qed.

Lemma absent_undef h key : absent h VUndef key.
Proof. unfold absent. destruct (_ || _)%bool; exact I. Qed.

Lemma read_step_from_undef rec (key : string) h :
  key ≠ "" → read_step rec VUndef key h = (Ok VUndef, h).
Proof.
  intros Hne. destruct (String.eqb_spec key "*") as [->|Hs].
  - reflexivity.
  - apply read_step_absent; auto using absent_undef.
Qed.

Lemma reduce_from_undef rec segments h :
  Forall (λ key : string, key ≠ "") segments →
  reduce (read_step rec) segments VUndef h = (Ok VUndef, h).
Proof.
  induction 1 as [|key segments Hk _ IH]; [reflexivity|].
  cbn [reduce]. rewrite (run_ok _ _ _ _ _ (read_step_from_undef rec key h Hk)). exact IH.
Qed.

Lemma reduce_app {A} (step : jsval → A → M jsval) xs ys acc h :
  reduce step (xs ++ ys) acc h = bind (reduce step xs acc) (reduce step ys) h.
Proof.
  revert acc h. induction xs as [|x xs IH]; intros acc h; cbn [reduce app].
  - reflexivity.
  - rewrite run_bind_assoc. unfold bind at 1 2.
    destruct (step acc x h) as [[a|e| |] h1]; [apply IH|reflexivity..].
Qed.

Lemma match_all_none_empty : match_all read_re "" = None.
Proof. vm_compute. reflexivity. Qed.

(** Once the traversal meets absent data the result is [undefined]. *)
Lemma readValue_absent obj (p : string) before key after cur h h1 :
  match_all read_re p = Some (before ++ key :: after) →
  reduce (read_step (readValue_aux 1)) before obj h = (Ok cur, h1) →
  key ≠ "*" → absent h1 cur key →
  readValue obj (VStr p) h = (Ok VUndef, h1).
Proof.
  intros Hm Hb Hstar Ha. unfold readValue. cbn [readValue_aux].
  assert (p ≠ "") as Hp.
  { intros ->. rewrite match_all_none_empty in Hm. discriminate Hm. }
  rewrite (proj2 (String.eqb_neq _ _)) by exact Hp. rewrite Hm.
  assert (Forall (λ k : string, k ≠ "") (before ++ key :: after)) as Hne.
  { apply Forall_forall. intros k Hk.
    apply lang_read_nonempty. eapply match_all_sound; eauto. }
  apply Forall_app in Hne as [_ Hne]. inversion Hne as [|? ? Hk Hafter]; subst.
  rewrite reduce_app. rewrite (run_ok _ _ _ _ _ Hb). cbn [reduce].
  rewrite (run_ok _ _ _ _ _ (read_step_absent _ cur key h1 Hk Hstar Ha)).
  apply reduce_from_undef, Hafter.
Qed.

(** ** [writeValue] and the invalid-path error *)

Lemma npe_bind {A B} (m : M A) (f : A → M B) :
  no_path_error m → (∀ a, no_path_error (f a)) → no_path_error (bind m f).
Proof.
  intros Hm Hf h. unfold bind. specialize (Hm h).
  destruct (m h) as [[a|e| |] h']; cbn in *; [apply Hf|congruence|discriminate..].
Qed.

Lemma npe_ret {A} (a : A) : no_path_error (ret a).
Proof. intros h. discriminate. Qed.

Lemma npe_throw {A} e : e ≠ InvalidPathError → no_path_error (@throw A e).
Proof. intros He h. cbn. congruence. Qed.

Lemma npe_out_of_fuel {A} : no_path_error (@out_of_fuel A).
Proof. intros h. discriminate. Qed.

Lemma npe_unmodelled {A} : no_path_error (@unmodelled A).
Proof. intros h. discriminate. Qed.

Lemma npe_get_heap : no_path_error get_heap.
Proof. intros h. discriminate. Qed.

Lemma npe_alloc c : no_path_error (alloc c).
Proof. intros h. discriminate. Qed.

Lemma npe_put_cell l c : no_path_error (put_cell l c).
Proof. intros h. discriminate. Qed.

Ltac npe_step :=
  first
    [ apply npe_ret | apply npe_get_heap | apply npe_alloc | apply npe_put_cell
    | apply npe_out_of_fuel | apply npe_unmodelled
    | apply npe_throw; discriminate
    | apply npe_bind; [|intros ?]
    | match goal with
      | |- no_path_error (if ?b then _ else _) => destruct b
      | |- no_path_error (match ?x with _ => _ end) => destruct x
      end ].

Ltac npe_auto := repeat npe_step.

Lemma npe_call_at obj z : no_path_error (call_at obj z).
Proof. unfold call_at. npe_auto. Qed.

Lemma npe_push_now obj vs : no_path_error (push_now obj vs).
Proof.
  unfold push_now. npe_auto.
Qed.

Lemma npe_call_push obj arg : no_path_error arg → no_path_error (call_push obj arg).
Proof.
  intros Ha. unfold call_push.
  destruct obj; try (apply npe_throw; discriminate);
    (apply npe_bind; [exact Ha|intros ?; apply npe_push_now]).
Qed.

Lemma npe_call_splice obj z v : no_path_error (call_splice obj z v).
Proof. unfold call_splice. npe_auto. Qed.

Lemma npe_get_prop obj key : no_path_error (get_prop obj key).
Proof. unfold get_prop, not_own, member, inherited. npe_auto. Qed.

Lemma npe_set_prop obj key v : no_path_error (set_prop obj key v).
Proof. unfold set_prop, proto_setter. npe_auto. Qed.

Lemma npe_getNextValue v nk e : no_path_error (getNextValue v nk e).
Proof. unfold getNextValue. npe_auto. Qed.

Lemma npe_forEach_from f arr : (∀ v, no_path_error (f v)) →
  ∀ count i, no_path_error (forEach_from f arr i count).
Proof.
  intros Hf. induction count as [|count IH]; intros i; cbn [forEach_from]; npe_auto;
    auto.
Qed.

Lemma npe_call_forEach obj f : (∀ v, no_path_error (f v)) → no_path_error (call_forEach obj f).
Proof. intros Hf. unfold call_forEach. npe_auto. apply npe_forEach_from, Hf. Qed.

Lemma npe_readValue obj (p : string) : p ≠ "" → no_path_error (readValue obj (VStr p)).
Proof.
  intros Hp h. apply no_failure_not_throw.
  unfold readValue. apply readValue_aux_ends, Hp.
Qed.

Ltac npe_ops :=
  repeat first
    [ apply npe_call_at | apply npe_call_splice | apply npe_get_prop | apply npe_set_prop
    | apply npe_getNextValue
    | apply npe_call_push
    | apply npe_call_forEach; intros ?
    | npe_step ].

Lemma npe_write_step rec v cur (key : string) nk :
  (∀ item (p : string) next, p ≠ "" → no_path_error (rec item (VStr p) next)) →
  key ≠ "" → no_path_error (write_step rec v cur key nk).
Proof.
  intros Hrec Hkey. unfold write_step.
  destruct (isArrayKey key || isIndexKey key).
  - destruct (String.eqb_spec (cleanKeyOf key) "") as [|Hc].
    + npe_ops.
    + destruct (isIndexKey (cleanKeyOf key)); npe_ops; auto.
  - npe_ops; auto.
Qed.

Lemma npe_write_segs rec v : ∀ segments cur,
  (∀ item (p : string) next, p ≠ "" → no_path_error (rec item (VStr p) next)) →
  Forall (λ key : string, key ≠ "") segments →
  no_path_error (write_segs rec v segments cur).
Proof.
  induction segments as [|key segments IH]; intros cur Hrec Hs; cbn [write_segs].
  - apply npe_ret.
  - inversion Hs; subst. apply npe_bind; [apply npe_write_step; assumption|].
    intros next. apply IH; assumption.
Qed.

Lemma lang_write_nonempty (key : string) :
  lang write_re (list_ascii_of_string key) → key ≠ "".
Proof.
  intros H E. subst key. apply lang_minlen in H. vm_compute in H. lia.
Qed.

Lemma npe_writeValue : ∀ n obj (p : string) v,
  p ≠ "" ∨ v ≠ VUndef → no_path_error (writeValue n obj (VStr p) v).
Proof.
  induction n as [|n IH]; intros obj p v Hpv; cbn [writeValue]; [apply npe_out_of_fuel|].
  apply npe_bind.
  - destruct v; cbn [isUndefined]; try apply npe_ret.
    destruct Hpv as [Hp|Hv]; [|done].
    apply npe_bind; [apply npe_readValue, Hp|intros r; apply npe_ret].
  - intros [|]; [apply npe_ret|].
    destruct (match_all write_re p) as [segments|] eqn:E; [|apply npe_ret].
    apply npe_bind; [|intros ?; apply npe_ret].
    apply npe_write_segs.
    + intros item q next Hq. apply IH. left. exact Hq.
    + apply Forall_forall. intros key Hkey.
      apply lang_write_nonempty. eapply match_all_sound; eauto.
Qed.

(** ** A doubled dot in a path *)

Lemma exec_read_at_dot pre suf : exec read_re (pre, "."%char :: suf) = None.
Proof.
  unfold exec, read_re, lit, RPlus, kc.
  rewrite rmatch_alt, rmatch_char_cons. cbn [Ascii.eqb Bool.eqb].
  rewrite rmatch_seq, rmatch_behind.
  destruct (rmatch false _ _ _); [|reflexivity].
  rewrite !rmatch_seq, rmatch_alt, !rmatch_seq, !rmatch_char_cons. reflexivity.
Qed.

Lemma exec_write_at_dot pre suf : exec write_re (pre, "."%char :: suf) = None.
Proof.
  unfold exec, write_re, lit, RPlus, kc.
  rewrite rmatch_alt, rmatch_seq, rmatch_behind.
  assert (rmatch true (RChar is_key ⊙ RStar (RChar is_key) ⊙ RAhead (RChar (Ascii.eqb ".") ⊕ REol))%re
            (pre, "."%char :: suf) Some = None) as H.
  { rewrite !rmatch_seq, rmatch_char_cons. reflexivity. }
  destruct (rmatch false _ _ _).
  - rewrite !rmatch_seq, rmatch_char_cons. cbn [Ascii.eqb Bool.eqb]. exact H.
  - exact H.
Qed.

Lemma match_all_double_dot r (a b : string)
    (Hrun : ∀ pre w suf, keyrun w → at_dot pre → at_dot suf →
              exec r (pre, w ++ suf) = Some (rev w ++ pre, suf))
    (Hnone : ∀ c pre suf, is_key c = true → at_dot suf → exec r (c :: pre, suf) = None)
    (Hdot : ∀ pre suf, exec r (pre, "."%char :: suf) = None) :
  keyrun (list_ascii_of_string a) → keyrun (list_ascii_of_string b) →
  match_all r (String.append a (String.append ".." b)) = Some [a; b].
Proof.
  intros Ha Hb. unfold match_all.
  rewrite !list_ascii_of_string_app.
  set (wa := list_ascii_of_string a) in *. set (wb := list_ascii_of_string b) in *.
  change (list_ascii_of_string "..") with ["."%char; "."%char]. cbn [app].
  rewrite length_app. cbn [length].
  destruct (keyrun_rev_head wa Ha) as (c & t & Hrev & Hc).
  assert (wa ≠ []) as Hane by apply Ha.
  cbn [match_loop]. rewrite Hrun by (cbn; auto).
  rewrite matched_run. unfold pos. cbn [fst].
  rewrite length_app, length_rev.
  rewrite (proj2 (Nat.eqb_neq _ _)) by (destruct wa; [done|cbn; lia]).
  destruct (length wa + S (S (length wb))) as [|n] eqn:En; [lia|].
  cbn [match_loop]. rewrite Hrev. cbn [app]. rewrite Hnone by (cbn; auto).
  cbn [advance snd fst].
  destruct n as [|n]; [lia|]. cbn [match_loop]. rewrite Hdot. cbn [advance snd fst].
  pose proof (match_loop_runs r Hrun Hnone [wb] n ("."%char :: "."%char :: c :: t ++ [])) as H.
  cbn [join_dots] in H. rewrite H.
  - cbn [List.map]. unfold wa, wb. rewrite !string_of_list_ascii_of_string. reflexivity.
  - constructor; [exact Hb|constructor].
  - discriminate.
  - reflexivity.
  - destruct wa; [done|]. cbn [length] in En. lia.
Qed.

(** ** The frame of a call: cells that existed before are not written *)

Section Frame.
Variable h0 : heap.

Lemma extends_length h : extends h0 h → length h0 ≤ length h.
Proof.
  intros [Ht _]. apply (f_equal length) in Ht. rewrite length_take in Ht. lia.
Qed.

Lemma extends_refl : extends h0 h0.
Proof.
  split.
  - apply firstn_all.
  - intros l c Hl Hc. apply lookup_lt_Some in Hc. lia.
Qed.

Lemma extends_alloc h c : extends h0 h → cell_fresh h0 c → extends h0 (h ++ [c]).
Proof.
  intros He Hc. pose proof (extends_length h He) as Hlen. destruct He as [Ht Hf]. split.
  - rewrite take_app_le by exact Hlen. exact Ht.
  - intros l c' Hl Hc'.
    destruct (Nat.lt_ge_cases l (length h)) as [Hlt|Hge].
    + rewrite lookup_app_l in Hc' by exact Hlt. eapply Hf; eauto.
    + rewrite lookup_app_r in Hc' by exact Hge.
      destruct (l - length h) as [|k]; cbn in Hc'; [|done].
      injection Hc' as <-. exact Hc.
Qed.

Lemma extends_put h l c :
  extends h0 h → length h0 ≤ l → cell_fresh h0 c → extends h0 (<[l := c]> h).
Proof.
  intros [Ht Hf] Hl Hc. split.
  - rewrite take_insert_ge by exact Hl. exact Ht.
  - intros l' c' Hl' Hc'. destruct (decide (l = l')) as [<-|Hne].
    + destruct (Nat.lt_ge_cases l (length h)) as [Hlt|Hge].
      * rewrite list_lookup_insert_eq in Hc' by exact Hlt. injection Hc' as <-. exact Hc.
      * rewrite list_insert_ge in Hc' by exact Hge. eapply Hf; eauto.
    + rewrite list_lookup_insert_ne in Hc' by exact Hne. eapply Hf; eauto.
Qed.

Lemma cell_at_fresh h l : extends h0 h → length h0 ≤ l → cell_fresh h0 (cell_at h l).
Proof.
  intros [_ Hf] Hl. unfold cell_at. destruct (h !! l) as [c|] eqn:E; cbn.
  - eapply Hf; eauto.
  - constructor.
Qed.

Lemma elems_of_fresh h v es :
  extends h0 h → vfresh h0 v → elems_of h v = Some es → elems_fresh h0 es.
Proof.
  intros He Hv H. destruct v as [| | | | |l|]; try discriminate H.
  unfold elems_of in H. pose proof (cell_at_fresh h l He Hv) as Hc.
  destruct (cell_at h l); [discriminate H|]. injection H as <-. apply Hc.
Qed.

Lemma props_of_fresh h v ps :
  extends h0 h → vfresh h0 v → props_of h v = Some ps → props_fresh h0 ps.
Proof.
  intros He Hv H. destruct v as [| | | | |l|[]]; try discriminate H;
    [|injection H as <-; constructor].
  unfold props_of in H. pose proof (cell_at_fresh h l He Hv) as Hc.
  destruct (cell_at h l); [|discriminate H]. injection H as <-. apply Hc.
Qed.

Lemma arr_at_fresh es z : elems_fresh h0 es → vfresh h0 (arr_at es z).
Proof.
  intros He. unfold arr_at. destruct (_ || _)%bool; [exact I|].
  destruct (es !! _) as [[v|]|] eqn:E; try exact I.
  eapply Forall_lookup_1 in He; [|exact E]. exact He.
Qed.

Lemma str_at_fresh s z : vfresh h0 (str_at s z).
Proof.
  unfold str_at. destruct (_ || _)%bool; [exact I|]. destruct (_ !! _); exact I.
Qed.

Lemma prop_get_fresh k ps :
  props_fresh h0 ps → vfresh h0 (default VUndef (prop_get k ps)).
Proof.
  induction 1 as [|[k' v] ps Hv _ IH]; cbn; [exact I|].
  destruct (String.eqb k' k); [exact Hv|exact IH].
Qed.

Lemma prop_set_fresh k v ps :
  props_fresh h0 ps → vfresh h0 v → props_fresh h0 (prop_set k v ps).
Proof.
  intros Hps Hv. induction Hps as [|[k' v'] ps Hv' Hps IH]; cbn.
  - repeat constructor. exact Hv.
  - destruct (String.eqb k' k); constructor; auto.
Qed.

Lemma elems_set_fresh es i v :
  elems_fresh h0 es → vfresh h0 v → elems_fresh h0 (elems_set es i v).
Proof.
  intros He Hv. unfold elems_set. destruct (Nat.ltb _ _).
  - apply Forall_insert; assumption.
  - apply Forall_app. split; [exact He|]. apply Forall_app. split.
    + apply Forall_replicate. exact I.
    + repeat constructor. exact Hv.
Qed.

Lemma elems_splice_fresh es z v :
  elems_fresh h0 es → vfresh h0 v → elems_fresh h0 (elems_splice es z v).
Proof.
  intros He Hv. unfold elems_splice.
  apply Forall_app. split; [apply Forall_take, He|].
  apply Forall_app. split; [repeat constructor; exact Hv|apply Forall_drop, He].
Qed.

(** *** The rules *)

Lemma safe_ret {A} (P : A → Prop) a : P a → safe h0 P (ret a).
Proof. intros Ha h He. split; [exact He|]. intros a' [= <-]. exact Ha. Qed.

Lemma safe_throw {A} (P : A → Prop) e : safe h0 P (throw e).
Proof. intros h He. split; [exact He|]. intros a' [=]. Qed.

Lemma safe_out_of_fuel {A} (P : A → Prop) : safe h0 P out_of_fuel.
Proof. intros h He. split; [exact He|]. intros a' [=]. Qed.

Lemma safe_unmodelled {A} (P : A → Prop) : safe h0 P unmodelled.
Proof. intros h He. split; [exact He|]. intros a' [=]. Qed.

Lemma safe_not_own (P : jsval → Prop) key : P VUndef → safe h0 P (not_own key).
Proof.
  intros HP. unfold not_own. destruct (is_in key prototype_names).
  - apply safe_unmodelled.
  - apply safe_ret, HP.
Qed.

Lemma safe_member obj k ps :
  props_fresh h0 ps → safe h0 (vfresh h0) (member obj ps k).
Proof.
  intros Hps. unfold member. pose proof (prop_get_fresh k ps Hps) as H.
  destruct (prop_get k ps); [apply safe_ret, H|].
  unfold inherited. destruct (String.eqb k "__proto__").
  - apply safe_ret. destruct obj as [| | | | | |[]]; exact I.
  - destruct (is_in k object_prototype_functions);
      [apply safe_unmodelled|apply safe_ret; exact I].
Qed.

Lemma safe_member_any obj k ps : safe h0 (λ _, True) (member obj ps k).
Proof.
  unfold member, inherited. destruct (prop_get k ps); [apply safe_ret; exact I|].
  destruct (String.eqb k "__proto__"); [apply safe_ret; exact I|].
  destruct (is_in k object_prototype_functions);
    [apply safe_unmodelled|apply safe_ret; exact I].
Qed.

Lemma safe_proto_setter v : safe h0 (λ _, True) (proto_setter v).
Proof.
  destruct v as [| | | | | |]; cbn [proto_setter];
    first [apply safe_unmodelled|apply safe_ret; exact I].
Qed.

Lemma safe_bind {A B} (P : A → Prop) (Q : B → Prop) (m : M A) (f : A → M B) :
  safe h0 P m → (∀ a, P a → safe h0 Q (f a)) → safe h0 Q (bind m f).
Proof.
  intros Hm Hf h He. unfold bind. destruct (Hm h He) as [He' Ha].
  destruct (m h) as [[a|e| |] h']; cbn [fst snd] in *.
  - apply Hf; auto.
  - split; [exact He'|]. intros ? [=].
  - split; [exact He'|]. intros ? [=].
  - split; [exact He'|]. intros ? [=].
Qed.

Lemma safe_weaken {A} (P Q : A → Prop) (m : M A) :
  safe h0 P m → (∀ a, P a → Q a) → safe h0 Q m.
Proof. intros Hm HPQ h He. destruct (Hm h He) as [He' Ha]. split; auto. Qed.

Lemma safe_get_heap : safe h0 (extends h0) get_heap.
Proof. intros h He. split; [exact He|]. intros a [= <-]. exact He. Qed.

Lemma safe_alloc c : cell_fresh h0 c → safe h0 (vfresh h0) (alloc c).
Proof.
  intros Hc h He. split; [apply extends_alloc; assumption|].
  intros a [= <-]. cbn. apply extends_length, He.
Qed.

Lemma safe_put_cell l c :
  length h0 ≤ l → cell_fresh h0 c → safe h0 (λ _, True) (put_cell l c).
Proof. intros Hl Hc h He. split; [apply extends_put; assumption|]. auto. Qed.

(** Reading the heap, then going on with a computation that is safe
    for every heap that extends [h0]. *)
Lemma safe_with_heap {B} (Q : B → Prop) (f : heap → M B) :
  (∀ h, extends h0 h → safe h0 Q (f h)) → safe h0 Q (bind get_heap f).
Proof. intros Hf. eapply safe_bind; [apply safe_get_heap|exact Hf]. Qed.

Lemma safe_seq {A B} (Q : B → Prop) (m : M A) (k : M B) :
  safe h0 (λ _, True) m → safe h0 Q k → safe h0 Q (bind m (λ _, k)).
Proof. intros Hm Hk. eapply safe_bind; [exact Hm|]. intros _ _. exact Hk. Qed.

End Frame.

Section FrameOps.
Variable h0 : heap.

Lemma safe_call_at obj z : vfresh h0 obj → safe h0 (vfresh h0) (call_at obj z).
Proof.
  intros Ho. unfold call_at. apply safe_with_heap. intros h He.
  destruct obj; try apply safe_throw.
  - apply safe_ret, str_at_fresh.
  - destruct (elems_of h (VRef l)) as [es|] eqn:E; [|apply safe_throw].
    apply safe_ret, arr_at_fresh. eapply elems_of_fresh; eauto.
Qed.

Lemma push_values_fresh vs : ∀ len es ex,
  Forall (vfresh h0) vs → elems_fresh h0 es → props_fresh h0 ex →
  elems_fresh h0 (fst (push_values len es ex vs))
  ∧ props_fresh h0 (snd (push_values len es ex vs)).
Proof.
  induction vs as [|v vs IH]; intros len es ex Hvs Hes Hex; cbn [push_values].
  - split; assumption.
  - inversion Hvs as [|? ? Hv Hvs']; subst. destruct (Z.ltb len array_limit).
    + apply IH; auto. apply Forall_app. split; [exact Hes|]. repeat constructor. exact Hv.
    + apply IH; auto. apply prop_set_fresh; assumption.
Qed.

Lemma safe_push_now obj vs :
  vfresh h0 obj → Forall (vfresh h0) vs → safe h0 (λ _, True) (push_now obj vs).
Proof.
  intros Ho Hvs. unfold push_now. apply safe_with_heap. intros h He.
  destruct obj; try apply safe_throw.
  pose proof (cell_at_fresh h0 h l He Ho) as Hc.
  destruct (cell_at h l) as [ps|es ex]; [apply safe_throw|]. destruct Hc as [Hes Hex].
  pose proof (push_values_fresh vs (Z.of_nat (length es)) es ex Hvs Hes Hex) as [H1 H2].
  destruct (push_values _ es ex vs) as [es' ex']. cbn [fst snd] in H1, H2.
  apply safe_seq.
  - apply safe_put_cell; [exact Ho|]. split; assumption.
  - destruct (Z.ltb _ _); [apply safe_throw|apply safe_ret; exact I].
Qed.

Lemma safe_call_push obj arg :
  vfresh h0 obj → safe h0 (vfresh h0) arg → safe h0 (λ _, True) (call_push obj arg).
Proof.
  intros Ho Ha. unfold call_push.
  destruct obj; try apply safe_throw;
    (eapply safe_bind; [exact Ha|]); intros v Hv;
    (apply safe_push_now; [exact Ho|repeat constructor; exact Hv]).
Qed.

Lemma safe_call_splice obj z v :
  vfresh h0 obj → vfresh h0 v → safe h0 (λ _, True) (call_splice obj z v).
Proof.
  intros Ho Hv. unfold call_splice. apply safe_with_heap. intros h He.
  destruct obj; try apply safe_throw.
  pose proof (cell_at_fresh h0 h l He Ho) as Hc.
  destruct (cell_at h l) as [ps|es ex]; [apply safe_throw|]. destruct Hc as [Hes Hex].
  apply safe_put_cell; [exact Ho|]. split; [|exact Hex].
  apply elems_splice_fresh; assumption.
Qed.

Lemma safe_get_prop obj key : vfresh h0 obj → safe h0 (vfresh h0) (get_prop obj key).
Proof.
  intros Ho. unfold get_prop. apply safe_with_heap. intros h He.
  destruct obj as [| | | | |l|[]]; try apply safe_throw;
    try (apply safe_not_own; exact I); try apply safe_unmodelled.
  - destruct (is_array_index key); [apply safe_ret, str_at_fresh|].
    destruct (String.eqb key "length"); [apply safe_ret; exact I|].
    apply safe_not_own. exact I.
  - pose proof (cell_at_fresh h0 h l He Ho) as Hc.
    destruct (cell_at h l) as [ps|es ex].
    + apply safe_member, Hc.
    + destruct Hc as [Hes Hex].
      destruct (is_array_index key); [apply safe_ret, arr_at_fresh, Hes|].
      destruct (String.eqb key "length"); [apply safe_ret; exact I|].
      pose proof (prop_get_fresh h0 key ex Hex) as H.
      destruct (prop_get key ex); [apply safe_ret, H|apply safe_not_own; exact I].
  - apply safe_member. constructor.
Qed.

(** A read of a property of any value writes nothing. *)
Lemma safe_get_prop_any obj key : safe h0 (λ _, True) (get_prop obj key).
Proof.
  unfold get_prop. apply safe_with_heap. intros h He.
  destruct obj as [| | | | |l|[]]; try apply safe_throw;
    try (apply safe_not_own; exact I); try apply safe_unmodelled;
    try apply safe_member_any.
  - destruct (is_array_index key); [apply safe_ret; exact I|].
    destruct (String.eqb key "length"); [apply safe_ret; exact I|].
    apply safe_not_own. exact I.
  - destruct (cell_at h l) as [ps|es ex]; [apply safe_member_any|].
    destruct (is_array_index key); [apply safe_ret; exact I|].
    destruct (String.eqb key "length"); [apply safe_ret; exact I|].
    destruct (prop_get key ex); [apply safe_ret; exact I|apply safe_not_own; exact I].
Qed.

Lemma safe_set_prop obj key v :
  vfresh h0 obj → vfresh h0 v → safe h0 (λ _, True) (set_prop obj key v).
Proof.
  intros Ho Hv. unfold set_prop. apply safe_with_heap. intros h He.
  destruct obj as [| | | | |l|b]; try apply safe_throw; try (apply safe_ret; exact I).
  - pose proof (cell_at_fresh h0 h l He Ho) as Hc.
    destruct (cell_at h l) as [ps|es ex].
    + assert (safe h0 (λ _, True) (put_cell l (CObj (prop_set key v ps)))) as Hput.
      { apply safe_put_cell; [exact Ho|]. apply prop_set_fresh; assumption. }
      destruct (prop_get key ps); [exact Hput|].
      destruct (String.eqb key "__proto__"); [apply safe_proto_setter|exact Hput].
    + destruct Hc as [Hes Hex]. destruct (is_array_index key).
      * apply safe_put_cell; [exact Ho|]. split; auto using elems_set_fresh.
      * assert (safe h0 (λ _, True) (put_cell l (CArr es (prop_set key v ex)))) as Hput.
        { apply safe_put_cell; [exact Ho|]. split; auto using prop_set_fresh. }
        destruct (prop_get key ex); [exact Hput|].
        destruct (String.eqb key "__proto__"); [apply safe_proto_setter|exact Hput].
  - destruct (String.eqb key "__proto__"); [apply safe_proto_setter|apply safe_unmodelled].
Qed.

Lemma safe_forEach_from f arr :
  vfresh h0 arr → (∀ v, vfresh h0 v → safe h0 (λ _, True) (f v)) →
  ∀ count i, safe h0 (λ _, True) (forEach_from f arr i count).
Proof.
  intros Ha Hf. induction count as [|count IH]; intros i; cbn [forEach_from].
  - apply safe_ret. exact I.
  - apply safe_with_heap. intros h He. apply safe_seq; [|apply IH].
    destruct (elems_of h arr) as [es|] eqn:E; [|apply safe_ret; exact I].
    destruct (es !! i) as [[v|]|] eqn:Ei; try (apply safe_ret; exact I).
    apply Hf. pose proof (elems_of_fresh h0 h arr es He Ha E) as Hes.
    eapply Forall_lookup_1 in Hes; [|exact Ei]. exact Hes.
Qed.

Lemma safe_call_forEach obj f :
  vfresh h0 obj → (∀ v, vfresh h0 v → safe h0 (λ _, True) (f v)) →
  safe h0 (λ _, True) (call_forEach obj f).
Proof.
  intros Ho Hf. unfold call_forEach. apply safe_with_heap. intros h He.
  destruct (elems_of h obj); [|apply safe_throw]. apply safe_forEach_from; assumption.
Qed.

Lemma safe_map_elems f :
  (∀ v, vfresh h0 v → safe h0 (vfresh h0) (f v)) →
  ∀ es, elems_fresh h0 es → safe h0 (elems_fresh h0) (map_elems f es).
Proof.
  intros Hf. induction es as [|[v|] es IH]; intros Hes; cbn [map_elems];
    try (inversion Hes as [|? ? Hv Hes']; subst).
  - apply safe_ret. constructor.
  - eapply safe_bind; [apply Hf, Hv|]. intros x Hx.
    eapply safe_bind; [apply IH, Hes'|]. intros r Hr.
    apply safe_ret. constructor; assumption.
  - eapply safe_bind; [apply IH, Hes'|]. intros r Hr.
    apply safe_ret. constructor; [exact I|assumption].
Qed.

Lemma safe_reduce {A} (step : jsval → A → M jsval) :
  (∀ acc x, vfresh h0 acc → safe h0 (vfresh h0) (step acc x)) →
  ∀ xs acc, vfresh h0 acc → safe h0 (vfresh h0) (reduce step xs acc).
Proof.
  intros Hs. induction xs as [|x xs IH]; intros acc Ha; cbn [reduce].
  - apply safe_ret, Ha.
  - eapply safe_bind; [apply Hs, Ha|]. intros acc' Ha'. apply IH, Ha'.
Qed.

Lemma safe_read_step rec cur key :
  (∀ item p, vfresh h0 item → safe h0 (vfresh h0) (rec item p)) →
  vfresh h0 cur → safe h0 (vfresh h0) (read_step rec cur key).
Proof.
  intros Hrec Hc. unfold read_step.
  destruct (String.eqb key ""); [apply safe_throw|].
  destruct (String.eqb key "*"); [apply safe_ret, Hc|].
  destruct (_ || _)%bool; apply safe_with_heap; intros h He.
  - destruct (elems_of h cur) as [es|] eqn:E; [|apply safe_ret; exact I].
    pose proof (elems_of_fresh h0 h cur es He Hc E) as Hes.
    destruct (String.eqb _ ""); [apply safe_ret; exact I|].
    destruct (isIndexKey _); [apply safe_ret, arr_at_fresh, Hes|].
    eapply safe_bind.
    + apply safe_map_elems; [|exact Hes]. intros item Hi.
      apply safe_with_heap. intros h' He'.
      destruct (isObject h' item); [apply Hrec, Hi|apply safe_ret; exact I].
    + intros mapped Hm. apply safe_alloc. split; [exact Hm|constructor].
  - destruct (props_of h cur) as [ps|] eqn:E; [|apply safe_ret; exact I].
    apply safe_member. eapply props_of_fresh; eauto.
Qed.

Lemma safe_readValue_aux : ∀ n obj path,
  vfresh h0 obj → safe h0 (vfresh h0) (readValue_aux n obj path).
Proof.
  induction n as [|n IH]; intros obj path Ho; cbn [readValue_aux].
  - apply safe_out_of_fuel.
  - destruct path; try apply safe_throw.
    destruct (String.eqb s ""); [apply safe_throw|].
    destruct (match_all read_re s); [|apply safe_ret; exact I].
    apply safe_reduce; [|exact Ho]. intros acc key Ha.
    apply safe_read_step; [|exact Ha]. intros item p Hi. apply IH, Hi.
Qed.

Lemma safe_readValue obj path :
  vfresh h0 obj → safe h0 (vfresh h0) (readValue obj path).
Proof. apply safe_readValue_aux. Qed.

Lemma nullish_fresh v : vfresh h0 v → vfresh h0 (nullish v).
Proof. destruct v; cbn; auto. Qed.

Lemma safe_getNextValue v nk e :
  vfresh h0 v → vfresh h0 e → safe h0 (vfresh h0) (getNextValue v nk e).
Proof.
  intros Hv He. unfold getNextValue. destruct nk as [k|].
  - apply safe_with_heap. intros h Hh. destruct (next_is_array _).
    + destruct (isArray h e); [apply safe_ret, He|].
      apply safe_alloc. split; constructor.
    + destruct (isObject h e); [apply safe_ret, He|].
      apply safe_alloc. constructor.
  - apply safe_ret. apply (nullish_fresh v Hv).
Qed.

Lemma safe_write_step rec v cur key nk :
  (∀ item p next, vfresh h0 item → vfresh h0 next → safe h0 (vfresh h0) (rec item p next)) →
  vfresh h0 v → vfresh h0 cur → safe h0 (vfresh h0) (write_step rec v cur key nk).
Proof.
  intros Hrec Hv Hc. unfold write_step.
  assert (∀ p, safe h0 (λ _, True)
            (call_forEach cur (λ item,
               let* next := getNextValue v nk VUndef in rec item (VStr p) next;; ret ())))
    as Hbroadcast.
  { intros p. apply safe_call_forEach; [exact Hc|]. intros item Hi.
    eapply safe_bind; [apply safe_getNextValue; [exact Hv|exact I]|].
    intros next Hn. eapply safe_bind; [apply Hrec; assumption|].
    intros _ _. apply safe_ret. exact I. }
  destruct (_ || _)%bool.
  - destruct (String.eqb _ "").
    + apply safe_seq; [|apply safe_call_at, Hc].
      apply safe_call_push; [exact Hc|]. apply safe_getNextValue; [exact Hv|exact I].
    + destruct (isIndexKey _).
      * eapply safe_bind; [apply safe_call_at, Hc|]. intros e He.
        apply safe_with_heap. intros h Hh.
        apply safe_seq; [|apply safe_call_at, Hc].
        destruct (shouldUpdate h nk e); [|apply safe_ret; exact I].
        eapply safe_bind; [apply safe_getNextValue; assumption|]. intros nv Hnv.
        destruct (test _ _); [apply safe_call_splice|apply safe_set_prop]; assumption.
      * apply safe_seq; [apply Hbroadcast|apply safe_ret, Hc].
  - apply safe_with_heap. intros h0' Hh0'.
    destruct (isArray h0' cur).
    + apply safe_seq; [apply Hbroadcast|apply safe_ret, Hc].
    + eapply safe_bind; [apply safe_get_prop, Hc|]. intros e He.
      apply safe_with_heap. intros h Hh.
      apply safe_seq; [|apply safe_get_prop, Hc].
      destruct (shouldUpdate h nk e).
      * eapply safe_bind; [apply safe_getNextValue; assumption|]. intros nv Hnv.
        apply safe_set_prop; assumption.
      * destruct (bool_decide _); [apply safe_set_prop; assumption|apply safe_ret; exact I].
Qed.

Lemma safe_write_segs rec v :
  (∀ item p next, vfresh h0 item → vfresh h0 next → safe h0 (vfresh h0) (rec item p next)) →
  vfresh h0 v →
  ∀ segments cur, vfresh h0 cur → safe h0 (vfresh h0) (write_segs rec v segments cur).
Proof.
  intros Hrec Hv. induction segments as [|key segments IH]; intros cur Hc; cbn [write_segs].
  - apply safe_ret, Hc.
  - eapply safe_bind; [apply safe_write_step; assumption|]. intros next Hn. apply IH, Hn.
Qed.

Lemma safe_writeValue : ∀ n obj path v,
  vfresh h0 obj → vfresh h0 v → safe h0 (vfresh h0) (writeValue n obj path v).
Proof.
  induction n as [|n IH]; intros obj path v Ho Hv; cbn [writeValue].
  - apply safe_out_of_fuel.
  - destruct path; try apply safe_throw.
    eapply safe_bind with (P := λ _, True).
    + destruct (isUndefined v); [|apply safe_ret; exact I].
      eapply safe_bind; [apply safe_readValue, Ho|]. intros r _. apply safe_ret. exact I.
    + intros [|] _; [apply safe_ret, Ho|].
      destruct (match_all write_re s); [|apply safe_ret, Ho].
      eapply safe_bind; [apply safe_write_segs; auto|]. intros _ _. apply safe_ret, Ho.
Qed.

End FrameOps.

(** An induction principle for trees that reaches the items of arrays and
    the fields of objects. *)
Lemma json_nested_ind (P : json → Prop)
    (Hnull : P JNull) (Hbool : ∀ b, P (JBool b)) (Hnum : ∀ n, P (JNum n))
    (Hstr : ∀ s, P (JStr s))
    (Harr : ∀ items, Forall P items → P (JArr items))
    (Hobj : ∀ fields, Forall (λ kv, P (snd kv)) fields → P (JObj fields)) :
  ∀ j, P j.
Proof.
  fix IH 1. intros [|b|n|s|items|fields];
    [exact Hnull|apply Hbool|apply Hnum|apply Hstr| |].
  - apply Harr. induction items as [|j items IHitems]; constructor; [apply IH|exact IHitems].
  - apply Hobj. induction fields as [|[k j] fields IHfields]; constructor;
      [apply IH|exact IHfields].
Qed.

Section FrameMap.
Variable h0 : heap.

Lemma safe_resolveMap obj map :
  vfresh h0 obj → safe h0 (λ r, vfresh h0 (snd r)) (resolveMap obj map).
Proof.
  intros Ho. unfold resolveMap. destruct map; try apply safe_throw.
  eapply safe_bind; [apply safe_readValue, Ho|]. intros v Hv. apply safe_ret, Hv.
Qed.

Lemma safe_resolve_mapper obj items :
  vfresh h0 obj →
  safe h0 (λ m, vfresh h0 (snd (fst m))) (resolve_mapper obj items).
Proof.
  intros Ho. unfold resolve_mapper.
  destruct items as [|[s| |] rest]; try (apply safe_ret; exact Ho).
  destruct (isMapper s); [|apply safe_ret; exact Ho].
  eapply safe_bind with (P := vfresh h0).
  - destruct (negb _); [apply safe_readValue, Ho|apply safe_ret, Ho].
  - intros src Hs. apply safe_ret, Hs.
Qed.

Lemma add_prefix_fresh p rs : pairs_fresh h0 rs → pairs_fresh h0 (List.map (add_prefix p) rs).
Proof.
  unfold pairs_fresh. intros H. apply Forall_forall. intros r Hr.
  apply list_elem_of_In, in_map_iff in Hr as (r' & <- & Hr').
  rewrite Forall_forall in H. cbn [add_prefix snd].
  apply (H r'), list_elem_of_In, Hr'.
Qed.

Lemma safe_resolve_items rec src prefix :
  (∀ obj m, vfresh h0 obj → safe h0 (pairs_fresh h0) (rec obj m)) →
  vfresh h0 src →
  ∀ items, safe h0 (pairs_fresh h0) (resolve_items rec src prefix items).
Proof.
  intros Hrec Hs. induction items as [|item items IH]; cbn [resolve_items].
  - apply safe_ret. constructor.
  - eapply safe_bind with (P := pairs_fresh h0).
    + destruct item as [s|l|].
      * destruct (test multi_re s).
        -- eapply safe_bind; [apply Hrec, Hs|]. intros rs Hrs.
           apply safe_ret, add_prefix_fresh, Hrs.
        -- eapply safe_bind; [apply safe_resolveMap, Hs|]. intros r Hr.
           apply safe_ret. repeat constructor. exact Hr.
      * eapply safe_bind; [apply Hrec, Hs|]. intros rs Hrs.
        apply safe_ret, add_prefix_fresh, Hrs.
      * apply safe_ret. constructor.
    + intros here Hh. eapply safe_bind; [apply IH|]. intros others Hot.
      apply safe_ret. apply Forall_app. split; assumption.
Qed.

Lemma safe_resolveMapArray : ∀ n obj mapArray,
  vfresh h0 obj → safe h0 (pairs_fresh h0) (resolveMapArray n obj mapArray).
Proof.
  induction n as [|n IH]; intros obj mapArray Ho; cbn [resolveMapArray].
  - apply safe_out_of_fuel.
  - destruct mapArray as [|items|]; try apply safe_throw.
    eapply safe_bind; [apply safe_resolve_mapper, Ho|].
    intros [[working src] prefix] Hs. cbn [fst snd] in Hs.
    destruct (_ || _)%bool; [apply safe_ret; constructor|].
    apply safe_resolve_items; [|exact Hs]. intros o m Hom. apply IH, Hom.
Qed.

Lemma safe_assign_props target :
  vfresh h0 target →
  ∀ ps, props_fresh h0 ps → safe h0 (λ _, True) (assign_props target ps).
Proof.
  intros Ht. induction ps as [|[k v] ps IH]; intros Hps; cbn [assign_props].
  - apply safe_ret. exact I.
  - inversion Hps as [|? ? Hv Hps']; subst.
    apply safe_seq; [apply safe_set_prop; assumption|apply IH, Hps'].
Qed.

Lemma safe_push_all target items :
  vfresh h0 target → elems_fresh h0 items → safe h0 (λ _, True) (push_all target items).
Proof.
  intros Ht Hes. unfold push_all. apply safe_push_now; [exact Ht|].
  apply Forall_forall. intros v Hv.
  apply list_elem_of_In, in_map_iff in Hv as (e & <- & He).
  unfold elems_fresh in Hes. rewrite Forall_forall in Hes.
  specialize (Hes e (proj2 (list_elem_of_In _ _) He)). destruct e; [exact Hes|exact I].
Qed.

Lemma safe_apply_field n newObj field :
  vfresh h0 newObj → vfresh h0 (snd field) →
  safe h0 (vfresh h0) (apply_field n newObj field).
Proof.
  intros Hn Hf. unfold apply_field. destruct field as [identifier value]. cbn [snd] in Hf.
  destruct (String.eqb identifier "*").
  - apply safe_with_heap. intros h He.
    destruct (elems_of h newObj) as [es|] eqn:E1.
    + destruct (elems_of h value) as [items|] eqn:E2.
      * apply safe_seq; [|apply safe_ret, Hn].
        apply safe_push_all; [exact Hn|]. eapply elems_of_fresh; eauto.
      * destruct (props_of h newObj) as [ps1|];
          [destruct (props_of h value) as [ps|] eqn:E3|]; try (apply safe_ret, Hf).
        apply safe_seq; [|apply safe_ret, Hn].
        apply safe_assign_props; [exact Hn|]. eapply props_of_fresh; eauto.
    + destruct (props_of h newObj) as [ps1|];
        [destruct (props_of h value) as [ps|] eqn:E3|]; try (apply safe_ret, Hf).
      apply safe_seq; [|apply safe_ret, Hn].
      apply safe_assign_props; [exact Hn|]. eapply props_of_fresh; eauto.
  - apply safe_seq; [|apply safe_ret, Hn].
    eapply safe_weaken; [apply safe_writeValue; assumption|]. auto.
Qed.

Lemma safe_apply_fields n : ∀ fields newObj,
  vfresh h0 newObj → pairs_fresh h0 fields →
  safe h0 (vfresh h0) (apply_fields n newObj fields).
Proof.
  induction fields as [|f fields IH]; intros newObj Hn Hfs; cbn [apply_fields].
  - apply safe_ret, Hn.
  - inversion Hfs as [|? ? Hf Hfs']; subst.
    eapply safe_bind; [apply safe_apply_field; assumption|].
    intros newObj' Hn'. apply IH; assumption.
Qed.

Lemma safe_processMap n sourceObj newObj mapSpec :
  vfresh h0 sourceObj → vfresh h0 newObj →
  safe h0 (vfresh h0) (processMap n sourceObj newObj mapSpec).
Proof.
  intros Hs Hn. unfold processMap.
  destruct (toMapArray mapSpec) as [|items|] eqn:E; try (apply safe_ret, Hn).
  eapply safe_bind; [apply safe_resolveMapArray, Hs|].
  intros fields Hf. apply safe_apply_fields; assumption.
Qed.

Lemma safe_process_all n sourceObj : ∀ fields newObj,
  vfresh h0 sourceObj → vfresh h0 newObj →
  safe h0 (vfresh h0) (process_all n sourceObj newObj fields).
Proof.
  induction fields as [|f fields IH]; intros newObj Hs Hn; cbn [process_all].
  - apply safe_ret, Hn.
  - eapply safe_bind; [apply safe_processMap; assumption|].
    intros newObj' Hn'. apply IH; assumption.
Qed.

Lemma safe_parse : ∀ j, safe h0 (vfresh h0) (parse j).
Proof.
  induction j as [| | | |items IH|fields IH] using json_nested_ind; cbn [parse];
    try (apply safe_ret; exact I).
  - eapply safe_bind with (P := elems_fresh h0).
    + induction IH as [|j items Hj _ IHitems]; cbn [parse_items_with].
      * apply safe_ret. constructor.
      * eapply safe_bind; [exact Hj|]. intros v Hv.
        eapply safe_bind; [exact IHitems|]. intros r Hr.
        apply safe_ret. constructor; assumption.
    + intros es Hes. apply safe_alloc. split; [exact Hes|constructor].
  - eapply safe_bind with (P := props_fresh h0).
    + assert (props_fresh h0 []) as Hacc by constructor. revert Hacc.
      generalize (@nil (string * jsval)) as acc.
      induction IH as [|[k j] fields Hj _ IHfields]; intros acc Hacc;
        cbn [parse_fields_with].
      * apply safe_ret, Hacc.
      * eapply safe_bind; [exact Hj|]. intros v Hv.
        apply IHfields. apply prop_set_fresh; assumption.
    + intros ps Hps. apply safe_alloc. exact Hps.
Qed.

Lemma safe_json_clone v : safe h0 (vfresh h0) (json_clone v).
Proof.
  unfold json_clone. apply safe_with_heap. intros h He.
  destruct (stringify _ h v) as [[j|]|]; try apply safe_throw. apply safe_parse.
Qed.

Lemma safe_mapObject n obj fields : safe h0 (vfresh h0) (mapObject n obj fields).
Proof.
  unfold mapObject. apply safe_with_heap. intros h He.
  eapply safe_bind with (P := vfresh h0).
  { apply safe_alloc. destruct (isArray h obj); [split|]; constructor. }
  intros newObj Hn.
  eapply safe_bind with (P := λ _, True).
  { destruct (truthy obj); [apply safe_get_prop_any|apply safe_ret; exact I]. }
  intros toObject _.
  eapply safe_bind with (P := λ _, True).
  { destruct (truthy toObject); [apply safe_throw|apply safe_ret; exact I]. }
  intros plain _.
  eapply safe_bind; [apply safe_json_clone|].
  intros sourceObj Hs. apply safe_process_all; assumption.
Qed.

End FrameMap.

(** [mapObject] writes to no cell that existed before the call. *)
Lemma mapObject_frame n obj fields h :
  take (length h) (snd (mapObject n obj fields h)) = h.
Proof.
  destruct (safe_mapObject h n obj fields h (extends_refl h)) as [[Ht _] _]. exact Ht.
Qed.

(** ** The tree of a value in a larger heap *)

Lemma mapM_agree {A B} (f g : A → option B) l r :
  mapM f l = Some r →
  (∀ x y, x ∈ l → f x = Some y → g x = Some y) →
  mapM g l = Some r.
Proof.
  revert r. induction l as [|x l IH]; intros r Hf Hfg; cbn in *; [exact Hf|].
  destruct (f x) as [y|] eqn:Ex; [|discriminate Hf]. cbn in Hf.
  destruct (mapM f l) as [r'|] eqn:El; [|discriminate Hf]. cbn in Hf.
  rewrite (Hfg x y) by (auto; left). cbn.
  rewrite (IH r' eq_refl) by (intros; apply Hfg; auto; right; assumption).
  exact Hf.
Qed.

Lemma mapM_same {A B} (f g : A → option B) l :
  (∀ x, x ∈ l → f x = g x) → mapM f l = mapM g l.
Proof.
  induction l as [|x l IH]; intros H; cbn; [reflexivity|].
  rewrite (H x) by left. rewrite IH by (intros; apply H; right; assumption). reflexivity.
Qed.

Lemma stringify_mono : ∀ n m h v x,
  stringify n h v = Some x → n ≤ m → stringify m h v = Some x.
Proof.
  induction n as [|n IH]; intros m h v x H Hnm.
  - destruct v; cbn in H; try discriminate H; destruct m; exact H.
  - destruct m as [|m]; [lia|]. destruct v; try exact H.
    cbn [stringify] in *. destruct (cell_at h l) as [ps|es ex].
    + destruct (mapM _ ps) as [fs|] eqn:E; [|discriminate H].
      erewrite mapM_agree; [exact H|exact E|].
      intros kv y _ Hy. cbn beta in Hy.
      destruct (stringify n h (snd kv)) as [o|] eqn:Es; [|discriminate Hy].
      rewrite (IH m h _ o Es) by lia. exact Hy.
    + destruct (mapM _ es) as [js|] eqn:E; [|discriminate H].
      erewrite mapM_agree; [exact H|exact E|].
      intros [v'|] y _ Hy; [|exact Hy]. cbn beta iota in Hy.
      destruct (stringify n h v') as [o|] eqn:Es; [|discriminate Hy].
      rewrite (IH m h _ o Es) by lia. exact Hy.
Qed.

Lemma stringify_extend h h2 : heap_closed h →
  ∀ n v, vbound (length h) v → stringify n (h ++ h2) v = stringify n h v.
Proof.
  intros Hc. induction n as [|n IH]; intros v Hv; destruct v; try reflexivity.
  cbn [stringify vbound] in *. rewrite cell_at_app by exact Hv.
  assert (cell_bound (length h) (cell_at h l)) as Hb.
  { unfold cell_at. destruct (h !! l) as [c|] eqn:E; [|constructor].
    unfold heap_closed in Hc. eapply Forall_lookup_1 in Hc; eauto. }
  destruct (cell_at h l) as [ps|es ex].
  - erewrite mapM_same; [reflexivity|]. intros kv Hkv. cbn in Hb.
    rewrite Forall_forall in Hb. rewrite IH by (apply Hb, Hkv). reflexivity.
  - erewrite mapM_same; [reflexivity|]. intros [v'|] He; [|reflexivity].
    destruct Hb as [Hb _]. rewrite Forall_forall in Hb.
    rewrite IH by (apply (Hb (Some v')), He). reflexivity.
Qed.

(** The tree of a value of a closed heap is the same in every heap that
    starts with that heap. *)
Lemma tree_of_extend h h' v t :
  heap_closed h → vbound (length h) v → take (length h) h' = h →
  tree_of h v = Some t → tree_of h' v = Some t.
Proof.
  intros Hc Hv Ht H. unfold tree_of in *.
  rewrite <- (take_drop (length h) h'), Ht.
  rewrite stringify_extend by assumption.
  eapply stringify_mono; [exact H|]. rewrite length_app. lia.
Qed.

(** ** Parsing a tree and printing it back *)

Lemma wf_json_items items : wf_json (JArr items) ↔ Forall wf_json items.
Proof.
  cbn [wf_json]. induction items as [|x l IH].
  - split; [constructor|exact (λ _, I)].
  - rewrite Forall_cons, <- IH. reflexivity.
Qed.

Lemma wf_json_fields fields :
  wf_json (JObj fields)
  ↔ NoDup (List.map fst fields) ∧ Forall (λ kv, wf_json (snd kv)) fields.
Proof.
  cbn [wf_json]. apply and_iff_compat_l.
  induction fields as [|[k x] l IH].
  - split; [constructor|exact (λ _, I)].
  - rewrite Forall_cons, <- IH. reflexivity.
Qed.

Lemma bind_ok {A B} (m : M A) (f : A → M B) h a h' :
  m h = (Ok a, h') → bind m f h = f a h'.
Proof. intros H. unfold bind. rewrite H. reflexivity. Qed.

Lemma vbound_mono n m v : n ≤ m → vbound n v → vbound m v.
Proof. destruct v; cbn; auto; lia. Qed.

Lemma cell_bound_mono n m c : n ≤ m → cell_bound n c → cell_bound m c.
Proof.
  intros Hnm. destruct c as [ps|es ex]; cbn.
  - intros Hp. eapply Forall_impl; [exact Hp|]. intros kv. apply vbound_mono, Hnm.
  - intros [He Hx]. split.
    + eapply Forall_impl; [exact He|]. intros [v|]; [apply vbound_mono, Hnm|auto].
    + eapply Forall_impl; [exact Hx|]. intros kv. apply vbound_mono, Hnm.
Qed.

Lemma heap_closed_alloc h c :
  heap_closed h → cell_bound (length h) c → heap_closed (h ++ [c]).
Proof.
  unfold heap_closed. intros Hh Hc. rewrite length_app. cbn [length].
  apply Forall_app. split.
  - eapply Forall_impl; [exact Hh|]. intros c'. apply cell_bound_mono. lia.
  - constructor; [|constructor]. revert Hc. apply cell_bound_mono. lia.
Qed.

Lemma stands_for_extend h h2 v j :
  heap_closed h → stands_for h v j → stands_for (h ++ h2) v j.
Proof.
  intros Hc [Hv Ht]. split.
  - revert Hv. apply vbound_mono. rewrite length_app. lia.
  - eapply tree_of_extend; [exact Hc|exact Hv| |exact Ht].
    apply take_app_length.
Qed.

Lemma prop_set_new k v ps :
  k ∉ List.map fst ps → prop_set k v ps = ps ++ [(k, v)].
Proof.
  induction ps as [|[k' v'] ps IH]; intros Hk; cbn [prop_set]; [reflexivity|].
  cbn [List.map fst] in Hk. apply not_elem_of_cons in Hk as [Hne Hk].
  destruct (String.eqb k' k) eqn:E.
  - apply String.eqb_eq in E. congruence.
  - rewrite IH by exact Hk. reflexivity.
Qed.

Lemma parse_items_spec items :
  Forall parses items →
  ∀ h, heap_closed h →
    ∃ es h2, parse_items_with parse items h = (Ok es, h ++ h2)
             ∧ heap_closed (h ++ h2)
             ∧ Forall2 (λ j e, ∃ v, e = Some v ∧ stands_for (h ++ h2) v j) items es.
Proof.
  induction 1 as [|j items Hj _ IH]; intros h Hc.
  - exists [], []. rewrite app_nil_r. repeat split; [exact Hc|constructor].
  - destruct (Hj h Hc) as (v & a & E & Hca & Hv).
    destruct (IH (h ++ a) Hca) as (es & b & E2 & Hcb & HF).
    exists (Some v :: es), (a ++ b). cbn [parse_items_with].
    erewrite bind_ok by exact E. erewrite bind_ok by exact E2.
    rewrite app_assoc. repeat split; [exact Hcb|].
    constructor; [|exact HF].
    exists v. split; [reflexivity|]. apply stands_for_extend; assumption.
Qed.

Lemma parse_fields_spec fields :
  Forall (λ kv, parses (snd kv)) fields → NoDup (List.map fst fields) →
  ∀ acc h, heap_closed h →
    (∀ k, k ∈ List.map fst fields → k ∉ List.map fst acc) →
    ∃ ps h2, parse_fields_with parse fields acc h = (Ok (acc ++ ps), h ++ h2)
             ∧ heap_closed (h ++ h2)
             ∧ Forall2 (λ kj kv, fst kv = fst kj
                                 ∧ stands_for (h ++ h2) (snd kv) (snd kj))
                 fields ps.
Proof.
  induction 1 as [|[k j] fields Hj _ IH]; intros Hnd acc h Hc Hacc.
  - exists [], []. rewrite !app_nil_r. repeat split; [exact Hc|constructor].
  - cbn [List.map fst] in Hnd, Hacc. apply NoDup_cons in Hnd as [Hk Hnd].
    destruct (Hj h Hc) as (v & a & E & Hca & Hv). cbn [snd] in E, Hv.
    destruct (IH Hnd (acc ++ [(k, v)]) (h ++ a) Hca) as (ps & b & E2 & Hcb & HF).
    { intros k' Hk'. rewrite map_app. cbn [List.map fst].
      rewrite elem_of_app, list_elem_of_singleton. intros [Hin| ->].
      - exact (Hacc k' (list_elem_of_further _ _ _ Hk') Hin).
      - exact (Hk Hk'). }
    exists ((k, v) :: ps), (a ++ b). cbn [parse_fields_with].
    erewrite bind_ok by exact E.
    rewrite prop_set_new by (apply Hacc; left).
    rewrite E2, (app_assoc h a b), <- (app_assoc acc [(k, v)] ps).
    split; [reflexivity|]. split; [exact Hcb|].
    constructor; [|exact HF].
    split; [reflexivity|]. apply stands_for_extend; assumption.
Qed.

Lemma stringify_items h n items es :
  Forall2 (λ j e, ∃ v, e = Some v ∧ stringify n h v = Some (Some j)) items es →
  mapM (λ e : option jsval,
          match e with
          | None => Some JNull
          | Some v' =>
              match stringify n h v' with
              | Some (Some j) => Some j
              | Some None => Some JNull
              | None => None
              end
          end) es = Some items.
Proof.
  intros H. apply mapM_Some. induction H as [|j e items es (v & -> & Hv) _ IH];
    constructor; [|exact IH].
  rewrite Hv. reflexivity.
Qed.

Lemma stringify_fields h n fields ps :
  Forall2 (λ (kj : string * json) (kv : string * jsval),
             fst kv = fst kj ∧ stringify n h (snd kv) = Some (Some (snd kj)))
    fields ps →
  ∃ fs, mapM (λ kv : string * jsval,
                match stringify n h (snd kv) with
                | Some (Some j) => Some [(fst kv, j)]
                | Some None => Some []
                | None => None
                end) ps = Some fs
        ∧ concat fs = fields.
Proof.
  induction 1 as [|[k j] [k' v] fields ps [Hk Hv] _ (fs & E & Hfs)].
  - exists []. split; reflexivity.
  - cbn [fst snd] in Hk, Hv. subst k'. exists ([(k, j)] :: fs).
    cbn [mapM snd fst]. rewrite Hv, E. cbn. rewrite Hfs. split; reflexivity.
Qed.

(** [JSON.parse] succeeds on every tree without a repeated key, touches
    no cell of the heap, and [JSON.stringify] of its result is the tree
    again. *)
Lemma parse_spec : ∀ j, wf_json j → parses j.
Proof.
  induction j as [| | | |items IH|fields IH] using json_nested_ind; intros Hwf;
    try (intros h Hc; eexists _, []; rewrite app_nil_r;
         repeat split; exact Hc).
  - apply wf_json_items in Hwf.
    assert (Forall parses items) as Hall.
    { rewrite Forall_forall in *. auto. }
    intros h Hc. destruct (parse_items_spec items Hall h Hc) as (es & a & E & Hca & HF).
    exists (VRef (length (h ++ a))), (a ++ [CArr es []]).
    cbn [parse]. erewrite bind_ok by exact E. rewrite app_assoc.
    assert (heap_closed ((h ++ a) ++ [CArr es []])) as Hc2.
    { apply heap_closed_alloc; [exact Hca|]. split; [|constructor].
      clear -HF. induction HF as [|j e items es (v & -> & Hv & _) _ IH];
        constructor; [exact Hv|exact IH]. }
    repeat split; [exact Hc2| |].
    + cbn. rewrite !length_app. cbn. lia.
    + unfold tree_of. cbn [stringify]. rewrite cell_at_alloc.
      erewrite stringify_items; [reflexivity|].
      eapply Forall2_impl; [exact HF|]. intros j e (v & -> & Hv & Ht).
      exists v. split; [reflexivity|].
      rewrite stringify_extend by assumption.
      eapply stringify_mono; [exact Ht|]. rewrite !length_app. cbn. lia.
  - apply wf_json_fields in Hwf as [Hnd Hwf].
    assert (Forall (λ kv, parses (snd kv)) fields) as Hall.
    { rewrite Forall_forall in *. auto. }
    intros h Hc.
    destruct (parse_fields_spec fields Hall Hnd [] h Hc) as (ps & a & E & Hca & HF).
    { intros k _ Hk. inversion Hk. }
    cbn [app] in E.
    exists (VRef (length (h ++ a))), (a ++ [CObj ps]).
    cbn [parse]. erewrite bind_ok by exact E. rewrite app_assoc.
    assert (heap_closed ((h ++ a) ++ [CObj ps])) as Hc2.
    { apply heap_closed_alloc; [exact Hca|]. cbn.
      clear -HF. induction HF as [|kj kv fields ps (_ & Hv & _) _ IH];
        constructor; [exact Hv|exact IH]. }
    repeat split; [exact Hc2| |].
    + cbn. rewrite !length_app. cbn. lia.
    + unfold tree_of. cbn [stringify]. rewrite cell_at_alloc.
      destruct (stringify_fields ((h ++ a) ++ [CObj ps])
                  (length ((h ++ a) ++ [CObj ps])) fields ps) as (fs & Em & Hfs).
      { eapply Forall2_impl; [exact HF|]. intros kj kv (Hk & Hv & Ht).
        split; [exact Hk|]. rewrite stringify_extend by assumption.
        eapply stringify_mono; [exact Ht|]. rewrite !length_app. cbn. lia. }
      rewrite Em, Hfs. reflexivity.
Qed.

Lemma parse_empty j :
  wf_json j →
  ∃ v h, run (parse j) [] = (Ok v, h) ∧ heap_closed h ∧ stands_for h v j.
Proof.
  intros Hwf. destruct (parse_spec j Hwf [] (Forall_nil_2 _)) as (v & h & E & Hc & Hs).
  exists v, h. auto.
Qed.

Lemma stands_for_not_null h v j : stands_for h v j → j ≠ JNull → v ≠ VNull.
Proof. intros [_ Ht] Hj ->. apply Hj. cbn in Ht. congruence. Qed.

(** The round trip on a value given as a tree. *)
Lemma round_trip_tree_ok n segs j :
  valid_path segs → no_inherited segs → wf_json j → j ≠ JNull →
  round_trip_tree (S n) (path_text segs) j = Ok (Some (Some j)).
Proof.
  intros Hp Hpf Hwf Hj. destruct (parse_empty j Hwf) as (v & h & E & Hc & Hs).
  destruct (round_trip_fresh n h segs v Hp Hpf) as (h' & H & Hf).
  rewrite nullish_id in H by exact (stands_for_not_null h v j Hs Hj).
  unfold round_trip_tree, run in *. erewrite bind_ok by exact E.
  erewrite bind_ok by exact H. rewrite run_get_heap. unfold ret. cbn [fst].
  destruct Hs as [Hv Ht]. rewrite (tree_of_extend h h' v _ Hc Hv Hf Ht). reflexivity.
Qed.

(** The source of [mapObject], given as a tree, after the call. *)
Lemma source_after_ok n j fields :
  wf_json j → source_after n j fields = Some (Some j).
Proof.
  intros Hwf. destruct (parse_empty j Hwf) as (v & h & E & Hc & [Hv Ht]).
  unfold source_after. rewrite E.
  eapply tree_of_extend; [exact Hc|exact Hv|apply mapObject_frame|exact Ht].
Qed.

(** * Lemmas behind the further properties *)

(** ** The matcher finds every word of a pattern without anchors *)

Lemma star_loop_complete a k
    (IHa : ∀ w, lang a w → ∀ pre suf k x,
             k (rev w ++ pre, suf) = Some x →
             is_Some (rmatch true a (pre, w ++ suf) k)) :
  ∀ ws, Forall (lang a) ws →
  ∀ n pre suf x,
    length (concat ws ++ suf) ≤ n →
    k (rev (concat ws) ++ pre, suf) = Some x →
    is_Some (star_loop (rmatch true a) k n (pre, concat ws ++ suf)).
Proof.
  induction 1 as [|w ws Hw Hws IH]; intros n pre suf x Hn Hk; rewrite star_loop_eq.
  - cbn [concat app rev] in *. destruct (rmatch true a _ _); [eauto|]. rewrite Hk. eauto.
  - destruct w as [|c w].
    + specialize (IH n pre suf x Hn Hk). rewrite star_loop_eq in IH. exact IH.
    + cbn [concat] in *. rewrite <- app_assoc in Hn |- *.
      destruct n as [|n]; [cbn in Hn; lia|].
      destruct (IH n (rev (c :: w) ++ pre) suf x) as [y Hy].
      { rewrite length_app in Hn. cbn [length] in Hn. lia. }
      { rewrite rev_app_distr, <- app_assoc in Hk. exact Hk. }
      destruct (IHa (c :: w) Hw pre (concat ws ++ suf)
                  (λ st' : mstate,
                     if Nat.eqb (pos st') (pos (pre, (c :: w) ++ concat ws ++ suf))
                          then None
                          else star_loop (rmatch true a) k n st') y) as [z Hz].
      { unfold pos. cbn [fst]. rewrite length_app, length_rev.
        rewrite (proj2 (Nat.eqb_neq _ _)) by (cbn; lia). exact Hy. }
      rewrite Hz. eauto.
Qed.

Lemma rmatch_complete r : plain r = true →
  ∀ w, lang r w → ∀ pre suf k x,
    k (rev w ++ pre, suf) = Some x →
    is_Some (rmatch true r (pre, w ++ suf) k).
Proof.
  induction r as [p| |a IHa b IHb|a IHa b IHb|a IHa| | |a IHa|a IHa];
    intros Hp w Hw pre suf k x Hk; cbn [plain lang] in *; try discriminate Hp.
  - destruct Hw as (c & -> & Hc). cbn [app]. rewrite rmatch_char_cons, Hc. eauto.
  - subst w. rewrite rmatch_eps. eauto.
  - apply andb_true_iff in Hp as [Hpa Hpb].
    destruct Hw as (w1 & w2 & -> & Hw1 & Hw2).
    rewrite rmatch_seq, <- app_assoc.
    rewrite rev_app_distr, <- app_assoc in Hk.
    destruct (IHb Hpb w2 Hw2 _ _ _ _ Hk) as [y Hy].
    exact (IHa Hpa w1 Hw1 pre (w2 ++ suf) _ y Hy).
  - apply andb_true_iff in Hp as [Hpa Hpb]. rewrite rmatch_alt.
    destruct (rmatch true a (pre, w ++ suf) k) eqn:E; [eauto|].
    destruct Hw as [Hw|Hw].
    + destruct (IHa Hpa w Hw pre suf k x Hk) as [y Hy]. congruence.
    + exact (IHb Hpb w Hw pre suf k x Hk).
  - destruct Hw as (ws & -> & Hws). rewrite rmatch_star.
    eapply star_loop_complete; eauto.
    cbn [fst snd]. lia.
Qed.

(** The words of a class taken one or more times. *)
Lemma lang_plus_class p w :
  lang (RPlus (RChar p)) w ↔ w ≠ [] ∧ Forall (λ c, p c = true) w.
Proof.
  split.
  - intros H. split.
    + apply lang_minlen in H. cbn in H. intros ->. cbn in H. lia.
    + eapply Forall_impl; [apply lang_alphabet, H|]. cbn. intros c Hc.
      destruct (p c); [reflexivity|discriminate Hc].
  - intros [Hne Hw]. destruct w as [|c w]; [done|].
    inversion Hw as [|? ? Hc Hw']; subst.
    exists [c], w. split; [reflexivity|]. split; [exists c; auto|].
    exists (List.map (λ c, [c]) w). split.
    + clear. induction w as [|c w IH]; [reflexivity|]. cbn. f_equal. exact IH.
    + clear -Hw'. induction Hw' as [|c w Hc _ IH]; constructor; [exists c; auto|exact IH].
Qed.

Lemma lang_star_class p w :
  lang (RStar (RChar p)) w ↔ Forall (λ c, p c = true) w.
Proof.
  split.
  - intros H. eapply Forall_impl; [apply lang_alphabet, H|]. cbn. intros c Hc. exact Hc.
  - intros Hw. exists (List.map (λ c, [c]) w). split.
    + clear. induction w as [|c w IH]; [reflexivity|]. cbn. f_equal. exact IH.
    + induction Hw as [|c w Hc _ IH]; constructor; [exists c; auto|exact IH].
Qed.

(** What is left after a match that ends with [$]. *)
Lemma eol_cont st res : rmatch true REol st Some = Some res → snd st = [] ∧ res = st.
Proof.
  destruct st as [pre [|c suf]]; [rewrite rmatch_eol_nil|rewrite rmatch_eol_cons];
    intros H; [|discriminate H].
  injection H as <-. auto.
Qed.

(** A pattern that ends with [$], read as its body run up to the end. *)
Lemma rmatch_eol2 a b st :
  rmatch true (a ⊙ b ⊙ REol)%re st Some
  = rmatch true (a ⊙ b)%re st (λ st', rmatch true REol st' Some).
Proof. with_strategy transparent [rmatch] reflexivity. Qed.

Lemma rmatch_eol3 a b c st :
  rmatch true (a ⊙ b ⊙ c ⊙ REol)%re st Some
  = rmatch true (a ⊙ b ⊙ c)%re st (λ st', rmatch true REol st' Some).
Proof. with_strategy transparent [rmatch] reflexivity. Qed.

(** A pattern without anchors, run from the start of a string up to its
    end, succeeds exactly on the words of its language. *)
Lemma anchored_plain r cs :
  plain r = true →
  is_Some (rmatch true r ([], cs) (λ st, rmatch true REol st Some)) ↔ lang r cs.
Proof.
  intros Hp. split.
  - intros [res H]. apply rmatch_sound in H as (w & suf & -> & Hw & Hk).
    apply eol_cont in Hk as [Hs _]. cbn [snd] in Hs. subst suf.
    rewrite app_nil_r. exact Hw.
  - intros Hw. rewrite <- (app_nil_r cs).
    eapply (rmatch_complete r Hp cs Hw [] []). apply rmatch_eol_nil.
Qed.

Lemma test_from_alt_anchored a b : ∀ suf c pre,
  test_from ((RBol ⊙ a) ⊕ (RBol ⊙ b))%re (c :: pre) suf = false.
Proof.
  induction suf as [|d suf IH]; intros c pre; cbn [test_from]; unfold exec;
    rewrite rmatch_alt, !rmatch_seq, !rmatch_bol_cons; [reflexivity|apply IH].
Qed.

Lemma test_alt_anchored a b (s : string) :
  test ((RBol ⊙ a) ⊕ (RBol ⊙ b))%re s =
  bool_decide (is_Some (rmatch true a ([], list_ascii_of_string s) Some))
  || bool_decide (is_Some (rmatch true b ([], list_ascii_of_string s) Some)).
Proof.
  unfold test. destruct (list_ascii_of_string s) as [|c cs]; cbn [test_from]; unfold exec;
    rewrite rmatch_alt, !rmatch_seq, !rmatch_bol_nil.
  - destruct (rmatch true a _ _); [reflexivity|]. destruct (rmatch true b _ _); reflexivity.
  - destruct (rmatch true a _ _); [reflexivity|].
    destruct (rmatch true b _ _); [reflexivity|]. apply test_from_alt_anchored.
Qed.

Lemma join_dots_cons w ws :
  join_dots (w :: ws) = w ++ concat (List.map (cons "."%char) ws).
Proof.
  revert w. induction ws as [|w' ws IH]; intros w.
  - cbn. rewrite app_nil_r. reflexivity.
  - change (join_dots (w :: w' :: ws)) with (w ++ "."%char :: join_dots (w' :: ws)).
    rewrite IH. reflexivity.
Qed.

Lemma keyrun_lang w : keyrun w ↔ lang (RPlus kc) w.
Proof. unfold kc, keyrun. rewrite lang_plus_class. reflexivity. Qed.

(** The words of [keypath] are the dotted runs of key characters. *)
Lemma lang_keypath_dotted w : lang keypath w ↔ dotted w.
Proof.
  unfold keypath, dotted. split.
  - intros (w1 & w2 & -> & H1 & us & -> & Hus).
    assert (∃ bs, us = List.map (cons "."%char) bs ∧ Forall keyrun bs) as (bs & -> & Hbs).
    { clear -Hus. induction Hus as [|u us Hu _ (bs & -> & Hbs)].
      - exists []. split; [reflexivity|constructor].
      - destruct Hu as (a & b & -> & Ha & Hb). apply lang_lit in Ha. subst a.
        exists (b :: bs). split; [reflexivity|]. constructor; [|exact Hbs].
        apply keyrun_lang, Hb. }
    exists (w1 :: bs). split; [done|]. split.
    + constructor; [apply keyrun_lang, H1|exact Hbs].
    + rewrite join_dots_cons. reflexivity.
  - intros (ws & Hne & Hws & ->). destruct ws as [|w1 bs]; [done|].
    inversion Hws as [|? ? H1 Hbs]; subst. rewrite join_dots_cons.
    exists w1, (concat (List.map (cons "."%char) bs)). split; [reflexivity|].
    split; [apply keyrun_lang, H1|].
    exists (List.map (cons "."%char) bs). split; [reflexivity|].
    clear -Hbs. induction Hbs as [|b bs Hb _ IH]; constructor; [|exact IH].
    exists ["."%char], b. split; [reflexivity|]. split; [|apply keyrun_lang, Hb].
    exists "."%char. split; reflexivity.
Qed.

Lemma lang_opt a w : lang (ROpt a) w ↔ lang a w ∨ w = [].
Proof. reflexivity. Qed.

Lemma lang_lit_iff c w : lang (lit c) w ↔ w = [c].
Proof.
  split; [apply lang_lit|]. intros ->. exists c. split; [reflexivity|apply Ascii.eqb_refl].
Qed.

(** ** Cutting a map string at its separators *)

Lemma exec_multi pre suf :
  exec multi_re (pre, suf) =
  match suf with
  | c :: r =>
      if Ascii.eqb c "," then Some (c :: pre, r)
      else
        match r with
        | d :: r' => if Ascii.eqb c ":" && Ascii.eqb d ":" then Some (d :: c :: pre, r') else None
        | [] => None
        end
  | [] => None
  end.
Proof.
  unfold exec, multi_re, lit. rewrite rmatch_alt, rmatch_seq.
  destruct suf as [|c r]; [rewrite !rmatch_char_nil; reflexivity|].
  rewrite !rmatch_char_cons.
  destruct (Ascii.eqb_spec ":" c) as [<-|Hc].
  - cbn [Ascii.eqb Bool.eqb andb]. destruct r as [|d r'].
    + rewrite rmatch_char_nil. reflexivity.
    + rewrite rmatch_char_cons. destruct (Ascii.eqb_spec ":" d) as [<-|Hd]; [reflexivity|].
      rewrite (eqb_neq d ":") by congruence. reflexivity.
  - rewrite (eqb_neq c ":") by congruence. cbn [andb].
    destruct (Ascii.eqb_spec "," c) as [<-|Hc']; [reflexivity|].
    rewrite (eqb_neq c ",") by congruence. destruct r; reflexivity.
Qed.

Lemma split_loop_cut : ∀ n suf acc pre,
  length suf ≤ n → split_loop multi_re n acc (pre, suf) = cut acc suf.
Proof.
  induction n as [|n IH]; intros suf acc pre Hn.
  - destruct suf; [|cbn in Hn; lia]. cbn. rewrite app_nil_r. reflexivity.
  - cbn [split_loop snd]. destruct suf as [|c r]; [reflexivity|].
    rewrite exec_multi. cbn [cut]. cbn [length] in Hn.
    destruct (Ascii.eqb c ",").
    + unfold pos. cbn [fst length].
      rewrite (proj2 (Nat.eqb_neq _ _)) by lia. cbn [andb].
      rewrite IH by lia. reflexivity.
    + destruct r as [|d r']; [apply IH; cbn; lia|].
      destruct (Ascii.eqb c ":" && Ascii.eqb d ":").
      * unfold pos. cbn [fst length].
        rewrite (proj2 (Nat.eqb_neq _ _)) by lia. cbn [andb].
        rewrite IH by (cbn [length] in Hn; lia). reflexivity.
      * apply IH. lia.
Qed.

(** [s.split(/::|,/)], computed by one pass over the characters. *)
Lemma split_multi (s : string) :
  split multi_re s = List.map string_of_list_ascii (cut [] (list_ascii_of_string s)).
Proof.
  unfold split. destruct (list_ascii_of_string s) as [|c cs] eqn:E.
  - rewrite exec_multi. reflexivity.
  - rewrite split_loop_cut by lia. reflexivity.
Qed.

Lemma cut_last w : ∀ acc, sep_free w = true → cut acc w = [rev acc ++ w].
Proof.
  induction w as [|c w IH]; intros acc H; cbn [cut sep_free] in *.
  - rewrite app_nil_r. reflexivity.
  - apply andb_true_iff in H as [H H3]. apply andb_true_iff in H as [H1 H2].
    apply negb_true_iff in H1, H2. rewrite H1.
    destruct w as [|d w'].
    + reflexivity.
    + rewrite H2, IH by exact H3. cbn [rev]. rewrite <- app_assoc. reflexivity.
Qed.

Lemma cut_comma w : ∀ acc rest,
  sep_free w = true → cut acc (w ++ ","%char :: rest) = (rev acc ++ w) :: cut [] rest.
Proof.
  induction w as [|c w IH]; intros acc rest H; cbn [app].
  - cbn. rewrite app_nil_r. reflexivity.
  - cbn [sep_free] in H.
    apply andb_true_iff in H as [H H3]. apply andb_true_iff in H as [H1 H2].
    apply negb_true_iff in H1, H2. cbn [cut]. rewrite H1.
    pose proof (IH (c :: acc) rest H3) as IH'.
    destruct w as [|d w']; cbn [app] in *.
    + change (Ascii.eqb "," ":") with false. rewrite andb_false_r.
      rewrite IH'. cbn [rev]. rewrite <- app_assoc. reflexivity.
    + rewrite H2, IH'. cbn [rev]. rewrite <- app_assoc. reflexivity.
Qed.

Lemma cut_colons w : ∀ acc rest,
  colon_free w = true →
  cut acc (w ++ ":"%char :: ":"%char :: rest) = (rev acc ++ w) :: cut [] rest.
Proof.
  induction w as [|c w IH]; intros acc rest H; cbn [app].
  - cbn. rewrite app_nil_r. reflexivity.
  - cbn [colon_free forallb] in H.
    apply andb_true_iff in H as [H H3]. apply andb_true_iff in H as [H1 H2].
    apply negb_true_iff in H1, H2.
    pose proof (IH (c :: acc) rest H3) as IH'.
    destruct w as [|d w']; cbn [app cut] in *; rewrite H1, H2; cbn [andb];
      rewrite IH'; cbn [rev]; rewrite <- app_assoc; reflexivity.
Qed.

Lemma colon_free_sep_free w : colon_free w = true → sep_free w = true.
Proof.
  induction w as [|c w IH]; [reflexivity|]. cbn [colon_free forallb sep_free].
  intros H. apply andb_true_iff in H as [H H3]. apply andb_true_iff in H as [H1 H2].
  apply negb_true_iff in H2. rewrite H1, H2, (IH H3). reflexivity.
Qed.

Lemma cut_concat (sep : string) (ok : list ascii → bool)
    (Hpiece : ∀ w acc rest, ok w = true →
                cut acc (w ++ list_ascii_of_string sep ++ rest) = (rev acc ++ w) :: cut [] rest)
    (Hlast : ∀ w, ok w = true → sep_free w = true) :
  ∀ ws, ws ≠ [] → Forall (λ w, ok (list_ascii_of_string w) = true) ws →
  cut [] (list_ascii_of_string (String.concat sep ws)) = List.map list_ascii_of_string ws.
Proof.
  induction ws as [|w ws IH]; intros Hne Hws; [done|].
  inversion Hws as [|? ? Hw Hws']; subst. cbn [String.concat List.map].
  destruct ws as [|w' ws].
  - rewrite cut_last by (apply Hlast, Hw). reflexivity.
  - rewrite !list_ascii_of_string_app, Hpiece by exact Hw.
    rewrite IH by (auto; done). reflexivity.
Qed.

Lemma map_strings ws :
  List.map string_of_list_ascii (List.map list_ascii_of_string ws) = ws.
Proof.
  induction ws as [|w ws IH]; [reflexivity|]. cbn [List.map].
  rewrite string_of_list_ascii_of_string, IH. reflexivity.
Qed.

(** ** [readValue] along keys and indices *)

Lemma read_step_seg rec s cur h :
  valid_seg s → inherited_name (seg_text s) = false →
  read_step rec cur (seg_text s) h = (Ok (lookup_seg h cur s), h).
Proof.
  intros Hs Hk. unfold read_step.
  destruct (keyrun_not_trivial _ (seg_keyrun s Hs)) as [E1 E2]. rewrite E1, E2.
  rewrite seg_isArrayKey, seg_isIndexKey, seg_cleanKey by exact Hs. cbn [orb].
  destruct s as [k|i]; cbn [is_key_seg negb lookup_seg]; mrun.
  - destruct (props_of h cur); [|reflexivity]. apply member_default, Hk.
  - destruct (elems_of h cur) as [es|]; [|reflexivity].
    rewrite E1. cbn [seg_text]. rewrite isIndexKey_string_of_Z, Z_of_string_of_Z.
    reflexivity.
Qed.

Lemma reduce_read_segs rec : ∀ segs cur h,
  Forall valid_seg segs → no_inherited segs →
  reduce (read_step rec) (List.map seg_text segs) cur h
  = (Ok (lookup_path h cur segs), h).
Proof.
  induction segs as [|s segs IH]; intros cur h Hv Hpf; [reflexivity|].
  inversion Hv as [|? ? Hs Hv']; subst.
  inversion Hpf as [|? ? Hk Hpf']; subst. cbn [List.map reduce].
  rewrite (run_ok _ _ _ _ _ (read_step_seg rec s cur h Hs Hk)).
  rewrite IH by assumption. reflexivity.
Qed.

Lemma readValue_aux_path n segs obj h :
  segs ≠ [] → Forall valid_seg segs → no_inherited segs →
  readValue_aux (S n) obj (VStr (path_text segs)) h = (Ok (lookup_path h obj segs), h).
Proof.
  intros Hne Hv Hpf. cbn [readValue_aux].
  rewrite path_text_nonempty, match_all_read_path by assumption.
  apply reduce_read_segs; assumption.
Qed.

(** ** [readValue] only adds cells *)

Lemma grows_ret {A} (a : A) : grows (ret a).
Proof. intros h. exists []. cbn. rewrite app_nil_r. reflexivity. Qed.

Lemma grows_throw {A} e : grows (@throw A e).
Proof. intros h. exists []. cbn. rewrite app_nil_r. reflexivity. Qed.

Lemma grows_out_of_fuel {A} : grows (@out_of_fuel A).
Proof. intros h. exists []. cbn. rewrite app_nil_r. reflexivity. Qed.

Lemma grows_get_heap : grows get_heap.
Proof. intros h. exists []. cbn. rewrite app_nil_r. reflexivity. Qed.

Lemma grows_alloc c : grows (alloc c).
Proof. intros h. exists [c]. reflexivity. Qed.

Lemma grows_member obj ps k : grows (member obj ps k).
Proof.
  intros h. exists []. rewrite app_nil_r.
  destruct (member_ends obj ps k h) as [(v & ->)| ->]; reflexivity.
Qed.

Lemma grows_bind {A B} (m : M A) (f : A → M B) :
  grows m → (∀ a, grows (f a)) → grows (bind m f).
Proof.
  intros Hm Hf h. unfold bind. destruct (Hm h) as [h1 E1].
  destruct (m h) as [[a|e| |] h'] eqn:E; cbn [snd] in *; subst h'; eauto.
  destruct (Hf a (h ++ h1)) as [h2 E2]. exists (h1 ++ h2).
  rewrite E2, app_assoc. reflexivity.
Qed.

Lemma grows_map_elems f : (∀ v, grows (f v)) → ∀ es, grows (map_elems f es).
Proof.
  intros Hf. induction es as [|[v|] es IH]; cbn [map_elems].
  - apply grows_ret.
  - apply grows_bind; [apply Hf|]. intros x.
    apply grows_bind; [exact IH|]. intros r. apply grows_ret.
  - apply grows_bind; [exact IH|]. intros r. apply grows_ret.
Qed.

Lemma grows_reduce {A} (step : jsval → A → M jsval) :
  (∀ acc x, grows (step acc x)) → ∀ xs acc, grows (reduce step xs acc).
Proof.
  intros Hs. induction xs as [|x xs IH]; intros acc; cbn [reduce].
  - apply grows_ret.
  - apply grows_bind; [apply Hs|]. intros acc'. apply IH.
Qed.

Lemma grows_read_step rec cur key :
  (∀ a b, grows (rec a b)) → grows (read_step rec cur key).
Proof.
  intros Hrec. unfold read_step.
  destruct (String.eqb key ""); [apply grows_throw|].
  destruct (String.eqb key "*"); [apply grows_ret|].
  destruct (isArrayKey key || isIndexKey key).
  - apply grows_bind; [apply grows_get_heap|]. intros h.
    destruct (elems_of h cur) as [es|]; [|apply grows_ret].
    destruct (String.eqb _ ""); [apply grows_ret|].
    destruct (isIndexKey _); [apply grows_ret|].
    apply grows_bind; [|intros; apply grows_alloc].
    apply grows_map_elems. intros v.
    apply grows_bind; [apply grows_get_heap|]. intros h'.
    destruct (isObject h' v); [apply Hrec|apply grows_ret].
  - apply grows_bind; [apply grows_get_heap|]. intros h.
    destruct (props_of h cur); [apply grows_member|apply grows_ret].
Qed.

Lemma grows_readValue_aux : ∀ n obj path, grows (readValue_aux n obj path).
Proof.
  induction n as [|n IH]; intros obj path; cbn [readValue_aux]; [apply grows_out_of_fuel|].
  destruct path; try apply grows_throw.
  destruct (String.eqb s ""); [apply grows_throw|].
  destruct (match_all read_re s); [|apply grows_ret].
  apply grows_reduce. intros acc x. apply grows_read_step, IH.
Qed.

(** ** A bracketed path in [readValue] *)

Lemma bracket_split w : ∀ w' a b,
  bracket_free w → bracket_free w' →
  w ++ "]"%char :: a = w' ++ "]"%char :: b → w = w' ∧ a = b.
Proof.
  induction w as [|c w IH]; intros [|c' w'] a b Hw Hw' E; cbn [app] in E.
  - injection E as <-. auto.
  - injection E as <- _. inversion Hw' as [|? ? Hc _]. discriminate Hc.
  - injection E as -> _. inversion Hw as [|? ? Hc _]. discriminate Hc.
  - injection E as <- E. inversion Hw; inversion Hw'; subst.
    destruct (IH w' a b) as [-> ->]; auto.
Qed.

Lemma dotted_bracket_free w : dotted w → bracket_free w.
Proof. intros H. apply lang_keypath_bracket_free, lang_keypath_dotted, H. Qed.

Lemma dotted_nonempty w : dotted w → w ≠ [].
Proof.
  intros H%lang_keypath_dotted%lang_minlen ->. vm_compute in H. lia.
Qed.

Lemma exec_read_bracket w :
  dotted w →
  exec read_re ([], "["%char :: w ++ ["]"%char])
  = Some (rev ("["%char :: w ++ ["]"%char]) ++ [], []).
Proof.
  intros Hd. pose proof (proj2 (lang_keypath_dotted w) Hd) as Hl.
  pose proof (dotted_bracket_free w Hd) as Hb.
  replace (rev ("["%char :: w ++ ["]"%char]) ++ [])
    with ("]"%char :: rev w ++ ["["%char])
    by (rewrite app_nil_r; cbn [rev]; rewrite rev_app_distr; reflexivity).
  unfold exec, read_re. rewrite rmatch_alt. unfold lit at 1.
  rewrite rmatch_char_cons. cbn [Ascii.eqb Bool.eqb andb].
  rewrite rmatch_seq, rmatch_behind, (behind_dot_or_start [] _ I).
  rewrite rmatch_seq, rmatch_alt, rmatch_seq. unfold lit at 1.
  rewrite rmatch_char_cons. cbn [Ascii.eqb Bool.eqb andb].
  rewrite rmatch_seq.
  lazymatch goal with
  | |- context [rmatch true keypath ?st ?k] =>
      destruct (rmatch true keypath st k) as [res|] eqn:E
  end.
  - apply rmatch_sound in E as (w' & suf' & Hsplit & Hw' & Hk).
    apply lang_keypath_bracket_free in Hw'.
    unfold lit in Hk. destruct suf' as [|c suf''];
      [rewrite rmatch_char_nil in Hk; discriminate Hk|].
    rewrite rmatch_char_cons in Hk.
    destruct (Ascii.eqb_spec "]" c) as [<-|]; [|discriminate Hk].
    destruct (bracket_split w w' [] suf'' Hb Hw' Hsplit) as [<- <-].
    autorewrite with re in Hk. symmetry. exact Hk.
  - exfalso. destruct (rmatch_complete keypath eq_refl w Hl ["["%char] ["]"%char]
      (λ st' : mstate, rmatch true (lit "]") st'
         (λ st'' : mstate, rmatch true (RAhead (lit "." ⊕ REol)) st'' Some))
      ("]"%char :: rev w ++ ["["%char], [])) as [y Hy].
    + unfold lit. autorewrite with re. cbn [Ascii.eqb Bool.eqb andb].
      autorewrite with re. reflexivity.
    + rewrite E in Hy. discriminate Hy.
Qed.

Lemma exec_read_after_bracket pre : exec read_re ("]"%char :: pre, []) = None.
Proof. unfold exec, read_re, lit. autorewrite with re. reflexivity. Qed.

Lemma match_all_read_bracket (p : string) :
  dotted (list_ascii_of_string p) →
  match_all read_re (String "[" (String.append p "]"))
  = Some [String "[" (String.append p "]")].
Proof.
  intros Hd. unfold match_all.
  set (key := String "[" (String.append p "]")).
  assert (list_ascii_of_string key
          = "["%char :: list_ascii_of_string p ++ ["]"%char]) as Ek.
  { unfold key. cbn [list_ascii_of_string]. rewrite list_ascii_of_string_app. reflexivity. }
  rewrite Ek. cbn [match_loop]. rewrite exec_read_bracket by exact Hd.
  rewrite matched_run. unfold pos at 1 2. cbn [fst].
  rewrite app_nil_r, length_rev. cbn [length Nat.eqb].
  rewrite length_app. cbn [length].
  replace (length (list_ascii_of_string p) + 1) with (S (length (list_ascii_of_string p))) by lia.
  cbn [match_loop].
  replace (rev ("["%char :: list_ascii_of_string p ++ ["]"%char]))
    with ("]"%char :: rev (list_ascii_of_string p) ++ ["["%char])
    by (cbn [rev]; rewrite rev_app_distr; reflexivity).
  rewrite exec_read_after_bracket. cbn [advance snd List.map].
  rewrite <- Ek, string_of_list_ascii_of_string. reflexivity.
Qed.

Lemma isArrayKey_bracketed (s : string) b :
  list_ascii_of_string s = "["%char :: b ++ ["]"%char] → bracket_free b →
  isArrayKey s = true.
Proof.
  intros Hs Hb. unfold isArrayKey, arraykey_re.
  rewrite test_anchored, rmatch_eol3, bool_decide_eq_true.
  apply anchored_plain; [reflexivity|]. rewrite Hs.
  exists ["["%char], (b ++ ["]"%char]). split; [reflexivity|].
  split; [apply lang_lit_iff; reflexivity|].
  exists b, ["]"%char]. split; [reflexivity|].
  split; [apply lang_star_class, Hb|apply lang_lit_iff; reflexivity].
Qed.

Lemma isIndexKey_no_dot (s : string) :
  isIndexKey s = true → "."%char ∉ list_ascii_of_string s.
Proof.
  unfold isIndexKey, indexkey_re.
  rewrite test_anchored, rmatch_eol2, bool_decide_eq_true, anchored_plain by reflexivity.
  intros Hl%lang_alphabet Hin. rewrite Forall_forall in Hl.
  specialize (Hl _ Hin). vm_compute in Hl. discriminate Hl.
Qed.

Lemma path_text_cons s s' segs :
  path_text (s :: s' :: segs)
  = String.append (seg_text s) (String.append "." (path_text (s' :: segs))).
Proof. reflexivity. Qed.

Lemma isIndexKey_path segs :
  valid_path segs → isIndexKey (path_text segs) = false.
Proof.
  destruct segs as [|[k|i] segs]; try done. intros Hv. cbn [valid_path] in Hv.
  inversion Hv as [|? ? Hk Hv']; subst. destruct segs as [|s' segs].
  - apply plain_key_spec, Hk.
  - destruct (isIndexKey _) eqn:E; [|reflexivity]. exfalso.
    apply isIndexKey_no_dot in E. apply E.
    rewrite path_text_cons, !list_ascii_of_string_app.
    apply elem_of_app. right. left.
Qed.

Lemma path_text_dotted segs :
  segs ≠ [] → Forall valid_seg segs → dotted (list_ascii_of_string (path_text segs)).
Proof.
  intros Hne Hv. exists (List.map list_ascii_of_string (List.map seg_text segs)).
  split; [destruct segs; [done|discriminate]|]. split.
  - rewrite List.map_map. apply Forall_forall. intros w Hw.
    apply list_elem_of_In, in_map_iff in Hw as (s & <- & Hs).
    apply seg_keyrun. rewrite Forall_forall in Hv. apply Hv, list_elem_of_In, Hs.
  - apply list_ascii_of_concat.
Qed.

Lemma map_elems_pure (f : jsval → M jsval) (g : jsval → jsval) h :
  (∀ v, f v h = (Ok (g v), h)) →
  ∀ es, map_elems f es h = (Ok (List.map (option_map g) es), h).
Proof.
  intros Hf. induction es as [|[v|] es IH]; cbn [map_elems List.map option_map].
  - reflexivity.
  - rewrite (run_ok _ _ _ _ _ (Hf v)), (run_ok _ _ _ _ _ IH). reflexivity.
  - rewrite (run_ok _ _ _ _ _ IH). reflexivity.
Qed.

Lemma valid_path_segs segs : valid_path segs → segs ≠ [] ∧ Forall valid_seg segs.
Proof. destruct segs as [|[k|i] segs]; cbn; try done. Qed.

Lemma readValue_aux_eq n obj (p : string) :
  readValue_aux (S n) obj (VStr p)
  = if String.eqb p "" then throw InvalidPathError
    else match match_all read_re p with
         | None => ret VUndef
         | Some segments => reduce (read_step (readValue_aux n)) segments obj
         end.
Proof. reflexivity. Qed.

(** The callback of [readValue] on a bracketed property path. *)
Lemma read_step_map rec (key clean : string) cur h es (g : jsval → jsval) :
  String.eqb key "" = false → String.eqb key "*" = false →
  isArrayKey key = true → cleanKeyOf key = clean →
  String.eqb clean "" = false → isIndexKey clean = false →
  elems_of h cur = Some es →
  (∀ item, isObject h item = true → rec item (VStr clean) h = (Ok (g item), h)) →
  read_step rec cur key h
  = (Ok (VRef (length h)),
     h ++ [CArr (List.map (option_map (λ item,
                   if isObject h item then g item else VUndef)) es) []]).
Proof.
  intros E1 E2 Ha Hc E3 Hi He Hrec. unfold read_step.
  rewrite E1, E2, Ha, Hc. cbn [orb]. mrun. rewrite He, E3, Hi.
  erewrite run_ok; [mrun; reflexivity|].
  apply map_elems_pure. intros v. mrun.
  destruct (isObject h v) eqn:Ho; [apply Hrec, Ho|reflexivity].
Qed.

(** ** [writeValue] at a key of a plain object *)

Lemma writeValue_eq n obj (p : string) v :
  writeValue (S n) obj (VStr p) v
  = (let* skip :=
       (if isUndefined v then
          let* r := readValue obj (VStr p) in ret (isUndefined r)
        else ret false) in
     if (skip : bool) then ret obj
     else
       match match_all write_re p with
       | None => ret obj
       | Some segments => write_segs (writeValue n) v segments obj ;; ret obj
       end).
Proof. reflexivity. Qed.

Lemma isUndefined_false v : v ≠ VUndef → isUndefined v = false.
Proof. destruct v; done. Qed.

Lemma plain_key_facts (k : string) :
  plain_key k = true →
  isArrayKey k = false ∧ isIndexKey k = false
  ∧ String.eqb k "" = false ∧ String.eqb k "*" = false
  ∧ match_all write_re k = Some [k] ∧ match_all read_re k = Some [k].
Proof.
  intros Hk.
  pose proof (seg_isArrayKey (PKey k) Hk) as Ha.
  pose proof (seg_isIndexKey (PKey k) Hk) as Hi.
  destruct (keyrun_not_trivial _ (seg_keyrun (PKey k) Hk)) as [E1 E2].
  pose proof (match_all_write_path [PKey k] ltac:(discriminate)
                ltac:(constructor; [exact Hk|constructor])) as Hw.
  pose proof (match_all_read_path [PKey k] ltac:(discriminate)
                ltac:(constructor; [exact Hk|constructor])) as Hr.
  repeat split; assumption.
Qed.

(** The last step of a write, at a key of a plain object: under a value
    that is a plain object the new value is stored as it is, otherwise
    [null] is stored as [undefined]. *)
Lemma write_step_key_last rec v (k : string) h l ps :
  plain_key k = true → inherited_name k = false ∨ is_Some (prop_get k ps) →
  cell_at h l = CObj ps → l < length h →
  write_step rec v (VRef l) k None h
  = (Ok (if isObject h (default VUndef (prop_get k ps)) then v else nullish v),
     <[l := CObj (prop_set k
                    (if isObject h (default VUndef (prop_get k ps)) then v else nullish v)
                    ps)]> h).
Proof.
  intros Hk Hp Hcell Hl. destruct (plain_key_facts k Hk) as (Ha & Hi & _).
  unfold write_step. rewrite Ha, Hi. cbn [orb].
  unfold shouldUpdate, getNextValue. mrun.
  rewrite isArray_ref, Hcell.
  rewrite (run_ok _ _ _ _ _ (get_prop_obj l ps k h Hcell Hp)). mrun.
  rewrite next_is_array_none.
  destruct (isObject h (default VUndef (prop_get k ps))); cbn [negb]; mrun.
  - rewrite bool_decide_eq_true_2 by reflexivity.
    rewrite (run_ok _ _ _ _ _ (set_prop_own l ps k _ h Hcell (owned_or_plain _ _ Hp))).
    rewrite (get_prop_obj l _ k _ (cell_at_insert h l _ Hl)
               (or_intror (ex_intro _ _ (prop_get_set _ _ _)))).
    rewrite prop_get_set. reflexivity.
  - rewrite (run_ok _ _ _ _ _ (set_prop_own l ps k _ h Hcell (owned_or_plain _ _ Hp))).
    rewrite (get_prop_obj l _ k _ (cell_at_insert h l _ Hl)
               (or_intror (ex_intro _ _ (prop_get_set _ _ _)))).
    rewrite prop_get_set. reflexivity.
Qed.

Lemma writeValue_key n h l ps (k : string) v :
  cell_at h l = CObj ps → l < length h → plain_key k = true →
  inherited_name k = false ∨ is_Some (prop_get k ps) → v ≠ VUndef →
  writeValue (S n) (VRef l) (VStr k) v h
  = (Ok (VRef l),
     <[l := CObj (prop_set k
                    (if isObject h (default VUndef (prop_get k ps)) then v else nullish v)
                    ps)]> h).
Proof.
  intros Hcell Hl Hk Hp Hv. destruct (plain_key_facts k Hk) as (_ & _ & _ & _ & Hw & _).
  rewrite writeValue_eq, isUndefined_false by exact Hv. mrun.
  rewrite Hw. cbn [write_segs head].
  rewrite run_bind_assoc.
  rewrite (run_ok _ _ _ _ _ (write_step_key_last _ v k h l ps Hk Hp Hcell Hl)).
  reflexivity.
Qed.

Lemma readValue_key h l ps (k : string) :
  cell_at h l = CObj ps → plain_key k = true → inherited_name k = false →
  readValue (VRef l) (VStr k) h = (Ok (default VUndef (prop_get k ps)), h).
Proof.
  intros Hcell Hk Hin.
  pose proof (readValue_aux_path 1 [PKey k] (VRef l) h ltac:(discriminate)
                ltac:(constructor; [exact Hk|constructor])
                ltac:(constructor; [exact Hin|constructor])) as H.
  unfold readValue. etransitivity; [exact H|].
  cbn. rewrite Hcell. reflexivity.
Qed.

(** ** [writeValue] at an index of an array *)

Lemma negindex_minus_digits (s : string) w :
  list_ascii_of_string s = "-"%char :: w → digits w → test negindex_re s = true.
Proof.
  intros Hs [Hne Hw]. unfold negindex_re. rewrite test_anchored, Hs.
  destruct w as [|c w]; [done|].
  inversion Hw as [|? ? Hc Hw']; subst.
  unfold lit, digit. rewrite rmatch_seq, rmatch_char_cons. cbn [Ascii.eqb Bool.eqb].
  rewrite rmatch_seq.
  rewrite <- (app_nil_r w).
  erewrite plus_class; [reflexivity|exact Hc|exact Hw'|exact I|].
  rewrite rmatch_eol_nil. reflexivity.
Qed.

Lemma negindex_string_of_Z z :
  test negindex_re (string_of_Z z) = Z.ltb z 0.
Proof.
  destruct (Z.ltb_spec z 0) as [Hz|Hz].
  - destruct (string_of_Z_neg z Hz) as (w & Hs & Hw).
    eapply negindex_minus_digits; eauto.
  - apply negindex_digits, string_of_Z_nonneg, Hz.
Qed.

Lemma is_array_index_string_of_Z z :
  (0 ≤ z < array_limit)%Z → is_array_index (string_of_Z z) = true.
Proof.
  intros Hz. rewrite <- (Z2Nat.id z) by lia.
  apply is_array_index_of_nat. lia.
Qed.

Lemma match_all_write_single (s : string) :
  keyrun (list_ascii_of_string s) → match_all write_re s = Some [s].
Proof.
  intros Hk. unfold match_all.
  pose proof (match_loop_runs write_re
                (λ pre w suf Hw _ Hs, exec_write_key pre w suf Hw Hs) exec_write_none
                [list_ascii_of_string s] (S (length (list_ascii_of_string s))) []) as H.
  cbn [join_dots] in H. rewrite H.
  - cbn [List.map]. rewrite string_of_list_ascii_of_string. reflexivity.
  - constructor; [exact Hk|constructor].
  - discriminate.
  - exact I.
  - lia.
Qed.

(** The place an index names in an array of a given length. *)
Lemma arr_at_in_range es z :
  (- Z.of_nat (length es) ≤ z < Z.of_nat (length es))%Z →
  arr_at es z
  = match es !! Z.to_nat (if Z.ltb z 0 then Z.of_nat (length es) + z else z)%Z with
    | Some (Some v) => v
    | _ => VUndef
    end.
Proof.
  intros Hz. unfold arr_at. destruct (Z.ltb_spec z 0).
  - rewrite (proj2 (Z.ltb_ge _ 0)) by lia.
    rewrite (proj2 (Z.leb_gt _ _)) by lia. reflexivity.
  - rewrite (proj2 (Z.ltb_ge _ 0)) by lia.
    rewrite (proj2 (Z.leb_gt _ _)) by lia. reflexivity.
Qed.

Lemma arr_at_insert es z v :
  (- Z.of_nat (length es) ≤ z < Z.of_nat (length es))%Z →
  arr_at (<[Z.to_nat (if Z.ltb z 0 then Z.of_nat (length es) + z else z)%Z := Some v]> es) z
  = v.
Proof.
  intros Hz. rewrite arr_at_in_range by (rewrite length_insert; exact Hz).
  rewrite length_insert, list_lookup_insert_eq; [reflexivity|].
  destruct (Z.ltb_spec z 0); lia.
Qed.

Lemma elems_splice_in_range es z v :
  (- Z.of_nat (length es) ≤ z < 0)%Z →
  elems_splice es z v = <[Z.to_nat (Z.of_nat (length es) + z) := Some v]> es.
Proof.
  intros Hz. unfold elems_splice.
  rewrite (proj2 (Z.ltb_lt z 0)) by lia.
  rewrite Z.max_l by lia.
  rewrite (proj2 (Nat.ltb_lt _ _)) by lia.
  rewrite insert_take_drop by lia.
  replace (Z.to_nat (Z.of_nat (length es) + z) + 1)
    with (S (Z.to_nat (Z.of_nat (length es) + z))) by lia.
  reflexivity.
Qed.

Lemma elems_set_in_range es i v :
  i < length es → elems_set es i v = <[i := Some v]> es.
Proof. intros Hi. unfold elems_set. rewrite (proj2 (Nat.ltb_lt _ _)) by exact Hi. reflexivity. Qed.

(** The last step of a write, at an index inside an array: an element
    that is a plain object stays, any other element is replaced. *)
Lemma write_step_index_last rec v z h l es ex :
  cell_at h l = CArr es ex → l < length h →
  (- Z.of_nat (length es) ≤ z < Z.of_nat (length es))%Z →
  (Z.of_nat (length es) ≤ array_limit)%Z →
  write_step rec v (VRef l) (string_of_Z z) None h
  = if isObject h (arr_at es z) then (Ok (arr_at es z), h)
    else (Ok (nullish v),
          <[l := CArr (<[Z.to_nat (if Z.ltb z 0 then Z.of_nat (length es) + z else z)%Z
                         := Some (nullish v)]> es) ex]> h).
Proof.
  intros Hcell Hl Hz Hlim.
  pose proof (string_of_Z_keyrun z) as Hk.
  destruct (keyrun_not_trivial _ Hk) as [E1 _].
  unfold write_step.
  rewrite isIndexKey_string_of_Z, orb_true_r.
  rewrite cleanKeyOf_bracket_free by (apply keyrun_bracket_free, Hk).
  rewrite E1, isIndexKey_string_of_Z, Z_of_string_of_Z, negindex_string_of_Z.
  unfold call_at, call_splice, set_prop, shouldUpdate, getNextValue. mrun.
  unfold elems_of. rewrite Hcell. mrun. rewrite next_is_array_none.
  change (match v with VNull => VUndef | _ => v end) with (nullish v).
  destruct (isObject h (arr_at es z)); cbn [negb]; mrun.
  - rewrite Hcell. reflexivity.
  - destruct (Z.ltb_spec z 0) as [Hneg|Hpos]; mrun; rewrite Hcell; mrun.
    + rewrite cell_at_insert by exact Hl.
      rewrite elems_splice_in_range by lia.
      pose proof (arr_at_insert es z (nullish v) Hz) as Hat.
      rewrite (proj2 (Z.ltb_lt z 0)) in Hat by lia. rewrite Hat. reflexivity.
    + rewrite is_array_index_string_of_Z by lia. mrun.
      rewrite cell_at_insert by exact Hl.
      rewrite Z_of_string_of_Z, elems_set_in_range by lia.
      pose proof (arr_at_insert es z (nullish v) Hz) as Hat.
      rewrite (proj2 (Z.ltb_ge z 0)) in Hat by lia. rewrite Hat. reflexivity.
Qed.

Lemma write_index_segs n v z h l es ex :
  cell_at h l = CArr es ex → l < length h →
  (- Z.of_nat (length es) ≤ z < Z.of_nat (length es))%Z →
  (Z.of_nat (length es) ≤ array_limit)%Z →
  match match_all write_re (string_of_Z z) with
  | None => ret (VRef l)
  | Some segments => write_segs (writeValue n) v segments (VRef l) ;; ret (VRef l)
  end h
  = (Ok (VRef l),
     if isObject h (arr_at es z) then h
     else <[l := CArr (<[Z.to_nat (if Z.ltb z 0 then Z.of_nat (length es) + z else z)%Z
                         := Some (nullish v)]> es) ex]> h).
Proof.
  intros Hcell Hl Hz Hlim.
  rewrite match_all_write_single by apply string_of_Z_keyrun.
  cbn [write_segs head]. rewrite run_bind_assoc.
  pose proof (write_step_index_last (writeValue n) v z h l es ex Hcell Hl Hz Hlim) as H.
  destruct (isObject h (arr_at es z)); rewrite (run_ok _ _ _ _ _ H); reflexivity.
Qed.

(** ** The append operator of [writeValue] *)

Lemma arr_at_last es v : arr_at (es ++ [Some v]) (-1) = v.
Proof.
  unfold arr_at. rewrite length_app. cbn [length Z.ltb Z.compare].
  rewrite (proj2 (Z.ltb_ge _ 0)) by lia.
  rewrite (proj2 (Z.leb_gt _ _)) by lia. cbn [orb].
  replace (Z.to_nat (Z.of_nat (length es + 1) + -1)) with (length es) by lia.
  rewrite lookup_app_r by lia. rewrite Nat.sub_diag. reflexivity.
Qed.

Lemma write_step_push_last rec v h l es ex :
  cell_at h l = CArr es ex → l < length h →
  (Z.of_nat (length es) < array_limit)%Z →
  write_step rec v (VRef l) "[]" None h
  = (Ok (nullish v), <[l := CArr (es ++ [Some (nullish v)]) ex]> h).
Proof.
  intros Hcell Hl Hlim. unfold write_step.
  change (isArrayKey "[]") with true. change (cleanKeyOf "[]") with "".
  cbn [orb String.eqb]. unfold call_push, getNextValue, push_now, call_at. mrun.
  change (match v with VNull => VUndef | _ => v end) with (nullish v).
  rewrite Hcell. cbn [push_values].
  rewrite (proj2 (Z.ltb_lt _ _)) by exact Hlim. mrun.
  rewrite (proj2 (Z.ltb_ge _ _)) by (cbn [length]; lia). mrun.
  unfold elems_of. rewrite cell_at_insert by exact Hl.
  rewrite arr_at_last. reflexivity.
Qed.

Lemma exec_write_empty_bracket pre :
  exec write_re ("."%char :: pre, ["["%char; "]"%char])
  = Some (rev ["["%char; "]"%char] ++ "."%char :: pre, []).
Proof.
  unfold exec, write_re, lit, keypath, RPlus, kc.
  rewrite rmatch_alt, rmatch_seq, rmatch_behind, rmatch_alt, rmatch_back_cons.
  cbn [Ascii.eqb Bool.eqb andb].
  rewrite !rmatch_seq, rmatch_char_cons. cbn [Ascii.eqb Bool.eqb andb].
  rewrite rmatch_seq, rmatch_star, star_loop_eq, !rmatch_seq, !rmatch_char_cons.
  reflexivity.
Qed.

Lemma exec_write_after_bracket pre : exec write_re ("]"%char :: pre, []) = None.
Proof.
  unfold exec, write_re, lit, RPlus, kc. autorewrite with re. reflexivity.
Qed.

Lemma match_loop_eq r n st :
  match_loop r (S n) st
  = match exec r st with
    | Some st' =>
        matched st st' ::
          (if Nat.eqb (pos st') (pos st) then
             match advance st with
             | Some st1 => match_loop r n st1
             | None => []
             end
           else match_loop r n st')
    | None =>
        match advance st with
        | Some st1 => match_loop r n st1
        | None => []
        end
    end.
Proof. reflexivity. Qed.

(** A key followed by the append operator is cut into the key and the
    operator. *)
Lemma match_all_write_key_push (k : string) :
  keyrun (list_ascii_of_string k) →
  match_all write_re (String.append k ".[]") = Some [k; "[]"].
Proof.
  intros Hk. unfold match_all. rewrite list_ascii_of_string_app.
  assert (string_of_list_ascii (list_ascii_of_string k) = k) as Ek
    by apply string_of_list_ascii_of_string.
  revert Ek Hk. generalize (list_ascii_of_string k). intros w Ek Hk.
  change (list_ascii_of_string ".[]") with ["."%char; "["%char; "]"%char].
  assert (∃ m, length w = S m) as [m Hm].
  { destruct Hk as [Hne _]. destruct w; [done|]. eexists. reflexivity. }
  rewrite match_loop_eq, (exec_write_key [] w _ Hk) by reflexivity.
  rewrite matched_run. unfold pos at 1 2. cbn [fst].
  rewrite app_nil_r, length_rev, Hm. cbn [length Nat.eqb].
  rewrite length_app, Hm. cbn [length Nat.add].
  rewrite match_loop_eq, exec_write_at_dot. cbn [advance snd fst].
  replace (m + 3) with (S (S (S m))) by lia.
  rewrite match_loop_eq, exec_write_empty_bracket, matched_run.
  rewrite (proj2 (Nat.eqb_neq (pos _) (pos _)))
    by (unfold pos; cbn [fst rev app length]; lia).
  cbn [rev app].
  rewrite match_loop_eq, exec_write_after_bracket. cbn [advance snd List.map].
  rewrite Ek. reflexivity.
Qed.

(** A step of a write at a key of a plain object, before a key that asks
    for an array: an array under the key is entered, anything else is
    replaced by a new empty array. *)
Lemma write_step_key_then_array rec v (k : string) nk h l ps :
  plain_key k = true → inherited_name k = false ∨ is_Some (prop_get k ps) →
  cell_at h l = CObj ps → l < length h →
  next_is_array (Some nk) = true →
  write_step rec v (VRef l) k (Some nk) h
  = if isArray h (default VUndef (prop_get k ps))
    then (Ok (default VUndef (prop_get k ps)), h)
    else (Ok (VRef (length h)),
          <[l := CObj (prop_set k (VRef (length h)) ps)]> (h ++ [CArr [] []])).
Proof.
  intros Hk Hp Hcell Hl Hnk. destruct (plain_key_facts k Hk) as (Ha & Hi & _).
  unfold write_step. rewrite Ha, Hi. cbn [orb].
  unfold shouldUpdate, getNextValue. mrun.
  rewrite isArray_ref, Hcell.
  rewrite (run_ok _ _ _ _ _ (get_prop_obj l ps k h Hcell Hp)). mrun.
  rewrite Hnk.
  destruct (isArray h (default VUndef (prop_get k ps))) eqn:He; cbn [negb]; mrun.
  - rewrite bool_decide_eq_false_2 by discriminate. mrun.
    apply get_prop_obj; assumption.
  - rewrite He. mrun.
    assert (cell_at (h ++ [CArr [] []]) l = CObj ps) as Hcell'
      by (rewrite cell_at_app by exact Hl; exact Hcell).
    rewrite (run_ok _ _ _ _ _ (set_prop_own l ps k _ _ Hcell' (owned_or_plain _ _ Hp))).
    erewrite get_prop_obj
      by first [right; eexists; apply prop_get_set
               | apply cell_at_insert; rewrite length_app; lia].
    rewrite prop_get_set. reflexivity.
Qed.

(** ** [writeValue] along keys that lead through plain objects *)

Lemma keys_path_text keys : path_text (List.map PKey keys) = String.concat "." keys.
Proof. unfold path_text. rewrite List.map_map. cbn [seg_text]. rewrite List.map_id. reflexivity. Qed.

Lemma keys_valid keys :
  Forall (λ k, plain_key k = true) keys → Forall valid_seg (List.map PKey keys).
Proof. intros H. apply Forall_map. exact H. Qed.

(** A step of a write at a key of a plain object, before a plain key: a
    plain object under the key is entered. *)
Lemma write_step_key_descend rec v (k nk : string) h l ps e :
  plain_key k = true → plain_key nk = true →
  cell_at h l = CObj ps → prop_get k ps = Some e → isObject h e = true →
  write_step rec v (VRef l) k (Some nk) h = (Ok e, h).
Proof.
  intros Hk Hnk Hcell Hget He.
  exact (write_step_descend rec v (PKey k) (PKey nk) h l ps e Hk eq_refl Hnk eq_refl
           Hcell Hget He).
Qed.

Lemma write_segs_existing rec v : ∀ keys h cur (last : string) p ps,
  Forall (λ k, plain_key k = true) keys → plain_key last = true →
  inherited_name last = false ∨ is_Some (prop_get last ps) →
  walk h cur keys = Some (VRef p) → isObject h cur = true →
  cell_at h p = CObj ps → p < length h →
  write_segs rec v (keys ++ [last]) cur h
  = (Ok (if isObject h (default VUndef (prop_get last ps)) then v else nullish v),
     <[p := CObj (prop_set last
                    (if isObject h (default VUndef (prop_get last ps)) then v else nullish v)
                    ps)]> h).
Proof.
  induction keys as [|k keys IH];
    intros h cur last p ps Hks Hlast Hnp Hwalk Hcur Hcell Hp.
  - cbn in Hwalk. injection Hwalk as ->. cbn [app write_segs head].
    rewrite (run_ok _ _ _ _ _ (write_step_key_last rec v last h p ps Hlast Hnp Hcell Hp)).
    reflexivity.
  - inversion Hks as [|? ? Hk Hks']; subst. cbn [walk] in Hwalk.
    destruct cur as [| | | | |c|[]]; try discriminate Hcur; [|discriminate Hwalk].
    destruct (props_of h (VRef c)) as [cps|] eqn:Hcps; [|discriminate].
    destruct (prop_get k cps) as [child|] eqn:Hchild; [|discriminate].
    destruct (isObject h child) eqn:Hco; [|discriminate].
    assert (cell_at h c = CObj cps) as Hcc.
    { unfold props_of in Hcps. destruct (cell_at h c); congruence. }
    assert (∃ nk, head (keys ++ [last]) = Some nk ∧ plain_key nk = true) as (nk & Hhd & Hnk).
    { destruct keys as [|k' keys']; cbn [app head].
      - exists last. auto.
      - exists k'. inversion Hks'; subst. auto. }
    cbn [app write_segs]. rewrite Hhd.
    rewrite (run_ok _ _ _ _ _
               (write_step_key_descend rec v k nk h c cps child Hk Hnk Hcc Hchild Hco)).
    eapply IH; eauto.
Qed.

(** ** Reading along own properties *)

Lemma bind_ret_r {A} (m : M A) h : bind m ret h = m h.
Proof. unfold bind. destruct (m h) as [[a|e| |] h']; reflexivity. Qed.

Lemma read_step_key rec (k : string) cur h ps :
  plain_key k = true → props_of h cur = Some ps →
  read_step rec cur k h = member cur ps k h.
Proof.
  intros Hk Hps. destruct (plain_key_facts k Hk) as (Ha & Hi & E1 & E2 & _).
  unfold read_step. rewrite E1, E2, Ha, Hi. cbn [orb]. mrun. rewrite Hps. reflexivity.
Qed.

(** Reading one plain key from a plain object is the read of that
    property. *)
Lemma readValue_member h l ps (k : string) :
  cell_at h l = CObj ps → plain_key k = true →
  readValue (VRef l) (VStr k) h = member (VRef l) ps k h.
Proof.
  intros Hcell Hk. destruct (plain_key_facts k Hk) as (_ & _ & E1 & _ & _ & Hr).
  unfold readValue. cbn [readValue_aux]. rewrite E1, Hr. cbn [reduce].
  change (λ acc : jsval, ret acc) with (@ret jsval). rewrite bind_ret_r.
  apply read_step_key; [exact Hk|]. unfold props_of. rewrite Hcell. reflexivity.
Qed.

Lemma read_walk rec h : ∀ keys cur x,
  Forall (λ k, plain_key k = true) keys → walk h cur keys = Some x →
  reduce (read_step rec) keys cur h = (Ok x, h).
Proof.
  induction keys as [|k keys IH]; intros cur x Hks H; cbn [walk] in H.
  - injection H as <-. reflexivity.
  - inversion Hks as [|? ? Hk Hks']; subst.
    destruct (props_of h cur) as [ps|] eqn:Hps; [|discriminate].
    destruct (prop_get k ps) as [v|] eqn:Hv; [|discriminate].
    destruct (isObject h v); [|discriminate].
    cbn [reduce]. erewrite run_ok; [apply IH; eassumption|].
    rewrite (read_step_key rec k cur h ps Hk Hps). apply member_own, Hv.
Qed.

Lemma isObject_insert h p ps ps' v :
  cell_at h p = CObj ps → isObject (<[p := CObj ps']> h) v = isObject h v.
Proof.
  intros Hcell. destruct v as [| | | | |l|]; try reflexivity.
  rewrite !isObject_ref. destruct (decide (p = l)) as [<-|Hl].
  - destruct (Nat.lt_ge_cases p (length h)) as [Hp|Hp].
    + rewrite cell_at_insert by exact Hp. rewrite Hcell. reflexivity.
    + rewrite list_insert_ge by exact Hp. reflexivity.
  - rewrite cell_at_insert_ne by exact Hl. reflexivity.
Qed.

Lemma walk_insert h p ps (last : string) v : ∀ keys cur x,
  cell_at h p = CObj ps → last ∉ keys →
  walk h cur keys = Some x →
  walk (<[p := CObj (prop_set last v ps)]> h) cur keys = Some x.
Proof.
  induction keys as [|k keys IH]; intros cur x Hcell Hnot H; [exact H|].
  apply not_elem_of_cons in Hnot as [Hne Hnot]. cbn [walk] in *.
  destruct (props_of h cur) as [cps|] eqn:Hps; [|discriminate].
  destruct (prop_get k cps) as [c|] eqn:Hc; [|discriminate].
  destruct (isObject h c) eqn:Hco; [|discriminate].
  assert (∃ cps', props_of (<[p := CObj (prop_set last v ps)]> h) cur = Some cps'
                  ∧ prop_get k cps' = Some c) as (cps' & -> & ->).
  { destruct cur as [| | | | |l|[]]; try discriminate Hps.
    - unfold props_of in *. destruct (decide (p = l)) as [<-|Hl].
      + destruct (Nat.lt_ge_cases p (length h)) as [Hp|Hp].
        * rewrite cell_at_insert by exact Hp. rewrite Hcell in Hps. injection Hps as <-.
          eexists. split; [reflexivity|]. rewrite prop_get_set_ne by congruence. exact Hc.
        * rewrite list_insert_ge by exact Hp. rewrite Hps. eauto.
      + rewrite cell_at_insert_ne by exact Hl. rewrite Hps. eauto.
    - cbn in *. eauto. }
  rewrite (isObject_insert h p ps _ c Hcell), Hco. apply IH; assumption.
Qed.

(** ** Cutting a map string at its colons *)

Lemma split_chars_colon_free sep w : ∀ acc,
  sep ∉ w → split_chars sep acc w = [rev acc ++ w].
Proof.
  induction w as [|c w IH]; intros acc Hw; cbn [split_chars].
  - rewrite app_nil_r. reflexivity.
  - apply not_elem_of_cons in Hw as [Hc Hw].
    rewrite eqb_neq by congruence. rewrite IH by exact Hw.
    cbn [rev]. rewrite <- app_assoc. reflexivity.
Qed.

Lemma split_chars_at sep w : ∀ acc rest,
  sep ∉ w →
  split_chars sep acc (w ++ sep :: rest) = (rev acc ++ w) :: split_chars sep [] rest.
Proof.
  induction w as [|c w IH]; intros acc rest Hw; cbn [split_chars app].
  - rewrite Ascii.eqb_refl, app_nil_r. reflexivity.
  - apply not_elem_of_cons in Hw as [Hc Hw].
    rewrite eqb_neq by congruence. rewrite IH by exact Hw.
    cbn [rev]. rewrite <- app_assoc. reflexivity.
Qed.

(** The two parts [resolveMap] takes from a map string. *)
Lemma split_on_colon_none (src : string) :
  ":"%char ∉ list_ascii_of_string src → split_on ":" src = [src].
Proof.
  intros Hs. unfold split_on. rewrite split_chars_colon_free by exact Hs.
  cbn. rewrite string_of_list_ascii_of_string. reflexivity.
Qed.

Lemma split_on_colon_two (src tgt rest : string) :
  ":"%char ∉ list_ascii_of_string src → ":"%char ∉ list_ascii_of_string tgt →
  (rest = "" ∨ ∃ more, rest = String ":" more) →
  ∃ others,
    split_on ":" (String.append src (String ":" (String.append tgt rest)))
    = src :: tgt :: others.
Proof.
  intros Hs Ht Hrest. unfold split_on.
  rewrite list_ascii_of_string_app. cbn [list_ascii_of_string].
  rewrite split_chars_at by exact Hs. rewrite list_ascii_of_string_app.
  cbn [rev app List.map]. rewrite string_of_list_ascii_of_string.
  destruct Hrest as [->|[more ->]].
  - cbn [list_ascii_of_string]. rewrite app_nil_r.
    rewrite split_chars_colon_free by exact Ht.
    cbn. rewrite string_of_list_ascii_of_string. eauto.
  - cbn [list_ascii_of_string]. rewrite split_chars_at by exact Ht.
    cbn. rewrite string_of_list_ascii_of_string. eauto.
Qed.

(** A character that does not occur in a given string. *)
Ltac absent_char :=
  let H := fresh in
  vm_compute; intros H;
  repeat (apply elem_of_cons in H as [H|H]; [discriminate H|]);
  inversion H.

(** ** A source that is [undefined] or [null] *)

Lemma read_step_nullish rec cur (key : string) h :
  cur = VUndef ∨ cur = VNull → key ≠ "" →
  ∃ x, read_step rec cur key h = (Ok x, h) ∧ (x = VUndef ∨ x = VNull).
Proof.
  intros Hc Hk. unfold read_step.
  rewrite (proj2 (String.eqb_neq _ _)) by exact Hk.
  destruct (String.eqb key "*"); [exists cur; split; [reflexivity|exact Hc]|].
  exists VUndef. split; [|left; reflexivity].
  destruct (isArrayKey key || isIndexKey key); mrun;
    destruct Hc as [-> | ->]; reflexivity.
Qed.

Lemma reduce_nullish rec : ∀ segments cur h,
  Forall (λ key : string, key ≠ "") segments →
  cur = VUndef ∨ cur = VNull →
  ∃ x, reduce (read_step rec) segments cur h = (Ok x, h) ∧ (x = VUndef ∨ x = VNull).
Proof.
  induction segments as [|key segments IH]; intros cur h Hs Hc.
  - exists cur. split; [reflexivity|exact Hc].
  - inversion Hs as [|? ? Hk Hs']; subst. cbn [reduce].
    destruct (read_step_nullish rec cur key h Hc Hk) as (x & Hx & Hn).
    rewrite (run_ok _ _ _ _ _ Hx). apply IH; assumption.
Qed.

Lemma readValue_nullish obj (p : string) h :
  obj = VUndef ∨ obj = VNull → p ≠ "" →
  ∃ x, readValue obj (VStr p) h = (Ok x, h) ∧ (x = VUndef ∨ x = VNull).
Proof.
  intros Ho Hp. unfold readValue. rewrite readValue_aux_eq.
  rewrite (proj2 (String.eqb_neq _ _)) by exact Hp.
  destruct (match_all read_re p) as [segments|] eqn:E.
  - apply reduce_nullish; [|exact Ho]. apply Forall_forall. intros key Hkey.
    apply lang_read_nonempty. eapply match_all_sound; eauto.
  - exists VUndef. split; [reflexivity|left; reflexivity].
Qed.

Lemma resolveMapArray_nullish n obj items h :
  obj = VUndef ∨ obj = VNull →
  resolveMapArray (S n) obj (SArr items) h = (Ok [], h).
Proof.
  intros Ho. cbn [resolveMapArray].
  assert (∀ (rest : list spec) (prefix : string) x,
            x = VUndef ∨ x = VNull →
            (let '(workingMapArray, sourceObj, identifierPrefix) := (rest, x, prefix) in
             if isUndefined sourceObj || isNull sourceObj then ret []
             else resolve_items (resolveMapArray n) sourceObj identifierPrefix
                    workingMapArray) h = (Ok [], h)) as Hend.
  { intros rest prefix x [-> | ->]; reflexivity. }
  unfold resolve_mapper.
  destruct items as [|[first|sub|] rest]; mrun; try (apply Hend; exact Ho).
  destruct (isMapper first); mrun; [|apply Hend; exact Ho].
  destruct (negb (String.eqb _ "")) eqn:E; mrun.
  - apply negb_true_iff, String.eqb_neq in E.
    destruct (readValue_nullish obj _ h Ho E) as (x & Hx & Hn).
    rewrite (run_ok _ _ _ _ _ Hx). mrun. apply Hend, Hn.
  - apply Hend, Ho.
Qed.

Lemma process_all_null n newObj : ∀ fields h,
  process_all (S n) VNull newObj fields h = (Ok newObj, h).
Proof.
  induction fields as [|mapSpec fields IH]; intros h; [reflexivity|].
  cbn [process_all]. unfold processMap.
  destruct mapSpec as [s|items|]; cbn [toMapArray]; mrun.
  - rewrite (run_ok _ _ _ _ _ (resolveMapArray_nullish n VNull _ h (or_intror eq_refl))).
    cbn [apply_fields]. mrun. apply IH.
  - rewrite (run_ok _ _ _ _ _ (resolveMapArray_nullish n VNull _ h (or_intror eq_refl))).
    cbn [apply_fields]. mrun. apply IH.
  - apply IH.
Qed.

(** ** Mappers *)

(** [isMapper] in terms of the words of its two alternatives. *)
Lemma isMapper_lang (s : string) :
  isMapper s = true
  ↔ lang (keypath ⊙ ROpt (lit ":" ⊙ keypath) ⊙ lit ".")%re (list_ascii_of_string s)
    ∨ lang (lit ":" ⊙ keypath ⊙ ROpt (lit "."))%re (list_ascii_of_string s).
Proof.
  unfold isMapper, mapper_re. rewrite test_alt_anchored, !rmatch_eol3.
  rewrite orb_true_iff, !bool_decide_eq_true, !anchored_plain by reflexivity.
  reflexivity.
Qed.

Lemma isMapper_read (r : string) :
  dotted (list_ascii_of_string r) → isMapper (String.append r ".") = true.
Proof.
  intros Hr. apply isMapper_lang. left. rewrite list_ascii_of_string_app.
  exists (list_ascii_of_string r), ["."%char]. split; [reflexivity|].
  split; [apply lang_keypath_dotted, Hr|].
  exists [], ["."%char]. split; [reflexivity|]. split; [right; reflexivity|].
  apply lang_lit_iff. reflexivity.
Qed.

Lemma isMapper_read_write (r t : string) :
  dotted (list_ascii_of_string r) → dotted (list_ascii_of_string t) →
  isMapper (String.append r (String ":" (String.append t "."))) = true.
Proof.
  intros Hr Ht. apply isMapper_lang. left.
  rewrite list_ascii_of_string_app. cbn [list_ascii_of_string].
  rewrite list_ascii_of_string_app.
  exists (list_ascii_of_string r), (":"%char :: list_ascii_of_string t ++ ["."%char]).
  split; [reflexivity|]. split; [apply lang_keypath_dotted, Hr|].
  exists (":"%char :: list_ascii_of_string t), ["."%char]. split; [reflexivity|].
  split; [|apply lang_lit_iff; reflexivity].
  left. exists [":"%char], (list_ascii_of_string t). split; [reflexivity|].
  split; [apply lang_lit_iff; reflexivity|apply lang_keypath_dotted, Ht].
Qed.

Lemma isMapper_write (t : string) :
  dotted (list_ascii_of_string t) → isMapper (String ":" t) = true.
Proof.
  intros Ht. apply isMapper_lang. right. cbn [list_ascii_of_string].
  exists [":"%char], (list_ascii_of_string t). split; [reflexivity|].
  split; [apply lang_lit_iff; reflexivity|].
  exists (list_ascii_of_string t), []. rewrite app_nil_r. split; [reflexivity|].
  split; [apply lang_keypath_dotted, Ht|right; reflexivity].
Qed.

Lemma isMapper_write_read (t : string) :
  dotted (list_ascii_of_string t) → isMapper (String ":" (String.append t ".")) = true.
Proof.
  intros Ht. apply isMapper_lang. right. cbn [list_ascii_of_string].
  rewrite list_ascii_of_string_app.
  exists [":"%char], (list_ascii_of_string t ++ ["."%char]). split; [reflexivity|].
  split; [apply lang_lit_iff; reflexivity|].
  exists (list_ascii_of_string t), ["."%char]. split; [reflexivity|].
  split; [apply lang_keypath_dotted, Ht|left; apply lang_lit_iff; reflexivity].
Qed.

Lemma exec_mappersplit pre suf :
  exec mappersplit_re (pre, suf) =
  match suf with
  | c :: r =>
      if Ascii.eqb c ":" || (Ascii.eqb c "." && bool_decide (r = []))
      then Some (c :: pre, r) else None
  | [] => None
  end.
Proof.
  unfold exec, mappersplit_re, lit. rewrite rmatch_alt, rmatch_seq.
  destruct suf as [|c r]; [rewrite !rmatch_char_nil; reflexivity|].
  rewrite !rmatch_char_cons.
  destruct (Ascii.eqb_spec ":" c) as [<-|Hc]; [reflexivity|].
  rewrite (eqb_neq c ":") by congruence. cbn [orb].
  destruct (Ascii.eqb_spec "." c) as [<-|Hd].
  - cbn [Ascii.eqb Bool.eqb andb]. destruct r; [rewrite rmatch_eol_nil|rewrite rmatch_eol_cons];
      reflexivity.
  - rewrite (eqb_neq c ".") by congruence. reflexivity.
Qed.

Lemma split_loop_mcut : ∀ n suf acc pre,
  length suf ≤ n → split_loop mappersplit_re n acc (pre, suf) = mcut acc suf.
Proof.
  induction n as [|n IH]; intros suf acc pre Hn.
  - destruct suf; [|cbn in Hn; lia]. cbn. rewrite app_nil_r. reflexivity.
  - cbn [split_loop snd]. destruct suf as [|c r]; [reflexivity|].
    rewrite exec_mappersplit. cbn [mcut]. cbn [length] in Hn.
    destruct (Ascii.eqb c ":" || (Ascii.eqb c "." && bool_decide (r = []))).
    + unfold pos. cbn [fst length].
      rewrite (proj2 (Nat.eqb_neq _ _)) by lia. cbn [andb].
      rewrite IH by lia. reflexivity.
    + apply IH. lia.
Qed.

Lemma split_mapper (s : string) :
  split mappersplit_re s
  = List.map string_of_list_ascii (mcut [] (list_ascii_of_string s)).
Proof.
  unfold split. destruct (list_ascii_of_string s) as [|c cs] eqn:E.
  - rewrite exec_mappersplit. reflexivity.
  - rewrite split_loop_mcut by lia. reflexivity.
Qed.

Lemma mcut_dot w : ∀ acc,
  ":"%char ∉ w → mcut acc (w ++ ["."%char]) = [rev acc ++ w; []].
Proof.
  induction w as [|c w IH]; intros acc Hw; cbn [app mcut].
  - cbn. rewrite app_nil_r. reflexivity.
  - apply not_elem_of_cons in Hw as [Hc Hw].
    rewrite (eqb_neq c ":") by congruence.
    rewrite (bool_decide_eq_false_2 (w ++ ["."%char] = [])) by (destruct w; discriminate).
    rewrite andb_false_r. cbn [orb]. rewrite IH by exact Hw.
    cbn [rev]. rewrite <- app_assoc. reflexivity.
Qed.

Lemma mcut_colon w : ∀ acc rest,
  ":"%char ∉ w → mcut acc (w ++ ":"%char :: rest) = (rev acc ++ w) :: mcut [] rest.
Proof.
  induction w as [|c w IH]; intros acc rest Hw; cbn [app mcut].
  - cbn. rewrite app_nil_r. reflexivity.
  - apply not_elem_of_cons in Hw as [Hc Hw].
    rewrite (eqb_neq c ":") by congruence.
    rewrite (bool_decide_eq_false_2 (w ++ ":"%char :: rest = [])) by (destruct w; discriminate).
    rewrite andb_false_r. cbn [orb]. rewrite IH by exact Hw.
    cbn [rev]. rewrite <- app_assoc. reflexivity.
Qed.

Lemma mcut_end w c : ∀ acc,
  ":"%char ∉ w → c ≠ ":"%char → c ≠ "."%char →
  mcut acc (w ++ [c]) = [rev acc ++ w ++ [c]].
Proof.
  induction w as [|d w IH]; intros acc Hw Hc Hd; cbn [app mcut].
  - rewrite !eqb_neq by congruence. cbn [orb andb rev]. reflexivity.
  - apply not_elem_of_cons in Hw as [Hd' Hw].
    rewrite (eqb_neq d ":") by congruence.
    rewrite (bool_decide_eq_false_2 (w ++ [c] = [])) by (destruct w; discriminate).
    rewrite andb_false_r. cbn [orb]. rewrite IH by assumption.
    cbn [rev]. rewrite <- app_assoc. reflexivity.
Qed.

Lemma dotted_no_colon w : dotted w → ":"%char ∉ w.
Proof.
  intros H%lang_keypath_dotted%lang_alphabet Hin. rewrite Forall_forall in H.
  specialize (H _ Hin). vm_compute in H. discriminate H.
Qed.

Lemma keyrun_last w : keyrun w → ∃ w' c, w = w' ++ [c] ∧ is_key c = true.
Proof.
  intros Hk. destruct (keyrun_rev_head w Hk) as (c & t & Hrev & Hc).
  exists (rev t), c. split; [|exact Hc].
  rewrite <- (rev_involutive w), Hrev. reflexivity.
Qed.

Lemma dotted_last w : dotted w → ∃ w' c, w = w' ++ [c] ∧ is_key c = true.
Proof.
  intros (ws & Hne & Hws & ->). induction Hws as [|w ws Hw Hws IH]; [done|].
  destruct ws as [|w2 ws].
  - cbn. apply keyrun_last, Hw.
  - destruct (IH ltac:(discriminate)) as (w' & c & E & Hc).
    exists (w ++ "."%char :: w'), c. split; [|exact Hc].
    change (join_dots (w :: w2 :: ws)) with (w ++ "."%char :: join_dots (w2 :: ws)).
    rewrite E, <- app_assoc. reflexivity.
Qed.

Lemma mcut_dotted w acc : dotted w → mcut acc w = [rev acc ++ w].
Proof.
  intros Hd. pose proof (dotted_no_colon w Hd) as Hc.
  destruct (dotted_last w Hd) as (w' & c & -> & Hk).
  destruct (is_key_not_special c Hk) as (Hdot & _ & _ & _ & Hcol & _).
  apply mcut_end; auto.
  intros Hin. apply Hc, elem_of_app. left. exact Hin.
Qed.

Lemma ends_with_dot_app (s : string) : ends_with_dot (String.append s ".") = true.
Proof.
  unfold ends_with_dot. rewrite list_ascii_of_string_app, rev_app_distr. reflexivity.
Qed.

Lemma ends_with_dot_dotted (s : string) pre :
  dotted (list_ascii_of_string s) →
  ends_with_dot (string_of_list_ascii (pre ++ list_ascii_of_string s)) = false.
Proof.
  intros Hd. destruct (dotted_last _ Hd) as (w' & c & E & Hk).
  destruct (is_key_not_special c Hk) as (Hdot & _).
  unfold ends_with_dot. rewrite list_ascii_of_string_of_list_ascii, E, app_assoc, rev_app_distr.
  cbn [rev app]. apply eqb_neq. exact Hdot.
Qed.

Lemma dotted_string_nonempty (s : string) :
  dotted (list_ascii_of_string s) → String.eqb s "" = false.
Proof.
  intros Hd. apply String.eqb_neq. intros ->. exact (dotted_nonempty _ Hd eq_refl).
Qed.

(** A prefix distributes over the items of a map array. *)
Lemma add_prefix_empty rs : List.map (add_prefix "") rs = rs.
Proof.
  induction rs as [|[k v] rs IH]; [reflexivity|]. cbn [List.map]. rewrite IH. reflexivity.
Qed.

Lemma add_prefix_twice p rs :
  List.map (add_prefix p) (List.map (add_prefix "") rs) = List.map (add_prefix p) rs.
Proof. rewrite add_prefix_empty. reflexivity. Qed.

Lemma resolve_items_prefix rec src p : ∀ items h,
  resolve_items rec src p items h = prefixed p (resolve_items rec src "" items) h.
Proof.
  unfold prefixed.
  induction items as [|item items IH]; intros h; [reflexivity|].
  cbn [resolve_items]. unfold bind, ret in *.
  destruct item as [s|sub|].
  - destruct (test multi_re s).
    + destruct (rec src (toMapArray (SStr s)) h) as [[nested|e| |] h1]; try reflexivity.
      rewrite IH.
      destruct (resolve_items rec src "" items h1) as [[others|e| |] h2]; try reflexivity.
      rewrite List.map_app, add_prefix_twice. reflexivity.
    + destruct (resolveMap src (SStr s) h) as [[result|e| |] h1]; try reflexivity.
      rewrite IH.
      destruct (resolve_items rec src "" items h1) as [[others|e| |] h2]; reflexivity.
  - destruct (rec src (SArr sub) h) as [[nested|e| |] h1]; try reflexivity.
    rewrite IH.
    destruct (resolve_items rec src "" items h1) as [[others|e| |] h2]; try reflexivity.
    rewrite List.map_app, add_prefix_twice. reflexivity.
  - rewrite IH.
    destruct (resolve_items rec src "" items h) as [[others|e| |] h2]; reflexivity.
Qed.

Lemma split_mapper_read (r : string) :
  dotted (list_ascii_of_string r) →
  split mappersplit_re (String.append r ".") = [r; ""].
Proof.
  intros Hr. rewrite split_mapper, list_ascii_of_string_app.
  change (list_ascii_of_string ".") with ["."%char].
  rewrite mcut_dot by (apply dotted_no_colon, Hr).
  cbn [rev app List.map]. rewrite string_of_list_ascii_of_string. reflexivity.
Qed.

Lemma split_mapper_read_write (r t : string) :
  dotted (list_ascii_of_string r) → dotted (list_ascii_of_string t) →
  split mappersplit_re (String.append r (String ":" (String.append t "."))) = [r; t; ""].
Proof.
  intros Hr Ht. rewrite split_mapper, list_ascii_of_string_app.
  cbn [list_ascii_of_string]. rewrite list_ascii_of_string_app.
  change (list_ascii_of_string ".") with ["."%char].
  rewrite mcut_colon by (apply dotted_no_colon, Hr).
  rewrite mcut_dot by (apply dotted_no_colon, Ht).
  cbn [rev app List.map]. rewrite !string_of_list_ascii_of_string. reflexivity.
Qed.

Lemma split_mapper_write (t : string) :
  dotted (list_ascii_of_string t) →
  split mappersplit_re (String ":" t) = [""; t].
Proof.
  intros Ht. rewrite split_mapper. cbn [list_ascii_of_string].
  pose proof (mcut_colon [] [] (list_ascii_of_string t)) as H.
  cbn [app rev] in H. rewrite H by (intros Hin; inversion Hin).
  rewrite mcut_dotted by exact Ht.
  cbn [rev app List.map]. rewrite !string_of_list_ascii_of_string. reflexivity.
Qed.

Lemma split_mapper_write_read (t : string) :
  dotted (list_ascii_of_string t) →
  split mappersplit_re (String ":" (String.append t ".")) = [""; t; ""].
Proof.
  intros Ht. rewrite split_mapper. cbn [list_ascii_of_string].
  rewrite list_ascii_of_string_app. change (list_ascii_of_string ".") with ["."%char].
  pose proof (mcut_colon [] [] (list_ascii_of_string t ++ ["."%char])) as H.
  cbn [app rev] in H. rewrite H by (intros Hin; inversion Hin).
  rewrite mcut_dot by (apply dotted_no_colon, Ht).
  cbn [rev app List.map]. rewrite !string_of_list_ascii_of_string. reflexivity.
Qed.

Lemma ends_with_dot_write (t : string) :
  dotted (list_ascii_of_string t) → ends_with_dot (String ":" t) = false.
Proof.
  intros Ht. pose proof (ends_with_dot_dotted t [":"%char] Ht) as H.
  cbn [app string_of_list_ascii] in H.
  rewrite string_of_list_ascii_of_string in H. exact H.
Qed.

Lemma resolveMapArray_no_mapper n src rest h :
  no_mapper_head rest →
  resolveMapArray (S n) src (SArr rest) h
  = (if isUndefined src || isNull src then ret []
     else resolve_items (resolveMapArray n) src "" rest) h.
Proof.
  intros Hno. cbn [resolveMapArray]. unfold resolve_mapper.
  destruct rest as [|[s|sub|] rest']; mrun; try reflexivity.
  cbn [no_mapper_head] in Hno. rewrite Hno. mrun. reflexivity.
Qed.

Lemma prefixed_ret p h : prefixed p (ret []) h = ret [] h.
Proof. reflexivity. Qed.

(** What is resolved behind a mapper. *)
Lemma resolve_tail n src prefix rest h :
  no_mapper_head rest →
  (if isUndefined src || isNull src then ret []
   else resolve_items (resolveMapArray n) src prefix rest) h
  = prefixed prefix (resolveMapArray (S n) src (SArr rest)) h.
Proof.
  intros Hno. unfold prefixed at 1. unfold bind.
  rewrite resolveMapArray_no_mapper by exact Hno.
  destruct (isUndefined src || isNull src); [reflexivity|].
  rewrite resolve_items_prefix. reflexivity.
Qed.

Lemma prefixed_empty (m : M (list (string * jsval))) h : prefixed "" m h = m h.
Proof.
  unfold prefixed, bind, ret. destruct (m h) as [[rs|e| |] h']; try reflexivity.
  rewrite add_prefix_empty. reflexivity.
Qed.

Lemma bind_ext {A B} (m : M A) (f g : A → M B) h :
  (∀ a h', f a h' = g a h') → bind m f h = bind m g h.
Proof. intros H. unfold bind. destruct (m h) as [[a|e| |] h']; auto. Qed.

Lemma resolveMapArray_eq n obj items :
  resolveMapArray (S n) obj (SArr items)
  = (let* m := resolve_mapper obj items in
     let '(workingMapArray, sourceObj, identifierPrefix) := m in
     if isUndefined sourceObj || isNull sourceObj then ret []
     else resolve_items (resolveMapArray n) sourceObj identifierPrefix workingMapArray).
Proof. reflexivity. Qed.

Lemma bind_congr {A B} (m m' : M A) (f : A → M B) h :
  m h = m' h → bind m f h = bind m' f h.
Proof. intros H. unfold bind. rewrite H. reflexivity. Qed.

(** The mapper at the head of a map array, from its pieces. *)
Lemma resolve_mapper_parts obj (first : string) rest (readPath writePath : string) others h :
  isMapper first = true →
  split mappersplit_re first = readPath :: writePath :: others →
  resolve_mapper obj (SStr first :: rest) h
  = (let* sourceObj :=
       (if negb (String.eqb
                   (if negb (String.eqb readPath "") then readPath
                    else if ends_with_dot first then writePath else "") "")
        then readValue obj
               (VStr (if negb (String.eqb readPath "") then readPath
                      else if ends_with_dot first then writePath else ""))
        else ret obj) in
     ret (rest, sourceObj,
          if negb (String.eqb writePath "") then String.append writePath "." else "")) h.
Proof. intros Hm Hs. unfold resolve_mapper. rewrite Hm, Hs. reflexivity. Qed.

Lemma resolve_mapper_read obj (r : string) rest h :
  dotted (list_ascii_of_string r) →
  resolve_mapper obj (SStr (String.append r ".") :: rest) h
  = (let* src := readValue obj (VStr r) in ret (rest, src, "")) h.
Proof.
  intros Hr.
  rewrite (resolve_mapper_parts obj _ rest r "" [] h
             (isMapper_read r Hr) (split_mapper_read r Hr)).
  rewrite (dotted_string_nonempty r Hr). cbn [negb].
  rewrite (dotted_string_nonempty r Hr). reflexivity.
Qed.

Lemma resolve_mapper_read_write obj (r t : string) rest h :
  dotted (list_ascii_of_string r) → dotted (list_ascii_of_string t) →
  resolve_mapper obj (SStr (String.append r (String ":" (String.append t "."))) :: rest) h
  = (let* src := readValue obj (VStr r) in ret (rest, src, String.append t ".")) h.
Proof.
  intros Hr Ht.
  rewrite (resolve_mapper_parts obj _ rest r t [""] h
             (isMapper_read_write r t Hr Ht) (split_mapper_read_write r t Hr Ht)).
  rewrite (dotted_string_nonempty r Hr), (dotted_string_nonempty t Ht). cbn [negb].
  rewrite (dotted_string_nonempty r Hr). reflexivity.
Qed.

Lemma resolve_mapper_write obj (t : string) rest h :
  dotted (list_ascii_of_string t) →
  resolve_mapper obj (SStr (String ":" t) :: rest) h
  = (Ok (rest, obj, String.append t "."), h).
Proof.
  intros Ht.
  rewrite (resolve_mapper_parts obj _ rest "" t [] h
             (isMapper_write t Ht) (split_mapper_write t Ht)).
  rewrite (ends_with_dot_write t Ht), (dotted_string_nonempty t Ht). reflexivity.
Qed.

Lemma resolve_mapper_write_read obj (t : string) rest h :
  dotted (list_ascii_of_string t) →
  resolve_mapper obj (SStr (String ":" (String.append t ".")) :: rest) h
  = (let* src := readValue obj (VStr t) in ret (rest, src, String.append t ".")) h.
Proof.
  intros Ht.
  rewrite (resolve_mapper_parts obj _ rest "" t [""] h
             (isMapper_write_read t Ht) (split_mapper_write_read t Ht)).
  change (String ":" (String.append t ".")) with (String.append (String ":" t) ".").
  rewrite ends_with_dot_app, (dotted_string_nonempty t Ht). cbn [negb String.eqb].
  rewrite (dotted_string_nonempty t Ht). reflexivity.
Qed.

Lemma plain_key_dotted (k : string) :
  plain_key k = true → dotted (list_ascii_of_string k).
Proof.
  intros Hk. apply (path_text_dotted [PKey k]); [discriminate|].
  constructor; [exact Hk|constructor].
Qed.

(** ** Trees of values that a call created *)

(** A write to a cell that existed before a call does not change the tree
    of a value the call created. *)
Lemma stringify_insert_fresh h0 h l c :
  extends h0 h → l < length h0 →
  ∀ n v, vfresh h0 v → stringify n (<[l := c]> h) v = stringify n h v.
Proof.
  intros He Hl. induction n as [|n IH]; intros v Hv; destruct v as [| | | | |l'|];
    try reflexivity.
  cbn [stringify vfresh] in *.
  rewrite cell_at_insert_ne by lia.
  pose proof (cell_at_fresh h0 h l' He Hv) as Hc.
  destruct (cell_at h l') as [ps|es ex].
  - erewrite mapM_same; [reflexivity|]. intros kv Hkv. cbn in Hc.
    unfold props_fresh in Hc. rewrite Forall_forall in Hc.
    rewrite IH by (apply Hc, Hkv). reflexivity.
  - erewrite mapM_same; [reflexivity|]. intros [v'|] Hin; [|reflexivity].
    destruct Hc as [Hc _]. unfold elems_fresh in Hc. rewrite Forall_forall in Hc.
    rewrite IH by (apply (Hc (Some v')), Hin). reflexivity.
Qed.

(** [JSON.parse] of the text of an object: the cells of the fields, then
    the cell of the object; each property stands for its field. *)
Lemma parse_object fields h :
  wf_json (JObj fields) → heap_closed h →
  ∃ ps h2,
    parse (JObj fields) h = (Ok (VRef (length (h ++ h2))), (h ++ h2) ++ [CObj ps])
    ∧ heap_closed (h ++ h2)
    ∧ heap_closed ((h ++ h2) ++ [CObj ps])
    ∧ Forall2 (λ kj kv, fst kv = fst kj ∧ stands_for (h ++ h2) (snd kv) (snd kj)) fields ps.
Proof.
  intros Hwf Hc. apply wf_json_fields in Hwf as [Hnd Hwf].
  assert (Forall (λ kv, parses (snd kv)) fields) as Hall.
  { eapply Forall_impl; [exact Hwf|]. intros kv. apply parse_spec. }
  destruct (parse_fields_spec fields Hall Hnd [] h Hc) as (ps & a & E & Hca & HF).
  { intros k _ Hk. inversion Hk. }
  cbn [app] in E. exists ps, a. cbn [parse]. rewrite (bind_ok _ _ _ _ _ E).
  split; [reflexivity|]. split; [exact Hca|]. split; [|exact HF].
  apply heap_closed_alloc; [exact Hca|]. cbn.
  clear -HF. induction HF as [|kj kv fields ps (_ & Hv & _) _ IH];
    constructor; [exact Hv|exact IH].
Qed.

(** The properties of a parsed object against the fields of its tree. *)
Lemma fields_props (R : jsval → json → Prop) fields ps (k : string) :
  Forall2 (λ (kj : string * json) (kv : string * jsval),
             fst kv = fst kj ∧ R (snd kv) (snd kj)) fields ps →
  match field_get k fields with
  | Some j => ∃ v, prop_get k ps = Some v ∧ R v j
  | None => prop_get k ps = None
  end.
Proof.
  induction 1 as [|[k1 j] [k2 v] fields ps [Hk Hv] _ IH]; [reflexivity|].
  cbn [fst snd] in Hk, Hv. subst k2. cbn [field_get prop_get].
  destruct (String.eqb k1 k); [exists v; auto|exact IH].
Qed.

Lemma stands_for_null h v : stands_for h v JNull → v = VNull.
Proof.
  intros [_ Ht]. unfold tree_of in Ht.
  destruct v as [| | | | |l|[]]; cbn in Ht; try congruence.
  destruct (cell_at h l); destruct (mapM _ _); congruence.
Qed.

Lemma stands_for_defined h v j : stands_for h v j → v ≠ VUndef.
Proof. intros [_ Ht] ->. discriminate Ht. Qed.

(** ** Map strings that take one key *)

Lemma keyrun_colon_free w : keyrun w → colon_free w = true.
Proof.
  intros [_ Hw]. unfold colon_free. apply forallb_forall. intros c Hc.
  rewrite Forall_forall in Hw. specialize (Hw c (proj2 (list_elem_of_In _ _) Hc)).
  destruct (is_key_not_special c Hw) as (_ & _ & _ & _ & Hcol & Hcom).
  rewrite !eqb_neq by congruence. reflexivity.
Qed.

Lemma colon_free_no_colon w : colon_free w = true → ":"%char ∉ w.
Proof.
  unfold colon_free. rewrite forallb_forall. intros H Hin.
  specialize (H _ (proj1 (list_elem_of_In _ _) Hin)). discriminate H.
Qed.

Lemma sep_free_colon a b :
  colon_free a = true → colon_free b = true → sep_free (a ++ ":"%char :: b) = true.
Proof.
  intros Ha Hb. induction a as [|c a IH]; cbn [app sep_free].
  - cbn [Ascii.eqb Bool.eqb negb andb].
    rewrite (colon_free_sep_free b Hb), andb_true_r.
    destruct b as [|d b]; [reflexivity|].
    cbn [colon_free forallb] in Hb. apply andb_true_iff in Hb as [Hd _].
    apply andb_true_iff in Hd as [_ Hd]. apply negb_true_iff in Hd. rewrite Hd. reflexivity.
  - cbn [colon_free forallb] in Ha. apply andb_true_iff in Ha as [Hc Ha].
    apply andb_true_iff in Hc as [Hc1 Hc2]. apply negb_true_iff in Hc2.
    rewrite Hc1, Hc2, (IH Ha). reflexivity.
Qed.

Lemma pick_text_chars p :
  list_ascii_of_string (pick_text p)
  = match p with
    | Keep k => list_ascii_of_string k
    | Rename k t => list_ascii_of_string k ++ ":"%char :: list_ascii_of_string t
    end.
Proof.
  destruct p as [k|k t]; [reflexivity|]. cbn [pick_text].
  rewrite list_ascii_of_string_app. reflexivity.
Qed.

Lemma pick_ok_keyruns p :
  pick_ok p →
  keyrun (list_ascii_of_string (pick_source p))
  ∧ keyrun (list_ascii_of_string (pick_target p)).
Proof.
  intros (Hs & Ht & _). split.
  - apply (seg_keyrun (PKey _)), Hs.
  - apply (seg_keyrun (PKey _)), Ht.
Qed.

Lemma pick_text_sep_free p :
  pick_ok p → sep_free (list_ascii_of_string (pick_text p)) = true.
Proof.
  intros Hp. destruct (pick_ok_keyruns p Hp) as [Hs Ht]. rewrite pick_text_chars.
  destruct p as [k|k t]; cbn [pick_source pick_target] in *.
  - apply colon_free_sep_free, keyrun_colon_free, Hs.
  - apply sep_free_colon; apply keyrun_colon_free; assumption.
Qed.

Lemma toMapArray_single (s : string) :
  sep_free (list_ascii_of_string s) = true → toMapArray (SStr s) = SArr [SStr s].
Proof.
  intros Hs. unfold toMapArray. rewrite split_multi, cut_last by exact Hs.
  cbn [rev app List.map]. rewrite string_of_list_ascii_of_string. reflexivity.
Qed.

Lemma test_multi_sep_free cs : ∀ pre,
  sep_free cs = true → test_from multi_re pre cs = false.
Proof.
  induction cs as [|c r IH]; intros pre Hs; cbn [test_from]; rewrite exec_multi;
    [reflexivity|].
  cbn [sep_free] in Hs. apply andb_true_iff in Hs as [Hs H3].
  apply andb_true_iff in Hs as [H1 H2]. apply negb_true_iff in H1, H2.
  rewrite H1. destruct r as [|d r']; [apply IH, H3|].
  rewrite H2. apply IH, H3.
Qed.

(** A mapper ends with a dot or starts with a colon. *)
Lemma isMapper_ends (s : string) :
  isMapper s = true →
  (∃ w, list_ascii_of_string s = w ++ ["."%char])
  ∨ (∃ w, list_ascii_of_string s = ":"%char :: w).
Proof.
  intros H. apply isMapper_lang in H as [H|H].
  - left. destruct H as (w1 & w2 & -> & _ & w3 & w4 & -> & _ & Hd).
    apply lang_lit in Hd. subst w4. exists (w1 ++ w3). rewrite <- app_assoc. reflexivity.
  - right. destruct H as (w1 & w2 & -> & Hc & _). apply lang_lit in Hc. subst w1.
    exists w2. reflexivity.
Qed.

Lemma keyrun_first w : keyrun w → ∃ c w', w = c :: w' ∧ is_key c = true.
Proof.
  intros [Hne Hw]. destruct w as [|c w']; [done|].
  inversion Hw; subst. eauto.
Qed.

Lemma isMapper_pick p : pick_ok p → isMapper (pick_text p) = false.
Proof.
  intros Hp. destruct (pick_ok_keyruns p Hp) as [Hs Ht].
  destruct (isMapper (pick_text p)) eqn:E; [|reflexivity]. exfalso.
  apply isMapper_ends in E. rewrite pick_text_chars in E.
  destruct (keyrun_first _ Hs) as (a & wa & Ea & Ha).
  destruct (keyrun_last _ Ht) as (wz & z & Ez & Hz).
  destruct (is_key_not_special a Ha) as (_ & _ & _ & _ & Hacol & _).
  destruct (is_key_not_special z Hz) as (Hzdot & _).
  destruct E as [[w E]|[w E]].
  - assert (∃ w0, w0 ++ [z] = w ++ ["."%char]) as [w0 E0].
    { destruct p as [k|k t]; cbn [pick_source pick_target] in *.
      - exists wz. rewrite <- Ez. exact E.
      - exists (list_ascii_of_string k ++ ":"%char :: wz).
        rewrite <- E, Ez, <- app_assoc. reflexivity. }
    apply app_inj_tail in E0 as [_ ->]. done.
  - destruct p as [k|k t]; cbn [pick_source pick_target] in *;
      rewrite Ea in E; injection E as -> _; done.
Qed.

Lemma split_on_colon_pair (k t : string) :
  ":"%char ∉ list_ascii_of_string k → ":"%char ∉ list_ascii_of_string t →
  split_on ":" (String.append k (String ":" t)) = [k; t].
Proof.
  intros Hk Ht. unfold split_on. rewrite list_ascii_of_string_app.
  cbn [list_ascii_of_string]. rewrite split_chars_at by exact Hk.
  rewrite split_chars_colon_free by exact Ht.
  cbn [rev app List.map]. rewrite !string_of_list_ascii_of_string. reflexivity.
Qed.

Lemma resolveMap_pick lsrc ps p h :
  pick_ok p → cell_at h lsrc = CObj ps →
  resolveMap (VRef lsrc) (SStr (pick_text p)) h
  = (Ok (pick_target p, default VUndef (prop_get (pick_source p) ps)), h).
Proof.
  intros Hp Hcell. destruct (pick_ok_keyruns p Hp) as [Hs Ht].
  pose proof (colon_free_no_colon _ (keyrun_colon_free _ Hs)) as Hsc.
  pose proof (colon_free_no_colon _ (keyrun_colon_free _ Ht)) as Htc.
  destruct Hp as (Hps & Hpt & Hin & _). unfold resolveMap.
  destruct p as [k|k t]; cbn [pick_source pick_target pick_text] in *.
  - rewrite split_on_colon_none by exact Hsc.
    cbn [head default from_option id lookup list_lookup].
    rewrite (run_ok _ _ _ _ _ (readValue_key h lsrc ps k Hcell Hps Hin)).
    reflexivity.
  - rewrite split_on_colon_pair by assumption.
    cbn [head default from_option id lookup list_lookup].
    rewrite (run_ok _ _ _ _ _ (readValue_key h lsrc ps k Hcell Hps Hin)).
    destruct (plain_key_facts t Hpt) as (_ & _ & -> & _). reflexivity.
Qed.

(** [processMap] on a map string that takes one key: the source key is
    read and, when it holds a value, stored under the target key. *)
Lemma processMap_pick n lsrc lnew ps acc p h :
  pick_ok p → lsrc ≠ lnew →
  cell_at h lsrc = CObj ps → h !! lnew = Some (CObj acc) →
  pick_target p ∉ List.map fst acc →
  processMap (S n) (VRef lsrc) (VRef lnew) (SStr (pick_text p)) h
  = (Ok (VRef lnew), <[lnew := CObj (acc ++ taken ps p)]> h).
Proof.
  intros Hp Hne Hsrc Hnew Hfresh.
  pose proof (cell_at_lookup _ _ _ Hnew) as Hcn.
  pose proof (lookup_lt_Some _ _ _ Hnew) as Hln.
  assert (prop_get (pick_target p) acc = None) as Hget.
  { clear -Hfresh. induction acc as [|[k v] acc IH]; [reflexivity|].
    cbn [List.map fst] in Hfresh. apply not_elem_of_cons in Hfresh as [Hk Hf].
    cbn [prop_get]. rewrite (proj2 (String.eqb_neq _ _)) by congruence. apply IH, Hf. }
  unfold processMap.
  rewrite toMapArray_single by (apply pick_text_sep_free, Hp).
  rewrite resolveMapArray_eq, !run_bind_assoc. unfold resolve_mapper.
  rewrite isMapper_pick by exact Hp. mrun. cbn [resolve_items].
  unfold test. rewrite test_multi_sep_free by (apply pick_text_sep_free, Hp).
  cbn [isUndefined isNull orb]. rewrite !run_bind_assoc.
  rewrite (run_ok _ _ _ _ _ (resolveMap_pick lsrc ps p h Hp Hsrc)). mrun.
  cbn [app add_prefix fst snd String.append apply_fields apply_field].
  destruct Hp as (_ & Hpt & _ & Hit).
  destruct (plain_key_facts _ Hpt) as (_ & _ & _ & -> & _).
  rewrite !run_bind_assoc. unfold taken.
  assert (∀ v, v ≠ VUndef →
            (let* _ := writeValue (S n) (VRef lnew) (VStr (pick_target p)) v
             in ret (VRef lnew)) h
            = (Ok (VRef lnew),
               <[lnew := CObj (acc ++ [(pick_target p, nullish v)])]> h)) as Hstore.
  { intros v Hv.
    rewrite (run_ok _ _ _ _ _ (writeValue_key n h lnew acc _ v Hcn Hln Hpt
                                 (or_introl Hit) Hv)).
    rewrite Hget. cbn [default from_option id isObject props_of].
    rewrite prop_set_new by exact Hfresh. reflexivity. }
  destruct (default VUndef (prop_get (pick_source p) ps)) as [| | | | | |] eqn:Ev;
    try (rewrite Hstore by discriminate; reflexivity).
  rewrite writeValue_eq. cbn [isUndefined]. rewrite !run_bind_assoc.
  rewrite (run_ok _ _ _ _ _ (readValue_key h lnew acc _ Hcn Hpt Hit)).
  rewrite Hget. mrun.
  rewrite app_nil_r, list_insert_id by exact Hnew. reflexivity.
Qed.

Lemma taken_keys ps p k : k ∈ List.map fst (taken ps p) → k = pick_target p.
Proof.
  unfold taken. destruct (default VUndef _); cbn; intros H;
    try (apply elem_of_nil in H; done);
    apply list_elem_of_singleton in H; exact H.
Qed.

(** [mapObject]'s loop over map strings that take one key each, the
    targets being different keys. *)
Lemma process_all_picks n lsrc lnew ps : ∀ specs acc h,
  lsrc ≠ lnew → cell_at h lsrc = CObj ps → h !! lnew = Some (CObj acc) →
  Forall pick_ok specs → NoDup (List.map pick_target specs) →
  (∀ p, p ∈ specs → pick_target p ∉ List.map fst acc) →
  process_all (S n) (VRef lsrc) (VRef lnew) (List.map (λ p, SStr (pick_text p)) specs) h
  = (Ok (VRef lnew), <[lnew := CObj (acc ++ flat_map (taken ps) specs)]> h).
Proof.
  induction specs as [|p specs IH]; intros acc h Hne Hsrc Hnew Hok Hnd Hacc.
  - cbn. rewrite app_nil_r, list_insert_id by exact Hnew. reflexivity.
  - inversion Hok as [|? ? Hp Hok']; subst.
    cbn [List.map] in Hnd. apply NoDup_cons in Hnd as [Hp' Hnd].
    cbn [List.map process_all flat_map].
    rewrite (run_ok _ _ _ _ _
               (processMap_pick n lsrc lnew ps acc p h Hp Hne Hsrc Hnew
                  (Hacc p ltac:(left)))).
    pose proof (lookup_lt_Some _ _ _ Hnew) as Hln.
    rewrite (IH (acc ++ taken ps p)); auto.
    + rewrite list_insert_insert_eq, <- app_assoc. reflexivity.
    + rewrite cell_at_insert_ne by congruence. exact Hsrc.
    + apply list_lookup_insert_eq. exact Hln.
    + intros q Hq. rewrite map_app. intros Hin. apply elem_of_app in Hin as [Hin|Hin].
      * exact (Hacc q ltac:(right; exact Hq) Hin).
      * apply taken_keys in Hin. apply Hp'. rewrite <- Hin.
        apply list_elem_of_In, in_map, list_elem_of_In, Hq.
Qed.

(** ** [mapObject] on a source that is a plain object *)

Lemma heap_closed_nil : heap_closed [].
Proof. constructor. Qed.

(** Up to its loop: the new object, the test for [toObject] and the deep
    clone.  The source is parsed from the empty heap; the clone [ps'] of
    its properties sits in the last cell, after the new empty object. *)
Lemma mapObject_object_start n fields specs :
  wf_json (JObj fields) → field_get "toObject" fields = None →
  ∃ h1 src ps' hc,
    parse (JObj fields) [] = (Ok src, h1)
    ∧ heap_closed h1 ∧ stands_for h1 src (JObj fields)
    ∧ heap_closed ((h1 ++ [CObj []]) ++ hc)
    ∧ extends (h1 ++ [CObj []]) (((h1 ++ [CObj []]) ++ hc) ++ [CObj ps'])
    ∧ Forall2 (λ kj kv, fst kv = fst kj
                        ∧ stands_for ((h1 ++ [CObj []]) ++ hc) (snd kv) (snd kj))
        fields ps'
    ∧ mapObject n src specs h1
      = process_all n (VRef (length ((h1 ++ [CObj []]) ++ hc))) (VRef (length h1)) specs
          (((h1 ++ [CObj []]) ++ hc) ++ [CObj ps']).
Proof.
  intros Hwf Hto.
  destruct (parse_object fields [] Hwf heap_closed_nil) as (ps1 & h1' & E1 & _ & Hc1 & HF1).
  destruct (parse_spec (JObj fields) Hwf [] heap_closed_nil) as (v & hh & E & _ & Hs).
  cbn [app] in *. rewrite E1 in E. injection E as <- <-.
  set (h1 := h1' ++ [CObj ps1]) in *.
  assert (heap_closed (h1 ++ [CObj []])) as Hc2.
  { apply heap_closed_alloc; [exact Hc1|]. constructor. }
  destruct (parse_object fields (h1 ++ [CObj []]) Hwf Hc2)
    as (ps' & hc & E2 & Hcpre & _ & HF2).
  exists h1, (VRef (length h1')), ps', hc.
  split; [exact E1|]. split; [exact Hc1|]. split; [exact Hs|].
  split; [exact Hcpre|]. split; [|split; [exact HF2|]].
  - pose proof (safe_parse (h1 ++ [CObj []]) (JObj fields) (h1 ++ [CObj []])
                  (extends_refl _)) as [He _].
    rewrite E2 in He. exact He.
  - assert (cell_at h1 (length h1') = CObj ps1) as Hsrc by apply cell_at_alloc.
    assert (length h1' < length h1) as Hlt by (unfold h1; rewrite length_app; cbn; lia).
    unfold mapObject. mrun. rewrite isArray_ref, Hsrc. mrun. cbn [truthy].
    unfold get_prop. mrun. rewrite cell_at_app by exact Hlt. rewrite Hsrc.
    pose proof (fields_props _ fields ps1 "toObject" HF1) as Hp. rewrite Hto in Hp.
    erewrite run_ok by (apply member_none; [exact Hp|reflexivity]).
    mrun. cbn [truthy]. mrun.
    unfold json_clone. mrun.
    assert (stringify (S (length (h1 ++ [CObj []]))) (h1 ++ [CObj []]) (VRef (length h1'))
            = Some (Some (JObj fields))) as ->.
    { destruct Hs as [Hv Ht].
      apply (tree_of_extend h1 (h1 ++ [CObj []]) _ _ Hc1 Hv); [|exact Ht].
      apply take_app_length. }
    unfold bind. rewrite E2. reflexivity.
Qed.

Lemma mapM_app_Some {A B} (f : A → option B) l1 l2 r1 r2 :
  mapM f l1 = Some r1 → mapM f l2 = Some r2 → mapM f (l1 ++ l2) = Some (r1 ++ r2).
Proof.
  rewrite !mapM_Some. apply Forall2_app.
Qed.

(** The fields of the result of a pick, from the properties taken. *)
Lemma mapM_taken (f : string * jsval → option (list (string * json)))
    (g : jsval → option (option json)) hpre fields ps specs :
  (∀ k v, f (k, v) = match g v with
                     | Some (Some j) => Some [(k, j)]
                     | Some None => Some []
                     | None => None
                     end) →
  g VUndef = Some None →
  (∀ k v j, prop_get k ps = Some v → stands_for hpre v j → g v = Some (Some j)) →
  Forall2 (λ kj kv, fst kv = fst kj ∧ stands_for hpre (snd kv) (snd kj)) fields ps →
  ∃ fs, mapM f (flat_map (taken ps) specs) = Some fs
        ∧ concat fs = flat_map (picked fields) specs.
Proof.
  intros Hf Hu Hg HF. induction specs as [|p specs (fs & E & Hfs)].
  - exists []. split; reflexivity.
  - cbn [flat_map].
    assert (∃ fs1, mapM f (taken ps p) = Some fs1 ∧ concat fs1 = picked fields p)
      as (fs1 & E1 & Hfs1).
    { unfold taken, picked.
      pose proof (fields_props _ fields ps (pick_source p) HF) as Hp.
      destruct (field_get (pick_source p) fields) as [j|].
      - destruct Hp as (v & Hv & Hs). rewrite Hv. cbn [default from_option id].
        pose proof (stands_for_defined _ _ _ Hs) as Hd.
        assert (j = JNull ∨ j ≠ JNull) as [->|Hj]
          by (destruct j; (by left) || (by right)).
        + apply stands_for_null in Hs. subst v. cbn [nullish mapM].
          rewrite Hf, Hu. exists [[]]. split; reflexivity.
        + pose proof (stands_for_not_null _ _ _ Hs Hj) as Hn.
          exists [[(pick_target p, j)]].
          split; [|destruct j; done].
          pose proof (Hg _ _ _ Hv Hs) as Hgv.
          destruct v; try done; cbn [nullish mapM]; rewrite Hf, Hgv; reflexivity.
      - rewrite Hp. exists []. split; reflexivity. }
    exists (fs1 ++ fs). split; [apply mapM_app_Some; assumption|].
    rewrite concat_app, Hfs1, Hfs. reflexivity.
Qed.

(** The keys of the result of a pick. *)
Lemma taken_picked_keys hpre fields ps specs :
  Forall2 (λ kj kv, fst kv = fst kj ∧ stands_for hpre (snd kv) (snd kj)) fields ps →
  List.map fst (flat_map (taken ps) specs) = flat_map (picked_key fields) specs.
Proof.
  intros HF. induction specs as [|p specs IH]; [reflexivity|].
  cbn [flat_map]. rewrite map_app, IH. f_equal.
  unfold taken, picked_key.
  pose proof (fields_props _ fields ps (pick_source p) HF) as Hp.
  destruct (field_get (pick_source p) fields) as [j|].
  - destruct Hp as (v & -> & Hs). cbn [default from_option id].
    pose proof (stands_for_defined _ _ _ Hs) as Hd.
    destruct v; try reflexivity. done.
  - rewrite Hp. reflexivity.
Qed.

(** ** The wildcard *)

Lemma readValue_star obj h : readValue obj (VStr "*") h = (Ok obj, h).
Proof.
  unfold readValue. rewrite readValue_aux_eq.
  assert (match_all read_re "*" = Some ["*"%string]) as -> by (vm_compute; reflexivity).
  reflexivity.
Qed.

Lemma resolveMapArray_star n src h :
  src ≠ VUndef → src ≠ VNull →
  resolveMapArray (S n) src (SArr [SStr "*"]) h = (Ok [("*"%string, src)], h).
Proof.
  intros Hu Hn. rewrite resolveMapArray_eq. unfold resolve_mapper.
  assert (isMapper "*" = false) as -> by (vm_compute; reflexivity).
  mrun.
  assert (isUndefined src || isNull src = false) as -> by (destruct src; done).
  cbn [resolve_items].
  assert (test multi_re "*" = false) as -> by (vm_compute; reflexivity).
  unfold resolveMap.
  assert (split_on ":" "*" = ["*"%string]) as -> by (vm_compute; reflexivity).
  cbn [head default from_option id lookup list_lookup]. rewrite !run_bind_assoc.
  rewrite (run_ok _ _ _ _ _ (readValue_star src h)). mrun. reflexivity.
Qed.

(** [Object.assign] of new keys, none of them [__proto__], to a plain
    object. *)
Lemma assign_props_new l : ∀ ps acc h,
  h !! l = Some (CObj acc) → NoDup (List.map fst ps) →
  "__proto__" ∉ List.map fst ps →
  (∀ k, k ∈ List.map fst ps → k ∉ List.map fst acc) →
  assign_props (VRef l) ps h = (Ok tt, <[l := CObj (acc ++ ps)]> h).
Proof.
  induction ps as [|[k v] ps IH]; intros acc h Hl Hnd Hnp Hfr.
  - cbn [assign_props]. rewrite app_nil_r, list_insert_id by exact Hl. reflexivity.
  - cbn [assign_props List.map fst] in *. apply NoDup_cons in Hnd as [Hk Hnd].
    apply not_elem_of_cons in Hnp as [Hkp Hnp].
    rewrite (run_ok _ _ _ _ _ (set_prop_own l acc k v h (cell_at_lookup _ _ _ Hl)
                                 (or_introl (not_eq_sym Hkp)))).
    rewrite prop_set_new by (apply Hfr; left).
    rewrite (IH (acc ++ [(k, v)])).
    + rewrite list_insert_insert_eq, <- app_assoc. reflexivity.
    + apply list_lookup_insert_eq. eapply lookup_lt_Some, Hl.
    + exact Hnd.
    + exact Hnp.
    + intros k' Hk'. rewrite map_app, elem_of_app. cbn [List.map fst].
      intros [Hin|Hin%list_elem_of_singleton].
      * apply (Hfr k'); [right; exact Hk'|exact Hin].
      * subst k'. apply Hk, Hk'.
Qed.

Lemma processMap_star n lsrc lnew ps h :
  cell_at h lsrc = CObj ps → h !! lnew = Some (CObj []) →
  NoDup (List.map fst ps) → "__proto__" ∉ List.map fst ps →
  processMap (S n) (VRef lsrc) (VRef lnew) (SStr "*") h
  = (Ok (VRef lnew), <[lnew := CObj ps]> h).
Proof.
  intros Hsrc Hnew Hnd Hnp. unfold processMap.
  assert (toMapArray (SStr "*") = SArr [SStr "*"]) as -> by (vm_compute; reflexivity).
  rewrite (run_ok _ _ _ _ _ (resolveMapArray_star n (VRef lsrc) h
                               ltac:(discriminate) ltac:(discriminate))).
  cbn [apply_fields apply_field String.eqb Ascii.eqb Bool.eqb]. mrun.
  unfold elems_of, props_of. rewrite (cell_at_lookup _ _ _ Hnew), Hsrc.
  rewrite !run_bind_assoc.
  rewrite (run_ok _ _ _ _ _ (assign_props_new lnew ps [] h Hnew Hnd Hnp
                               ltac:(intros k _; apply not_elem_of_nil))).
  mrun. reflexivity.
Qed.

(** The fields of a copy whose properties stand for the fields. *)
Lemma mapM_fields (f : string * jsval → option (list (string * json)))
    (g : jsval → option (option json)) hpre fields ps :
  (∀ k v, f (k, v) = match g v with
                     | Some (Some j) => Some [(k, j)]
                     | Some None => Some []
                     | None => None
                     end) →
  (∀ v j, v ∈ List.map snd ps → stands_for hpre v j → g v = Some (Some j)) →
  Forall2 (λ kj kv, fst kv = fst kj ∧ stands_for hpre (snd kv) (snd kj)) fields ps →
  ∃ fs, mapM f ps = Some fs ∧ concat fs = fields.
Proof.
  intros Hf Hg HF. induction HF as [|[k j] [k' v] fields ps [Hk Hs] _ IH].
  - exists []. split; reflexivity.
  - cbn [fst snd List.map] in *. subst k'.
    destruct IH as (fs & E & Hfs).
    { intros v' j' Hin. apply Hg. right. exact Hin. }
    exists ([(k, j)] :: fs). cbn [mapM concat app].
    rewrite Hf, (Hg v j (list_elem_of_here _ _) Hs), E, Hfs. split; reflexivity.
Qed.

(** * The claims *)

(** ** C1: a mapper directive passed as its own top-level field *)

(** C1 (the code departs from the claim and from its own examples).
    Each top-level field specification is resolved on its own, so a mapper
    directive passed alone resolves to no pair and leaves the fields after
    it unaffected: [mapObject({street:"X", city:"Y"}, ":address.",
    "street", "city")] is [{street:"X", city:"Y"}], not
    [{address:{street:"X", city:"Y"}}], and
    [mapObject({metadata:{author:"H"}}, "metadata:docInfo.", "author")] is
    [{}], not [{docInfo:{author:"H"}}]. *)
Theorem mapper_alone_at_top_level n :
  mapObject_tree (S n) (JObj [("street", JStr "X"); ("city", JStr "Y")])
    [SStr ":address."; SStr "street"; SStr "city"]
  = Ok (Some (Some (JObj [("street", JStr "X"); ("city", JStr "Y")])),
        Some (Some (JObj [("street", JStr "X"); ("city", JStr "Y")])))
  ∧ mapObject_tree (S n) (JObj [("metadata", JObj [("author", JStr "H")])])
      [SStr "metadata:docInfo."; SStr "author"]
    = Ok (Some (Some (JObj [])),
          Some (Some (JObj [("metadata", JObj [("author", JStr "H")])]))).
Proof. split; vm_compute; reflexivity. Qed.

(** ** C2: the read/write round trip *)




(** ** C3: the last segment is an index *)

(** C3 (the code departs from the claim).  When the last segment is an
    index and the element there is a plain object, [writeValue] leaves the
    element in place: [writeValue([{x:1}], "0", 5)] returns [[{x:1}]].  An
    element that is an array is overwritten, and so is a plain object under
    a last segment that is a key. *)
Theorem index_last_keeps_object n :
  writeValue_tree (S n) (JArr [JObj [("x", JNum 1)]]) "0" (VNum 5)
  = Ok (Some (Some (JArr [JObj [("x", JNum 1)]])))
  ∧ writeValue_tree (S n) (JArr [JArr [JNum 1]]) "0" (VNum 5)
    = Ok (Some (Some (JArr [JNum 5])))
  ∧ writeValue_tree (S n) (JObj [("a", JObj [("x", JNum 1)])]) "a" (VNum 5)
    = Ok (Some (Some (JObj [("a", JNum 5)]))).
Proof. repeat split; vm_compute; reflexivity. Qed.

(** ** C4: a map string with an empty target *)

(** C4 (the code departs from the claim and from the comment of
    [resolveMap]).  With an empty target the identifier is the whole
    source path: [resolveMap({user:{name:"A"}}, "user.name:")] has the
    identifier ["user.name"], not ["name"]. *)
Theorem empty_target_keeps_source_path :
  resolveMap_tree (JObj [("user", JObj [("name", JStr "A")])]) "user.name:"
  = Ok ("user.name", VStr "A").
Proof. vm_compute. reflexivity. Qed.

(** ** C8: negative indices *)

(** C8.  For an array of length [n] and [0 <= k < n],
    [readValue(a, String(-1-k))] and [readValue(a, String(n-1-k))] are the
    same: both return the element [k] places before the last one. *)
Theorem negative_index_equivalence h l es ex (k : nat) :
  cell_at h l = CArr es ex → k < length es →
  readValue (VRef l) (VStr (string_of_Z (-1 - Z.of_nat k))) h
  = readValue (VRef l) (VStr (string_of_Z (Z.of_nat (length es) - 1 - Z.of_nat k))) h
  ∧ readValue (VRef l) (VStr (string_of_Z (-1 - Z.of_nat k))) h
    = (Ok (arr_at es (Z.of_nat (length es) - 1 - Z.of_nat k)), h).
Proof.
  intros Hcell Hk.
  rewrite !(readValue_index h l es ex) by exact Hcell.
  rewrite arr_at_from_end by exact Hk. split; reflexivity.
Qed.

Lemma negative_index_equivalence_witness :
  let h := [CArr [Some (VNum 10); Some (VNum 20); Some (VNum 30)] []] in
  readValue (VRef 0) (VStr (string_of_Z (-1 - Z.of_nat 1))) h
  = readValue (VRef 0) (VStr (string_of_Z (Z.of_nat 3 - 1 - Z.of_nat 1))) h
  ∧ readValue (VRef 0) (VStr (string_of_Z (-1 - Z.of_nat 1))) h
    = (Ok (VNum 20), h).
Proof.
  intros h.
  apply (negative_index_equivalence h 0
           [Some (VNum 10); Some (VNum 20); Some (VNum 30)] [] 1).
  - reflexivity.
  - vm_compute. lia.
Defined.

(** ** C10: [null] at the final segment *)




(** ** C9: an index or the append operator on a root that is no array *)

(** C9, as stated, fails for a root that is a string: strings have the
    method [at], and an assignment to a property of a string is dropped, so
    [writeValue("abc", "0", 1)] returns ["abc"] and throws nothing. *)
Lemma string_root_does_not_throw :
  run (writeValue 1 (VStr "abc") (VStr "0") (VNum 1)) [] = (Ok (VStr "abc"), [])
  ∧ ¬ (∃ n e h, run (writeValue n (VStr "abc") (VStr "0") (VNum 1)) [] = (Throw e, h)).
Proof.
  split; [vm_compute; reflexivity|].
  intros (n & e & h & H). destruct n as [|n]; vm_compute in H; discriminate H.
Qed.

(** C9 (amended).  For every value [v] other than [undefined], when the
    first segment of the path is a numeric index or the empty bracket and
    the root is not an array, [writeValue(root, path, v)] throws a
    [TypeError] (not [InvalidPathError], and not a silent no-op), unless
    the root is a string and the segment is a non-negative index. *)
Theorem index_on_non_array_throws n h root path v key rest :
  v ≠ VUndef →
  match_all write_re path = Some (key :: rest) →
  isArrayKey key || isIndexKey key = true →
  (cleanKeyOf key = "" ∨ isIndexKey (cleanKeyOf key) = true) →
  isArray h root = false →
  (∀ l, root = VRef l → l < length h) →
  (∀ s, root = VStr s → cleanKeyOf key = "" ∨ test negindex_re (cleanKeyOf key) = true) →
  ∃ h', run (writeValue (S n) root (VStr path) v) h = (Throw TypeError, h').
Proof.
  intros Hv Hm Hkey Hclean Harr Hroot Hstr. unfold run. cbn [writeValue].
  replace (isUndefined v) with false by (destruct v; done).
  mrun. rewrite Hm. cbn [write_segs].
  destruct (write_step_non_array (writeValue n) v root key (head rest) h
              Hkey Hclean Harr Hroot Hstr) as (h' & H).
  exists h'. unfold bind at 1 2. rewrite H. reflexivity.
Qed.

Lemma index_on_non_array_throws_witness :
  (∃ h', run (writeValue 1 (VRef 0) (VStr "0") (VNum 1)) [CObj []] = (Throw TypeError, h'))
  ∧ (∃ h', run (writeValue 1 (VRef 0) (VStr "[]") (VNum 1)) [CObj []] = (Throw TypeError, h'))
  ∧ (∃ h', run (writeValue 1 (VStr "abc") (VStr "-1") (VNum 1)) [] = (Throw TypeError, h')).
Proof.
  repeat split.
  - apply (index_on_non_array_throws 0 [CObj []] (VRef 0) "0" (VNum 1) "0" []);
      try (vm_compute; reflexivity); try discriminate.
    + right. vm_compute. reflexivity.
    + intros l [= <-]. vm_compute. lia.
  - apply (index_on_non_array_throws 0 [CObj []] (VRef 0) "[]" (VNum 1) "[]" []);
      try (vm_compute; reflexivity); try discriminate.
    + left. vm_compute. reflexivity.
    + intros l [= <-]. vm_compute. lia.
  - apply (index_on_non_array_throws 0 [] (VStr "abc") "-1" (VNum 1) "-1" []);
      try (vm_compute; reflexivity); try discriminate.
    + right. vm_compute. reflexivity.
    + intros s _. right. vm_compute. reflexivity.
Defined.

(** ** C6: the errors of [readValue] *)




(** ** C5: an empty segment between two dots *)

(** C5, as stated, fails: neither tokenization yields an empty segment, so
    a doubled dot is skipped on both sides and nothing is raised;
    [readValue({a:{b:1}}, "a..b")] is [1] and [writeValue({}, "a..b", 1)]
    is [{a:{b:1}}]. *)
Lemma empty_segment_not_rejected :
  readValue_tree (JObj [("a", JObj [("b", JNum 1)])]) "a..b" = Ok (Some (Some (JNum 1)))
  ∧ writeValue_tree 1 (JObj []) "a..b" (VNum 1)
    = Ok (Some (Some (JObj [("a", JObj [("b", JNum 1)])])))
  ∧ match_all read_re "a..b" = Some ["a"; "b"]
  ∧ match_all write_re "a..b" = Some ["a"; "b"].
Proof. repeat split; vm_compute; reflexivity. Qed.

(** C5 (amended).  The write-side tokenization does not reject a path with
    an empty segment between two dots: the empty segment is skipped
    (["a..b"] is cut into [a] and [b]), and [writeValue] raises
    [InvalidPathError] only when the path is not a string, or is the empty
    string while the value is [undefined]. *)
Theorem writeValue_path_error n h obj path v :
  ((∃ h', run (writeValue (S n) obj path v) h = (Throw InvalidPathError, h'))
   ↔ (is_string path = false ∨ (path = VStr "" ∧ v = VUndef)))
  ∧ (∀ a b : string, plain_key a = true → plain_key b = true →
       match_all write_re (String.append a (String.append ".." b)) = Some [a; b]).
Proof.
  split; [split|].
  - intros (h' & H). destruct path as [| | | |p| |]; try (left; reflexivity). right.
    destruct (String.eqb_spec p "") as [->|Hp].
    + destruct v; try (split; reflexivity); exfalso;
        (eapply (npe_writeValue (S n) obj ""); [right; discriminate|]);
        unfold run in H; rewrite H; reflexivity.
    + exfalso. eapply (npe_writeValue (S n) obj p v); [left; exact Hp|].
      unfold run in H. rewrite H. reflexivity.
  - intros [Hs|[-> ->]]; [|eexists; reflexivity].
    destruct path; try discriminate Hs; eexists; reflexivity.
  - intros a b Ha Hb. apply match_all_double_dot.
    + intros pre w suf Hw _ Hs. apply exec_write_key; assumption.
    + apply exec_write_none.
    + apply exec_write_at_dot.
    + apply (plain_key_spec a Ha).
    + apply (plain_key_spec b Hb).
Qed.

Lemma writeValue_path_error_witness :
  match_all write_re (String.append "a" (String.append ".." "b")) = Some ["a"; "b"]
  ∧ ∃ h', run (writeValue 1 VNull VNull VNull) [] = (Throw InvalidPathError, h').
Proof.
  split.
  - apply (proj2 (writeValue_path_error 0 [] VNull VNull VNull) "a" "b");
      vm_compute; reflexivity.
  - apply (proj2 (proj1 (writeValue_path_error 0 [] VNull VNull VNull))).
    left. reflexivity.
Defined.

(** ** C7: the source is not mutated *)


(** * Further properties of the source *)

(** ** The classifiers of keys *)

(** X1.  [isIndexKey(s)] holds exactly when [s] is a non-empty run of
    decimal digits, with or without one minus sign before it. *)
Theorem isIndexKey_shape (s : string) :
  isIndexKey s = true
  ↔ ∃ w, digits w
         ∧ (list_ascii_of_string s = w ∨ list_ascii_of_string s = "-"%char :: w).
Proof.
  unfold isIndexKey, indexkey_re. rewrite test_anchored, rmatch_eol2.
  rewrite bool_decide_eq_true, anchored_plain by reflexivity.
  cbn [lang]. setoid_rewrite lang_opt. setoid_rewrite lang_lit_iff.
  unfold digit. setoid_rewrite lang_plus_class. fold (digits). split.
  - intros (w1 & w2 & -> & [->| ->] & Hw); exists w2; (split; [exact Hw|]); auto.
  - intros (w & Hw & [->| ->]).
    + exists [], w. auto.
    + exists ["-"%char], w. auto.
Qed.

(** X2.  [isArrayKey(s)] holds exactly when [s] is an opening bracket, any
    number of characters that are not brackets, and a closing bracket. *)
Theorem isArrayKey_shape (s : string) :
  isArrayKey s = true
  ↔ ∃ w, bracket_free w ∧ list_ascii_of_string s = "["%char :: w ++ ["]"%char].
Proof.
  unfold isArrayKey, arraykey_re. rewrite test_anchored, rmatch_eol3.
  rewrite bool_decide_eq_true, anchored_plain by reflexivity.
  cbn [lang]. setoid_rewrite lang_lit_iff. split.
  - intros (w1 & w2 & -> & -> & w3 & w4 & -> & Hw & ->).
    exists w3. split; [|reflexivity].
    apply (proj1 (lang_star_class not_bracket w3)). exact Hw.
  - intros (w & Hw & ->). exists ["["%char], (w ++ ["]"%char]).
    split; [reflexivity|]. split; [reflexivity|].
    exists w, ["]"%char]. split; [reflexivity|]. split; [|reflexivity].
    apply (proj2 (lang_star_class not_bracket w)). exact Hw.
Qed.

(** X3.  [isMapper(s)] holds exactly when [s] is a dotted run of keys
    followed by a dot (["user."]), two dotted runs with a colon between
    them followed by a dot (["user:person."]), or a colon and a dotted run
    with or without a dot after it ([":address"], [":address."]). *)
Theorem isMapper_shape (s : string) :
  isMapper s = true
  ↔ (∃ r, dotted r ∧ list_ascii_of_string s = r ++ ["."%char])
    ∨ (∃ r t, dotted r ∧ dotted t
              ∧ list_ascii_of_string s = r ++ ":"%char :: t ++ ["."%char])
    ∨ (∃ t, dotted t
            ∧ (list_ascii_of_string s = ":"%char :: t
               ∨ list_ascii_of_string s = ":"%char :: t ++ ["."%char])).
Proof.
  unfold isMapper, mapper_re. rewrite test_alt_anchored, !rmatch_eol3.
  rewrite orb_true_iff, !bool_decide_eq_true, !anchored_plain by reflexivity.
  cbn [lang]. setoid_rewrite lang_opt. cbn [lang].
  setoid_rewrite lang_lit_iff. setoid_rewrite lang_keypath_dotted. split.
  - intros [(r & w2 & -> & Hr & w3 & w4 & -> & Ho & ->)
           |(w1 & w2 & -> & -> & t & w4 & -> & Ht & [->| ->])].
    + destruct Ho as [(w5 & t & -> & -> & Ht)| ->].
      * right. left. exists r, t. auto.
      * left. exists r. auto.
    + right. right. exists t. auto.
    + right. right. exists t. rewrite app_nil_r. auto.
  - intros [(r & Hr & ->)|[(r & t & Hr & Ht & ->)|(t & Ht & [->| ->])]].
    + left. exists r, ["."%char]. split; [reflexivity|]. split; [exact Hr|].
      exists [], ["."%char]. auto.
    + left. exists r, (":"%char :: t ++ ["."%char]). split; [reflexivity|].
      split; [exact Hr|]. exists (":"%char :: t), ["."%char].
      split; [reflexivity|]. split; [|reflexivity].
      left. exists [":"%char], t. auto.
    + right. exists [":"%char], t. split; [reflexivity|]. split; [reflexivity|].
      exists t, []. rewrite app_nil_r. auto.
    + right. exists [":"%char], (t ++ ["."%char]). split; [reflexivity|].
      split; [reflexivity|]. exists t, ["."%char]. auto.
Qed.

(** ** Map strings *)

(** X4.  [toMapArray] undoes a join: for pieces that hold no comma and no
    two colons in a row, [toMapArray(pieces.join(","))] is the list of the
    pieces, and so is [toMapArray(pieces.join("::"))] for pieces without
    comma and colon. *)
Theorem toMapArray_join (ws : list string) :
  ws ≠ [] →
  (Forall (λ w, sep_free (list_ascii_of_string w) = true) ws →
   toMapArray (SStr (String.concat "," ws)) = SArr (List.map SStr ws))
  ∧ (Forall (λ w, colon_free (list_ascii_of_string w) = true) ws →
     toMapArray (SStr (String.concat "::" ws)) = SArr (List.map SStr ws)).
Proof.
  intros Hne. unfold toMapArray. rewrite !split_multi. split; intros Hws.
  - rewrite (cut_concat "," sep_free); auto.
    + rewrite map_strings. reflexivity.
    + intros w acc rest Hw. exact (cut_comma w acc rest Hw).
  - rewrite (cut_concat "::" colon_free); auto using colon_free_sep_free.
    + rewrite map_strings. reflexivity.
    + intros w acc rest Hw. exact (cut_colons w acc rest Hw).
Qed.

Lemma toMapArray_join_witness :
  toMapArray (SStr "name:fullName,email,")
  = SArr [SStr "name:fullName"; SStr "email"; SStr ""]
  ∧ toMapArray (SStr "user.::name") = SArr [SStr "user."; SStr "name"].
Proof.
  split.
  - apply (proj1 (toMapArray_join ["name:fullName"; "email"; ""] ltac:(discriminate))).
    repeat constructor.
  - apply (proj2 (toMapArray_join ["user."; "name"] ltac:(discriminate))).
    repeat constructor.
Defined.

(** ** Reading *)

(** X5.  Along a path of non-negative indices and of plain keys under
    which [Object.prototype] has no property, [readValue] is a plain
    lookup: a key reads an own property of a plain object, an index an
    element of an array, anything else gives [undefined] from there on,
    and the heap is left as it was. *)
Theorem readValue_lookup segs obj h :
  segs ≠ [] → Forall valid_seg segs → no_inherited segs →
  run (readValue obj (VStr (path_text segs))) h = (Ok (lookup_path h obj segs), h).
Proof. intros Hne Hv Hpf. apply readValue_aux_path; assumption. Qed.

Lemma readValue_lookup_witness :
  let h := [CObj [("users", VRef 1)]; CArr [Some (VRef 2)] []; CObj [("name", VStr "A")]] in
  run (readValue (VRef 0) (VStr "users.0.name")) h = (Ok (VStr "A"), h)
  ∧ run (readValue (VRef 0) (VStr "users.name.0")) h = (Ok VUndef, h).
Proof.
  intros h. split.
  - apply (readValue_lookup [PKey "users"; PIdx 0; PKey "name"] (VRef 0) h).
    + discriminate.
    + repeat constructor; vm_compute; reflexivity.
    + repeat constructor.
  - apply (readValue_lookup [PKey "users"; PKey "name"; PIdx 0] (VRef 0) h).
    + discriminate.
    + repeat constructor; vm_compute; reflexivity.
    + repeat constructor.
Defined.

(** X6.  [readValue] never changes a cell: after the call the heap is the
    heap before it followed by the cells the call created, and with a
    path that holds no bracket nothing is created. *)
Theorem readValue_read_only obj path h :
  (∃ h2, snd (run (readValue obj path) h) = h ++ h2)
  ∧ (∀ p : string, path = VStr p → bracket_free (list_ascii_of_string p) →
       snd (run (readValue obj path) h) = h).
Proof.
  split; [apply grows_readValue_aux|].
  intros p -> Hb. unfold run, readValue.
  destruct (String.eqb_spec p "") as [->|Hne]; [reflexivity|].
  destruct (readValue_flat 1 obj p h Hb Hne) as [(v & ->)| ->]; reflexivity.
Qed.

Lemma readValue_read_only_witness :
  let h := [CObj [("a", VRef 1)]; CArr [Some (VNum 7)] []] in
  snd (run (readValue (VRef 0) (VStr "a.-1")) h) = h.
Proof.
  intros h. apply (proj2 (readValue_read_only (VRef 0) (VStr "a.-1") h) "a.-1").
  - reflexivity.
  - repeat constructor.
Defined.

(** X7.  [readValue(arr, "[path]")] maps over an array: for a path that
    starts with a key and is made of indices and of plain keys under
    which [Object.prototype] has no property, the result is a new array of
    the same length that holds, for each element that is a plain object,
    what the path reads from it (own properties, as in X5), and
    [undefined] for every other element; holes stay holes and the array
    read is left as it was. *)
Theorem readValue_array_map h l es ex segs :
  cell_at h l = CArr es ex → valid_path segs → no_inherited segs →
  run (readValue (VRef l) (VStr (String "[" (String.append (path_text segs) "]")))) h
  = (Ok (VRef (length h)),
     h ++ [CArr (List.map (option_map (λ item,
                   if isObject h item then lookup_path h item segs else VUndef)) es) []]).
Proof.
  intros Hcell Hp Hpf. destruct (valid_path_segs segs Hp) as [Hne Hv].
  pose proof (path_text_dotted segs Hne Hv) as Hd.
  pose proof (dotted_bracket_free _ Hd) as Hb.
  assert (list_ascii_of_string (String "[" (String.append (path_text segs) "]"))
          = "["%char :: list_ascii_of_string (path_text segs) ++ ["]"%char]) as Ek.
  { cbn [list_ascii_of_string]. rewrite list_ascii_of_string_app. reflexivity. }
  unfold run, readValue. rewrite readValue_aux_eq.
  change (String.eqb (String "[" (String.append (path_text segs) "]")) "") with false.
  cbn match. rewrite match_all_read_bracket by exact Hd. cbn [reduce].
  erewrite run_ok; [reflexivity|].
  apply (read_step_map _ _ (path_text segs) _ _ es
           (λ item, lookup_path h item segs)); try reflexivity.
  - apply (isArrayKey_bracketed _ _ Ek Hb).
  - rewrite (cleanKeyOf_bracketed _ _ Ek Hb). apply string_of_list_ascii_of_string.
  - apply path_text_nonempty; assumption.
  - apply isIndexKey_path, Hp.
  - unfold elems_of. rewrite Hcell. reflexivity.
  - intros item _. apply readValue_aux_path; assumption.
Qed.

Lemma readValue_array_map_witness :
  let h := [CArr [Some (VRef 1); Some (VNum 5); None] []; CObj [("name", VStr "A")]] in
  run (readValue (VRef 0) (VStr "[name]")) h
  = (Ok (VRef 2), h ++ [CArr [Some (VStr "A"); Some VUndef; None] []]).
Proof.
  intros h.
  apply (readValue_array_map h 0 [Some (VRef 1); Some (VNum 5); None] [] [PKey "name"]).
  - reflexivity.
  - repeat constructor; vm_compute; reflexivity.
  - repeat constructor.
Defined.

(** ** Writing *)

(** X8.  Writing a defined value along a path of plain keys that leads,
    through own properties that are plain objects, to an object changes
    one own property of that object, the one under the last key, and
    nothing else, the last key being one that the object owns or under
    which [Object.prototype] has no property: the value is stored as it
    is when the object owned a plain object under the key, and with
    [null] turned into [undefined] otherwise.  When the last key does not
    occur earlier in the path, reading the path back gives what was
    stored, and every other plain key of that object reads as before. *)
Theorem writeValue_existing_path n h root (keys : list string) (last : string) p ps v :
  Forall (λ k, plain_key k = true) keys → plain_key last = true →
  inherited_name last = false ∨ is_Some (prop_get last ps) →
  isObject h root = true → walk h root keys = Some (VRef p) →
  cell_at h p = CObj ps → p < length h → v ≠ VUndef →
  let path := VStr (String.concat "." (keys ++ [last])) in
  let v' := if isObject h (default VUndef (prop_get last ps)) then v else nullish v in
  let h' := <[p := CObj (prop_set last v' ps)]> h in
  run (writeValue (S n) root path v) h = (Ok root, h')
  ∧ (last ∉ keys → run (readValue root path) h' = (Ok v', h'))
  ∧ (∀ k' : string, plain_key k' = true → k' ≠ last →
       fst (run (readValue (VRef p) (VStr k')) h')
       = fst (run (readValue (VRef p) (VStr k')) h)).
Proof.
  intros Hks Hlast Hown Hroot Hwalk Hcell Hp Hv path v' h'.
  assert (Forall valid_seg (List.map PKey (keys ++ [last]))) as Hvalid.
  { apply keys_valid, Forall_app. split; [exact Hks|]. constructor; [exact Hlast|constructor]. }
  assert (List.map PKey (keys ++ [last]) ≠ []) as Hne by (destruct keys; discriminate).
  assert (cell_at h' p = CObj (prop_set last v' ps)) as Hcell'
    by (apply cell_at_insert, Hp).
  unfold path, run. rewrite <- keys_path_text. repeat split.
  - rewrite writeValue_eq, isUndefined_false by exact Hv. mrun.
    rewrite match_all_write_path by assumption.
    rewrite List.map_map. cbn [seg_text]. rewrite List.map_id.
    rewrite (run_ok _ _ _ _ _
               (write_segs_existing _ v keys h root last p ps Hks Hlast Hown Hwalk Hroot
                  Hcell Hp)).
    reflexivity.
  - intros Hnot. unfold readValue. cbn [readValue_aux].
    rewrite path_text_nonempty, match_all_read_path by assumption.
    rewrite List.map_map. cbn [seg_text]. rewrite List.map_id, reduce_app.
    rewrite (run_ok _ _ _ _ _
               (read_walk _ h' keys root (VRef p) Hks
                  (walk_insert h p ps last v' keys root _ Hcell Hnot Hwalk))).
    cbn [reduce]. rewrite bind_ret_r.
    rewrite (read_step_key _ last (VRef p) h' (prop_set last v' ps) Hlast)
      by (unfold props_of; rewrite Hcell'; reflexivity).
    apply member_own, prop_get_set.
  - intros k' Hk' Hne'.
    rewrite (readValue_member h' p _ k' Hcell' Hk'), (readValue_member h p _ k' Hcell Hk').
    unfold member. rewrite prop_get_set_ne by congruence.
    destruct (prop_get k' ps); [reflexivity|].
    unfold inherited. destruct (String.eqb k' "__proto__"); [reflexivity|].
    destruct (is_in k' object_prototype_functions); reflexivity.
Qed.

Lemma writeValue_existing_path_witness :
  let h := [CObj [("user", VRef 1)]; CObj [("name", VStr "A"); ("tags", VRef 2)]; CObj []] in
  run (writeValue 1 (VRef 0) (VStr "user.tags") VNull) h
  = (Ok (VRef 0),
     [CObj [("user", VRef 1)]; CObj [("name", VStr "A"); ("tags", VNull)]; CObj []])
  ∧ run (writeValue 1 (VRef 0) (VStr "user.name") VNull) h
    = (Ok (VRef 0),
       [CObj [("user", VRef 1)]; CObj [("name", VUndef); ("tags", VRef 2)]; CObj []]).
Proof.
  intros h. split.
  - apply (writeValue_existing_path 0 h (VRef 0) ["user"] "tags" 1
             [("name", VStr "A"); ("tags", VRef 2)] VNull);
      try reflexivity; try discriminate.
    + repeat constructor.
    + left. reflexivity.
    + vm_compute. lia.
  - apply (writeValue_existing_path 0 h (VRef 0) ["user"] "name" 1
             [("name", VStr "A"); ("tags", VRef 2)] VNull);
      try reflexivity; try discriminate.
    + repeat constructor.
    + left. reflexivity.
    + vm_compute. lia.
Defined.

(** X9.  Writing at an index inside an array.  With a negative index
    [writeValue] does what it does with the index counted from the
    start: for an array of length [n] and [0 <= k < n],
    [writeValue(a, String(-1-k), v)] and [writeValue(a, String(n-1-k), v)]
    have the same outcome.  For a defined [v] the element at that place is
    replaced by [v] (by [undefined] when [v] is [null]), unless it is a
    plain object, which stays. *)
Theorem negative_index_write n h l es ex (k : nat) v :
  cell_at h l = CArr es ex → l < length h → k < length es →
  (Z.of_nat (length es) ≤ array_limit)%Z →
  let z := (Z.of_nat (length es) - 1 - Z.of_nat k)%Z in
  run (writeValue (S n) (VRef l) (VStr (string_of_Z (-1 - Z.of_nat k))) v) h
  = run (writeValue (S n) (VRef l) (VStr (string_of_Z z)) v) h
  ∧ (v ≠ VUndef →
     run (writeValue (S n) (VRef l) (VStr (string_of_Z z)) v) h
     = (Ok (VRef l),
        if isObject h (arr_at es z) then h
        else <[l := CArr (<[length es - 1 - k := Some (nullish v)]> es) ex]> h)).
Proof.
  intros Hcell Hl Hk Hlim z. unfold run.
  assert (∀ z' : Z, z' = z ∨ z' = (-1 - Z.of_nat k)%Z →
            match match_all write_re (string_of_Z z') with
            | None => ret (VRef l)
            | Some segments => write_segs (writeValue n) v segments (VRef l) ;; ret (VRef l)
            end h
            = (Ok (VRef l),
               if isObject h (arr_at es z) then h
               else <[l := CArr (<[length es - 1 - k := Some (nullish v)]> es) ex]> h))
    as Hw.
  { intros z' Hz'.
    rewrite (write_index_segs n v z' h l es ex Hcell Hl) by (subst z; lia).
    assert (arr_at es z' = arr_at es z) as ->.
    { destruct Hz' as [->| ->]; [reflexivity|]. apply arr_at_from_end, Hk. }
    replace (Z.to_nat (if Z.ltb z' 0 then Z.of_nat (length es) + z' else z')%Z)
      with (length es - 1 - k); [reflexivity|].
    subst z. destruct Hz' as [->| ->];
      match goal with |- context [Z.ltb ?a 0] => destruct (Z.ltb_spec a 0) end; lia. }
  split.
  - rewrite !writeValue_eq. destruct (isUndefined v).
    + rewrite !run_bind_assoc.
      rewrite (run_ok _ _ _ _ _ (readValue_index h l es ex (-1 - Z.of_nat k) Hcell)).
      rewrite (run_ok _ _ _ _ _ (readValue_index h l es ex z Hcell)).
      rewrite arr_at_from_end by exact Hk. fold z. mrun.
      destruct (isUndefined (arr_at es z)); [reflexivity|].
      rewrite !Hw by auto. reflexivity.
    + mrun. rewrite !Hw by auto. reflexivity.
  - intros Hv. rewrite writeValue_eq, isUndefined_false by exact Hv. mrun.
    apply Hw. auto.
Qed.

Lemma negative_index_write_witness :
  let h := [CArr [Some (VNum 1); Some (VRef 1); Some (VNum 3)] []; CObj []] in
  run (writeValue 1 (VRef 0) (VStr "-1") (VNum 9)) h
  = (Ok (VRef 0), [CArr [Some (VNum 1); Some (VRef 1); Some (VNum 9)] []; CObj []])
  ∧ run (writeValue 1 (VRef 0) (VStr "-2") (VNum 9)) h = (Ok (VRef 0), h).
Proof.
  intros h.
  assert (cell_at h 0 = CArr [Some (VNum 1); Some (VRef 1); Some (VNum 3)] []) as Hcell
    by reflexivity.
  assert (0 < length h) as Hl by (vm_compute; lia).
  assert (Z.of_nat (length [Some (VNum 1); Some (VRef 1); Some (VNum 3)]) ≤ array_limit)%Z
    as Hlim by (vm_compute; discriminate).
  split.
  - destruct (negative_index_write 0 h 0 _ [] 0 (VNum 9) Hcell Hl
                ltac:(vm_compute; lia) Hlim) as [E H].
    etransitivity; [exact E|]. apply H. discriminate.
  - destruct (negative_index_write 0 h 0 _ [] 1 (VNum 9) Hcell Hl
                ltac:(vm_compute; lia) Hlim) as [E H].
    etransitivity; [exact E|]. apply H. discriminate.
Defined.

(** X10.  The append operator.  For a defined value [v],
    [writeValue(arr, "[]", v)] appends [v] to the array ([undefined] when
    [v] is [null]) and keeps the elements it had; [writeValue(obj,
    "key.[]", v)] appends to the array that [obj] owns under [key], and
    when [obj] owns no array under [key], a key that it owns or under
    which [Object.prototype] has no property, it first puts a new empty
    array there.  [writeValue(x, "[]", undefined)] does nothing. *)
Theorem writeValue_push n v :
  v ≠ VUndef →
  (∀ h l es ex,
     cell_at h l = CArr es ex → l < length h →
     (Z.of_nat (length es) < array_limit)%Z →
     run (writeValue (S n) (VRef l) (VStr "[]") v) h
     = (Ok (VRef l), <[l := CArr (es ++ [Some (nullish v)]) ex]> h))
  ∧ (∀ h l ps (k : string) a es ex,
       cell_at h l = CObj ps → l < length h → plain_key k = true →
       prop_get k ps = Some (VRef a) →
       cell_at h a = CArr es ex → a < length h →
       (Z.of_nat (length es) < array_limit)%Z →
       run (writeValue (S n) (VRef l) (VStr (String.append k ".[]")) v) h
       = (Ok (VRef l), <[a := CArr (es ++ [Some (nullish v)]) ex]> h))
  ∧ (∀ h l ps (k : string),
       cell_at h l = CObj ps → l < length h → plain_key k = true →
       inherited_name k = false ∨ is_Some (prop_get k ps) →
       isArray h (default VUndef (prop_get k ps)) = false →
       run (writeValue (S n) (VRef l) (VStr (String.append k ".[]")) v) h
       = (Ok (VRef l),
          <[length h := CArr [Some (nullish v)] []]>
            (<[l := CObj (prop_set k (VRef (length h)) ps)]> (h ++ [CArr [] []]))))
  ∧ (∀ h obj, run (writeValue (S n) obj (VStr "[]") VUndef) h = (Ok obj, h)).
Proof.
  intros Hv. unfold run. repeat split.
  - intros h l es ex Hcell Hl Hlim.
    rewrite writeValue_eq, isUndefined_false by exact Hv. mrun.
    change (match_all write_re "[]") with (Some ["[]"]).
    cbn [write_segs head]. rewrite run_bind_assoc.
    rewrite (run_ok _ _ _ _ _ (write_step_push_last _ v h l es ex Hcell Hl Hlim)).
    reflexivity.
  - intros h l ps k a es ex Hcell Hl Hk Hget Ha Hla Hlim.
    rewrite writeValue_eq, isUndefined_false by exact Hv. mrun.
    rewrite match_all_write_key_push by (apply (seg_keyrun (PKey k)), Hk).
    cbn [write_segs head]. rewrite !run_bind_assoc.
    pose proof (write_step_key_then_array (writeValue n) v k "[]" h l ps Hk
                  (or_intror (ex_intro _ _ Hget)) Hcell Hl eq_refl) as H1.
    rewrite Hget in H1. cbn [default from_option id] in H1.
    rewrite isArray_ref, Ha in H1. rewrite (run_ok _ _ _ _ _ H1).
    rewrite !run_bind_assoc.
    rewrite (run_ok _ _ _ _ _ (write_step_push_last _ v h a es ex Ha Hla Hlim)).
    reflexivity.
  - intros h l ps k Hcell Hl Hk Hnp He.
    rewrite writeValue_eq, isUndefined_false by exact Hv. mrun.
    rewrite match_all_write_key_push by (apply (seg_keyrun (PKey k)), Hk).
    cbn [write_segs head]. rewrite !run_bind_assoc.
    pose proof (write_step_key_then_array (writeValue n) v k "[]" h l ps Hk
                  Hnp Hcell Hl eq_refl) as H1.
    rewrite He in H1. rewrite (run_ok _ _ _ _ _ H1). rewrite !run_bind_assoc.
    erewrite run_ok.
    2:{ apply (write_step_push_last _ v _ (length h) [] []).
        - rewrite cell_at_insert_ne by lia. apply cell_at_alloc.
        - rewrite length_insert, length_app. cbn. lia.
        - reflexivity. }
    reflexivity.
Qed.

Lemma writeValue_push_witness :
  run (writeValue 1 (VRef 0) (VStr "emails.[]") (VStr "a")) [CObj []]
  = (Ok (VRef 0), [CObj [("emails", VRef 1)]; CArr [Some (VStr "a")] []])
  ∧ run (writeValue 1 (VRef 0) (VStr "emails.[]") (VStr "b"))
      [CObj [("emails", VRef 1)]; CArr [Some (VStr "a")] []]
    = (Ok (VRef 0), [CObj [("emails", VRef 1)]; CArr [Some (VStr "a"); Some (VStr "b")] []]).
Proof.
  split.
  - apply (proj1 (proj2 (proj2 (writeValue_push 0 (VStr "a") ltac:(discriminate))))
             [CObj []] 0 [] "emails"); try reflexivity.
    + vm_compute. lia.
    + left. reflexivity.
  - apply (proj1 (proj2 (writeValue_push 0 (VStr "b") ltac:(discriminate)))
             [CObj [("emails", VRef 1)]; CArr [Some (VStr "a")] []] 0
             [("emails", VRef 1)] "emails" 1 [Some (VStr "a")] []); try reflexivity.
    + vm_compute. lia.
    + vm_compute. lia.
Defined.

(** ** Resolving maps *)



(** X12.  A source that is [undefined] or [null].  [resolveMapArray]
    resolves nothing from such a source, whatever the maps (a mapper at
    the head included), and throws nothing; [mapObject(null, ...fields)]
    is a new empty object for every list of fields, and
    [mapObject(undefined, ...fields)] throws the [SyntaxError] of
    [JSON.parse(undefined)]. *)
Theorem nullish_source n h :
  (∀ obj items, obj = VUndef ∨ obj = VNull →
     run (resolveMapArray (S n) obj (SArr items)) h = (Ok [], h))
  ∧ (∀ fields,
       run (mapObject (S n) VNull fields) h = (Ok (VRef (length h)), h ++ [CObj []]))
  ∧ (∀ fields m,
       run (mapObject m VUndef fields) h = (Throw SyntaxError, h ++ [CObj []])).
Proof.
  unfold run. split; [|split].
  - intros obj items Ho. apply resolveMapArray_nullish, Ho.
  - intros fields. unfold mapObject, json_clone. mrun. cbn [stringify parse].
    mrun. apply process_all_null.
  - intros fields m. reflexivity.
Qed.

Lemma nullish_source_witness :
  run (resolveMapArray 1 VNull (SArr [SStr "user."; SStr "name"; SStr ""])) []
  = (Ok [], []).
Proof.
  apply (proj1 (nullish_source 0 []) VNull [SStr "user."; SStr "name"; SStr ""]).
  right. reflexivity.
Defined.

(** X13.  What a mapper at the head of a map array does, the item after
    it being no mapper.  ["from."] resolves the remaining items against
    [readValue(obj, from)]; [":to"] resolves them against [obj] and puts
    [to.] before every identifier; ["from:to."] does both; [":to."] reads
    from [to] and writes to [to]. *)
Theorem mapper_directive n obj (r t : string) rest h :
  dotted (list_ascii_of_string r) → dotted (list_ascii_of_string t) →
  no_mapper_head rest →
  let resolve src := resolveMapArray (S n) src (SArr rest) in
  let to := String.append t "." in
  run (resolveMapArray (S n) obj (SArr (SStr (String.append r ".") :: rest))) h
  = run (let* src := readValue obj (VStr r) in resolve src) h
  ∧ run (resolveMapArray (S n) obj
           (SArr (SStr (String.append r (String ":" (String.append t "."))) :: rest))) h
    = run (let* src := readValue obj (VStr r) in prefixed to (resolve src)) h
  ∧ run (resolveMapArray (S n) obj (SArr (SStr (String ":" t) :: rest))) h
    = run (prefixed to (resolve obj)) h
  ∧ run (resolveMapArray (S n) obj (SArr (SStr (String ":" (String.append t ".")) :: rest))) h
    = run (let* src := readValue obj (VStr t) in prefixed to (resolve src)) h.
Proof.
  intros Hr Ht Hno resolve to. unfold run. repeat split; rewrite resolveMapArray_eq.
  - rewrite (bind_congr _ _ _ _ (resolve_mapper_read obj r rest h Hr)).
    rewrite run_bind_assoc. apply bind_ext. intros src h'. mrun.
    rewrite (resolve_tail n src "" rest h' Hno). apply prefixed_empty.
  - rewrite (bind_congr _ _ _ _ (resolve_mapper_read_write obj r t rest h Hr Ht)).
    rewrite run_bind_assoc. apply bind_ext. intros src h'. mrun.
    apply resolve_tail, Hno.
  - rewrite (run_ok _ _ _ _ _ (resolve_mapper_write obj t rest h Ht)).
    apply resolve_tail, Hno.
  - rewrite (bind_congr _ _ _ _ (resolve_mapper_write_read obj t rest h Ht)).
    rewrite run_bind_assoc. apply bind_ext. intros src h'. mrun.
    apply resolve_tail, Hno.
Qed.

Lemma mapper_directive_witness :
  let h := [CObj [("user", VRef 1)]; CObj [("name", VStr "A")]] in
  run (resolveMapArray 2 (VRef 0) (SArr [SStr "user:person."; SStr "name"])) h
  = (Ok [("person.name", VStr "A")], h).
Proof.
  intros h.
  assert (dotted (list_ascii_of_string "user")) as Hr
    by (apply plain_key_dotted; reflexivity).
  assert (dotted (list_ascii_of_string "person")) as Ht
    by (apply plain_key_dotted; reflexivity).
  etransitivity.
  - apply (proj1 (proj2 (mapper_directive 1 (VRef 0) "user" "person" [SStr "name"] h
                           Hr Ht ltac:(vm_compute; reflexivity)))).
  - vm_compute. reflexivity.
Defined.

(** ** The main function *)

(** X14.  The result of [mapObject] shares no object of the program with
    what existed before the call: the value returned is a primitive,
    [Object.prototype] (which the key [__proto__] reads), or an object
    the call created, and every object the call created holds such
    values only.  (A call that reads a method of [Object.prototype] stops
    as [Unmodelled] and returns nothing.) *)
Theorem mapObject_fresh n h obj fields :
  let r := run (mapObject n obj fields) h in
  (∀ a, fst r = Ok a → vfresh h a)
  ∧ (∀ l c, length h ≤ l → snd r !! l = Some c → cell_fresh h c).
Proof.
  destruct (safe_mapObject h n obj fields h (extends_refl h)) as [[_ Hf] Hr].
  split; [exact Hr|exact Hf].
Qed.

(** X15.  [mapObject] with a list of map strings that are plain keys
    ["k"] or renames ["k:t"], with distinct targets, no key being the name
    of a property of [Object.prototype], on a source that is a plain
    object without a [toObject] property.  The result is a new object that
    owns, in the order of the list, the target of each named field that
    the source has: it holds a deep copy of the field, and [undefined]
    when the field is [null], so that its tree holds the named fields
    that are not [null].  Fields not named are left out, and the source is
    unchanged. *)
Theorem mapObject_pick n fields specs :
  wf_json (JObj fields) → field_get "toObject" fields = None →
  Forall pick_ok specs → NoDup (List.map pick_target specs) →
  let maps := List.map (λ p, SStr (pick_text p)) specs in
  mapObject_tree (S n) (JObj fields) maps
  = Ok (Some (Some (JObj (flat_map (picked fields) specs))), Some (Some (JObj fields)))
  ∧ mapObject_keys (S n) (JObj fields) maps
    = Ok (Some (flat_map (picked_key fields) specs)).
Proof.
  intros Hwf Hto Hok Hnd maps.
  destruct (mapObject_object_start (S n) fields maps Hwf Hto)
    as (h1 & src & ps' & hc & E1 & Hc1 & Hs & Hcpre & Hext & HF & Em).
  set (hpre := (h1 ++ [CObj []]) ++ hc) in *.
  assert (length h1 < length hpre) as Hlen
    by (unfold hpre; rewrite !length_app; cbn [length]; lia).
  assert (cell_at (hpre ++ [CObj ps']) (length hpre) = CObj ps') as Hsrc
    by apply cell_at_alloc.
  unfold maps in Em.
  rewrite (process_all_picks n (length hpre) (length h1) ps' specs []
             (hpre ++ [CObj ps'])) in Em; try assumption; cycle 1.
  { lia. }
  { unfold hpre. rewrite <- !app_assoc.
    rewrite lookup_app_r, Nat.sub_diag by lia. reflexivity. }
  { intros p _. cbn. apply not_elem_of_nil. }
  cbn [app] in Em. fold maps in Em.
  set (hf := <[length h1 := CObj (flat_map (taken ps') specs)]> (hpre ++ [CObj ps'])) in *.
  assert (length hf = S (length hpre)) as Hlf
    by (unfold hf; rewrite length_insert, length_app; cbn [length]; lia).
  assert (cell_at hf (length h1) = CObj (flat_map (taken ps') specs)) as Hres
    by (apply cell_at_insert; rewrite length_app; lia).
  split.
  - unfold mapObject_tree, run. unfold bind at 1. rewrite E1.
    unfold bind at 1. rewrite Em. mrun. cbn [fst]. f_equal. f_equal.
    + (* the result *)
      unfold tree_of. cbn [stringify]. rewrite Hres.
      match goal with
      | |- context [mapM ?f _] =>
          destruct (mapM_taken f (stringify (length hf) hf) hpre fields ps' specs)
            as (fs & Efs & Hfs)
      end.
      * intros k v. reflexivity.
      * rewrite Hlf. reflexivity.
      * intros k v j Hv [Hb Ht]. rewrite Hlf. unfold hf.
        rewrite (stringify_insert_fresh (h1 ++ [CObj []]) (hpre ++ [CObj ps']));
          [|exact Hext|rewrite length_app; cbn [length]; lia|].
        -- rewrite stringify_extend by assumption. exact Ht.
        -- assert (length (h1 ++ [CObj []]) ≤ length hpre) as Hle
             by (rewrite length_app; cbn [length]; lia).
           pose proof (cell_at_fresh (h1 ++ [CObj []]) (hpre ++ [CObj ps']) (length hpre)
                         Hext Hle) as Hfr.
           rewrite Hsrc in Hfr.
           pose proof (prop_get_fresh (h1 ++ [CObj []]) k ps' Hfr) as Hk.
           rewrite Hv in Hk. exact Hk.
      * exact HF.
      * rewrite Efs, Hfs. reflexivity.
    + (* the source *)
      destruct Hs as [Hb Ht].
      apply (tree_of_extend h1 _ _ _ Hc1 Hb); [|exact Ht].
      unfold hf. rewrite take_insert_ge by lia.
      unfold hpre. rewrite <- !app_assoc. apply take_app_length.
  - unfold mapObject_keys, run. unfold bind at 1. rewrite E1.
    unfold bind at 1. rewrite Em. mrun. cbn [fst].
    unfold own_keys, props_of. rewrite Hres. cbn [option_map].
    rewrite (taken_picked_keys hpre fields ps' specs HF). reflexivity.
Qed.

Lemma mapObject_pick_witness :
  let source := JObj [("name", JStr "A"); ("email", JNull); ("age", JNum 3)] in
  let maps := [SStr "name"; SStr "age:years"; SStr "email"; SStr "missing"] in
  mapObject_tree 1 source maps
  = Ok (Some (Some (JObj [("name", JStr "A"); ("years", JNum 3)])), Some (Some source))
  ∧ mapObject_keys 1 source maps = Ok (Some ["name"; "years"; "email"]).
Proof.
  intros source maps.
  apply (mapObject_pick 0
           [("name", JStr "A"); ("email", JNull); ("age", JNum 3)]
           [Keep "name"; Rename "age" "years"; Keep "email"; Keep "missing"]).
  - apply wf_json_fields. split.
    + cbn. repeat constructor; absent_char.
    + repeat constructor.
  - reflexivity.
  - repeat constructor.
  - cbn. repeat constructor; absent_char.
Defined.

(** X16.  [mapObject(obj, "*")] on a source that is a plain object without
    a [toObject] and without a [__proto__] property returns a new object
    with the tree of the source: every field is copied, in order, a
    [null] field included (named by its key it would be left out of the
    tree).  The source is unchanged. *)
Theorem mapObject_wildcard n fields :
  wf_json (JObj fields) → field_get "toObject" fields = None →
  "__proto__" ∉ List.map fst fields →
  mapObject_tree (S n) (JObj fields) [SStr "*"]
  = Ok (Some (Some (JObj fields)), Some (Some (JObj fields))).
Proof.
  intros Hwf Hto Hnp.
  destruct (mapObject_object_start (S n) fields [SStr "*"] Hwf Hto)
    as (h1 & src & ps' & hc & E1 & Hc1 & Hs & Hcpre & Hext & HF & Em).
  unfold mapObject_tree, run. unfold bind at 1. rewrite E1.
  unfold bind at 1. rewrite Em. clear Em.
  set (hpre := (h1 ++ [CObj []]) ++ hc) in *.
  assert (length h1 < length hpre) as Hlen
    by (unfold hpre; rewrite !length_app; cbn [length]; lia).
  assert (cell_at (hpre ++ [CObj ps']) (length hpre) = CObj ps') as Hsrc
    by apply cell_at_alloc.
  assert (List.map fst ps' = List.map fst fields) as Hkeys.
  { clear -HF. induction HF as [|? ? ? ? [Hk _] _ IH]; [reflexivity|].
    cbn [List.map]. rewrite Hk, IH. reflexivity. }
  cbn [process_all]. unfold bind at 1.
  rewrite (processMap_star n (length hpre) (length h1) ps' (hpre ++ [CObj ps']) Hsrc);
    cycle 1.
  { unfold hpre. rewrite <- !app_assoc.
    rewrite lookup_app_r, Nat.sub_diag by lia. reflexivity. }
  { rewrite Hkeys. apply (proj1 (wf_json_fields fields)), Hwf. }
  { rewrite Hkeys. exact Hnp. }
  mrun. cbn [fst]. f_equal. f_equal.
  - (* the result *)
    unfold tree_of. cbn [stringify].
    rewrite cell_at_insert by (rewrite length_app; lia).
    match goal with
    | |- context [mapM ?f _] =>
        destruct (mapM_fields f
                    (stringify (length (<[length h1 := CObj ps']> (hpre ++ [CObj ps'])))
                       (<[length h1 := CObj ps']> (hpre ++ [CObj ps'])))
                    hpre fields ps') as (fs & Efs & Hfs)
    end.
    + intros k v. reflexivity.
    + intros v j Hv [Hb Ht].
      rewrite length_insert, length_app. cbn [length]. rewrite Nat.add_1_r.
      rewrite (stringify_insert_fresh (h1 ++ [CObj []]) (hpre ++ [CObj ps']));
        [|exact Hext|rewrite length_app; cbn [length]; lia|].
      * rewrite stringify_extend by assumption. exact Ht.
      * assert (length (h1 ++ [CObj []]) ≤ length hpre) as Hle
          by (rewrite length_app; cbn [length]; lia).
        pose proof (cell_at_fresh (h1 ++ [CObj []]) (hpre ++ [CObj ps']) (length hpre)
                      Hext Hle) as Hfr.
        rewrite Hsrc in Hfr. cbn [cell_fresh] in Hfr. unfold props_fresh in Hfr.
        rewrite Forall_forall in Hfr.
        apply list_elem_of_fmap in Hv as (kv & -> & Hin). apply Hfr, Hin.
    + exact HF.
    + rewrite Efs, Hfs. reflexivity.
  - (* the source *)
    destruct Hs as [Hb Ht].
    apply (tree_of_extend h1 _ _ _ Hc1 Hb); [|exact Ht].
    rewrite take_insert_ge by lia.
    unfold hpre. rewrite <- !app_assoc. apply take_app_length.
Qed.

Lemma mapObject_wildcard_witness :
  mapObject_tree 1
    (JObj [("name", JStr "A"); ("email", JNull); ("tags", JArr [JNum 1; JNum 2])])
    [SStr "*"]
  = Ok (Some (Some (JObj [("name", JStr "A"); ("email", JNull);
                          ("tags", JArr [JNum 1; JNum 2])])),
        Some (Some (JObj [("name", JStr "A"); ("email", JNull);
                          ("tags", JArr [JNum 1; JNum 2])]))).
Proof.
  apply (mapObject_wildcard 0
           [("name", JStr "A"); ("email", JNull); ("tags", JArr [JNum 1; JNum 2])]).
  - apply wf_json_fields. split.
    + cbn. repeat constructor; absent_char.
    + repeat constructor.
  - reflexivity.
  - cbn. absent_char.
Defined.


